(** * Phonebook: a console contact catalogue kept in a CSV file

    A shallow embedding of [main.py]: the [Contact] record, the CSV file
    storage ([read_all], [add_one], [save_all]), the two console formatters
    and the catalogue operations of [Phonebook] (add, edit, delete, the two
    searches and their prompts), the formatters once more with the text
    they write and their pauses, and the menu loop of a session, followed
    by the properties of the specification that were checked against them
    and by further properties of the code.

    Conventions of the embedding.
    - A Python [str] is a [string]; characters outside ASCII are held as
      their UTF-8 bytes, so comparison and substring search agree with
      Python on well-formed text.  [str.lower], [str.isnumeric], [int] and
      [str.split] are modelled on ASCII and on the Cyrillic block, which is
      the alphabet of the prompts, tokens and headers of the program.
    - Interactive input is the list of lines still to be typed; [input()]
      takes the head of that list and raises [EOFError] on the empty list.
      Every prompt loop of the program reads one line per iteration and is
      therefore a structural recursion on that list.
    - What is printed on the console never influences control flow and is
      not part of the state of the catalogue.  Where the text matters, for
      the formatters and for [get_answer], a run at the console carries
      the text written ([Console]); [len] of a text counts characters.
    - The storage file is opened in text mode: universal newlines on
      reading, and a POSIX line separator on writing. *)

From Stdlib Require Import ZArith List Bool Ascii String DecimalString Lia.
Import ListNotations.

Local Open Scope string_scope.
Local Open Scope list_scope.
Local Open Scope Z_scope.

Infix "+:+" := String.append (at level 60, right associativity).

(* ================================================================== *)
(** * Text primitives of the Python runtime *)
(* ================================================================== *)

Definition LF : ascii := "010"%char.
Definition CR : ascii := "013"%char.
Definition COMMA : ascii := ","%char.
Definition DQUOTE : ascii := "034"%char.

(** [sep.join(parts)] *)
Fixpoint join (sep : string) (parts : list string) : string :=
  match parts with
  | [] => EmptyString
  | [p] => p
  | p :: ps => p +:+ sep +:+ join sep ps
  end.

(** [c in s] for a character *)
Fixpoint has_char (c : ascii) (s : string) : bool :=
  match s with
  | EmptyString => false
  | String d t => Ascii.eqb c d || has_char c t
  end.

(** [needle in hay] for two strings *)
Fixpoint contains (needle hay : string) : bool :=
  String.prefix needle hay ||
  match hay with
  | EmptyString => false
  | String _ t => contains needle t
  end.

Definition in_range (lo hi n : nat) : bool := (lo <=? n)%nat && (n <=? hi)%nat.

Definition lower_ascii (c : ascii) : ascii :=
  let n := nat_of_ascii c in
  if in_range 65 90 n then ascii_of_nat (n + 32) else c.

(** [s.lower()]: the Latin capitals, and the capitals of the Cyrillic block
    U+0400..U+042F, whose UTF-8 form is the byte 208 followed by a byte of
    128..175; their small letters are U+0430..U+045F. *)
Fixpoint lower (s : string) : string :=
  match s with
  | EmptyString => EmptyString
  | String c t =>
      match t with
      | String d t' =>
          let n := nat_of_ascii d in
          if Ascii.eqb c (ascii_of_nat 208) then
            if in_range 144 159 n
            then String c (String (ascii_of_nat (n + 32)) (lower t'))
            else if in_range 160 175 n
            then String (ascii_of_nat 209) (String (ascii_of_nat (n - 32)) (lower t'))
            else if in_range 128 143 n
            then String (ascii_of_nat 209) (String (ascii_of_nat (n + 16)) (lower t'))
            else String c (lower t)
          else String (lower_ascii c) (lower t)
      | EmptyString => String (lower_ascii c) EmptyString
      end
  end.

Definition is_digit (c : ascii) : bool := in_range 48 57 (nat_of_ascii c).

Fixpoint all_digits (s : string) : bool :=
  match s with
  | EmptyString => true
  | String c t => is_digit c && all_digits t
  end.

(** [s.isnumeric()]: false on the empty string *)
Definition isnumeric (s : string) : bool :=
  match s with
  | EmptyString => false
  | _ => all_digits s
  end.

Fixpoint int_digits (acc : Z) (s : string) : Z :=
  match s with
  | EmptyString => acc
  | String c t => int_digits (10 * acc + Z.of_nat (nat_of_ascii c - 48)) t
  end.

(** [int(s)] on a string of decimal digits; [None] stands for ValueError *)
Definition py_int (s : string) : option Z :=
  if isnumeric s then Some (int_digits 0 s) else None.

(** [str(n)] for an integer *)
Definition str_int (n : Z) : string := NilZero.string_of_int (Z.to_int n).

Definition is_space (c : ascii) : bool :=
  let n := nat_of_ascii c in in_range 9 13 n || in_range 28 32 n.

(** [s.split()]: the maximal runs of non-blank characters; [cur] is the
    run being read. *)
Fixpoint split_from (cur : string) (s : string) : list string :=
  match s with
  | EmptyString => match cur with EmptyString => [] | _ => [cur] end
  | String c t =>
      if is_space c
      then match cur with
           | EmptyString => split_from EmptyString t
           | _ => cur :: split_from EmptyString t
           end
      else split_from (cur +:+ String c EmptyString) t
  end.

Definition split (s : string) : list string := split_from EmptyString s.

Fixpoint str_in (s : string) (l : list string) : bool :=
  match l with
  | [] => false
  | x :: xs => String.eqb s x || str_in s xs
  end.

(* ================================================================== *)
(** * Values, exceptions and the field table *)
(* ================================================================== *)

(** The values a contact attribute holds at run time: the index is an
    [int] when the program numbers a contact and a [str] when the contact
    is read from the file; [None] is what [csv.DictReader] supplies for a
    column that a short row does not reach. *)
Inductive PyVal : Type :=
| VInt (n : Z)
| VStr (s : string)
| VNone.

Definition PyVal_eqb (a b : PyVal) : bool :=
  match a, b with
  | VInt m, VInt n => Z.eqb m n
  | VStr s, VStr t => String.eqb s t
  | VNone, VNone => true
  | _, _ => false
  end.

(** [str(v)] *)
Definition py_str (v : PyVal) : string :=
  match v with
  | VInt n => str_int n
  | VStr s => s
  | VNone => "None"
  end.

(** [bool(v)] *)
Definition truthy (v : PyVal) : bool :=
  match v with
  | VInt n => negb (Z.eqb n 0)
  | VStr s => negb (String.eqb s EmptyString)
  | VNone => false
  end.

Inductive Exn : Type :=
| EOFError
| ValueError
| KeyError (key : string)
| IndexError
| AttributeError
| TypeError
| CsvError.

(** A computation that returns or raises *)
Inductive Result (A : Type) : Type :=
| Returns (a : A)
| Raises (e : Exn).
Arguments Returns {A} a.
Arguments Raises {A} e.

Record SearchCondition : Type := mkSearchCondition {
  field : string;
  text : string
}.

Record Field : Type := mkField {
  title_en : string;
  title_ru : string
}.

Definition field_map : list (Z * Field) :=
  [ (1, mkField "index" "№");
    (2, mkField "last_name" "Фамилия");
    (3, mkField "name" "Имя");
    (4, mkField "middle_name" "Отчество");
    (5, mkField "organization" "Организация");
    (6, mkField "work_phone" "Рабочий телефон");
    (7, mkField "private_phone" "Личный телефон") ].

(** [field_map[k]] *)
Fixpoint field_map_get (k : Z) (m : list (Z * Field)) : option Field :=
  match m with
  | [] => None
  | (k', f) :: m' => if Z.eqb k k' then Some f else field_map_get k m'
  end.

Definition csv_fields : list string := map (fun kf => title_ru (snd kf)) field_map.
Definition contact_fields : list string := map (fun kf => title_en (snd kf)) field_map.

(** A text attribute: a [str], or [None] *)
Definition Text : Type := option string.

Definition text_val (t : Text) : PyVal :=
  match t with
  | Some s => VStr s
  | None => VNone
  end.

(** The dataclass.  The index is an [int], a [str] or [None]; the six text
    attributes hold a [str] typed at a prompt or read from the file, or
    [None] after a file row shorter than the header. *)
Record Contact : Type := mkContact {
  index : PyVal;
  last_name : Text;
  name : Text;
  middle_name : Text;
  organization : Text;
  work_phone : Text;
  private_phone : Text
}.

(** [Contact(index=i)]: the other attributes default to the empty string *)
Definition new_contact (i : PyVal) : Contact :=
  mkContact i (Some EmptyString) (Some EmptyString) (Some EmptyString)
              (Some EmptyString) (Some EmptyString) (Some EmptyString).

(** [contact.__dict__.items()], in declaration order *)
Definition contact_items (c : Contact) : list (string * PyVal) :=
  [ ("index", index c);
    ("last_name", text_val (last_name c));
    ("name", text_val (name c));
    ("middle_name", text_val (middle_name c));
    ("organization", text_val (organization c));
    ("work_phone", text_val (work_phone c));
    ("private_phone", text_val (private_phone c)) ].

(** [contact.data_row], that is [list(contact.__dict__.values())] *)
Definition data_row (c : Contact) : list PyVal := map snd (contact_items c).

(** [contact.full_name] *)
Definition full_name (c : Contact) : string :=
  py_str (text_val (last_name c)) +:+ " " +:+ py_str (text_val (name c))
  +:+ " " +:+ py_str (text_val (middle_name c)).

(** The generated [__eq__] of the dataclass: attribute by attribute *)
Definition Contact_eqb (a b : Contact) : bool :=
  forallb (fun p => PyVal_eqb (fst p) (snd p)) (combine (data_row a) (data_row b)).

(** [getattr(contact, attr)]; [None] stands for AttributeError *)
Definition getattr (c : Contact) (attr : string) : option PyVal :=
  match find (fun kv => String.eqb attr (fst kv)) (contact_items c) with
  | Some kv => Some (snd kv)
  | None => None
  end.

(** [setattr(contact, attr, data)] for a text attribute and a typed line *)
Definition setattr (c : Contact) (attr : string) (data : string) : Contact :=
  let v := Some data in
  if String.eqb attr "last_name" then
    mkContact (index c) v (name c) (middle_name c) (organization c) (work_phone c) (private_phone c)
  else if String.eqb attr "name" then
    mkContact (index c) (last_name c) v (middle_name c) (organization c) (work_phone c) (private_phone c)
  else if String.eqb attr "middle_name" then
    mkContact (index c) (last_name c) (name c) v (organization c) (work_phone c) (private_phone c)
  else if String.eqb attr "organization" then
    mkContact (index c) (last_name c) (name c) (middle_name c) v (work_phone c) (private_phone c)
  else if String.eqb attr "work_phone" then
    mkContact (index c) (last_name c) (name c) (middle_name c) (organization c) v (private_phone c)
  else if String.eqb attr "private_phone" then
    mkContact (index c) (last_name c) (name c) (middle_name c) (organization c) (work_phone c) v
  else c.

(** [contact.index = v] *)
Definition set_index (c : Contact) (v : PyVal) : Contact :=
  mkContact v (last_name c) (name c) (middle_name c) (organization c)
            (work_phone c) (private_phone c).

(* ================================================================== *)
(** * Dictionaries with string keys *)
(* ================================================================== *)

Section Dict.
Context {V : Type}.

(** [d[k]]; [None] stands for KeyError *)
Fixpoint dict_get (k : string) (d : list (string * V)) : option V :=
  match d with
  | [] => None
  | (k', v) :: d' => if String.eqb k k' then Some v else dict_get k d'
  end.

(** [d[k] = v]: a key that is present keeps its place and takes the
    new value *)
Fixpoint dict_set (k : string) (v : V) (d : list (string * V)) : list (string * V) :=
  match d with
  | [] => [(k, v)]
  | (k', v') :: d' =>
      if String.eqb k k' then (k', v) :: d' else (k', v') :: dict_set k v d'
  end.

(** [dict(items)]: a later item overrides an earlier one with its key *)
Definition dict_of (items : list (string * V)) : list (string * V) :=
  fold_left (fun d kv => dict_set (fst kv) (snd kv) d) items [].
End Dict.

(* ================================================================== *)
(** * The csv module, excel dialect *)
(* ================================================================== *)

(** The writer and the reader of the standard library as the storage uses
    them: the default dialect (comma, double quote, doubled quotes inside a
    quoted field, minimal quoting, no escape character, not strict).  The
    limit the reader puts on the size of a field is left out. *)

(** ** Writing: [csv.writer] with minimal quoting *)

Definition CRLF : string := String CR (String LF EmptyString).

(** The text the writer stores for a value: [None] is written as the
    empty string, a number through [str]. *)
Definition csv_text (v : PyVal) : string :=
  match v with
  | VInt n => str_int n
  | VStr s => s
  | VNone => EmptyString
  end.

(** A field is quoted when it holds the delimiter, the quote character or
    a character of the line terminator. *)
Definition needs_quote (s : string) : bool :=
  has_char COMMA s || has_char DQUOTE s || has_char CR s || has_char LF s.

Fixpoint double_quotes (s : string) : string :=
  match s with
  | EmptyString => EmptyString
  | String c t =>
      if Ascii.eqb c DQUOTE
      then String DQUOTE (String DQUOTE (double_quotes t))
      else String c (double_quotes t)
  end.

Definition quote_field (s : string) : string :=
  if needs_quote s
  then String DQUOTE (double_quotes s +:+ String DQUOTE EmptyString)
  else s.

(** [writer.writerow(row)]: the text added to the file.  A row that would
    be written as nothing at all, a single empty field, is written as a
    pair of quotes. *)
Definition writerow (row : list PyVal) : string :=
  let body := join "," (map (fun v => quote_field (csv_text v)) row) in
  match row, body with
  | _ :: _, EmptyString => String DQUOTE (String DQUOTE CRLF)
  | _, _ => body +:+ CRLF
  end.

(** [DictWriter._dict_to_list]: a key outside the field names is refused
    (ValueError), a field name without a value is written as the empty
    string. *)
Definition _dict_to_list (fieldnames : list string) (rowdict : list (string * PyVal))
  : Result (list PyVal) :=
  if forallb (fun kv => str_in (fst kv) fieldnames) rowdict
  then Returns (map (fun key => match dict_get key rowdict with
                                | Some v => v
                                | None => VStr EmptyString
                                end) fieldnames)
  else Raises ValueError.

(** [DictWriter.writeheader()] *)
Definition writeheader (fieldnames : list string) : string :=
  writerow (map VStr fieldnames).

(** ** Reading: text mode, then the state machine of [csv.reader] *)

(** Universal newlines: a carriage return, with the line feed that may
    follow it, is read as one line feed. *)
Fixpoint universal_newlines (s : string) : string :=
  match s with
  | EmptyString => EmptyString
  | String c t =>
      if Ascii.eqb c CR
      then String LF (match t with
                      | String d t' =>
                          if Ascii.eqb d LF then universal_newlines t'
                          else universal_newlines t
                      | EmptyString => EmptyString
                      end)
      else String c (universal_newlines t)
  end.

(** Iterating over a text file: the lines, each with its line feed; the
    last one may lack it. *)
Fixpoint splitlines (s : string) : list string :=
  match s with
  | EmptyString => []
  | String c t =>
      if Ascii.eqb c LF then String c EmptyString :: splitlines t
      else match splitlines t with
           | [] => [String c EmptyString]
           | l :: ls => String c l :: ls
           end
  end.

Definition file_lines (content : string) : list string :=
  splitlines (universal_newlines content).

(** The parser states of the reader that the excel dialect can reach (it
    has no escape character). *)
Inductive ParserState : Type :=
| START_RECORD
| START_FIELD
| IN_FIELD
| IN_QUOTED_FIELD
| QUOTE_IN_QUOTED_FIELD
| EAT_CRNL.

Definition ParserState_eqb (a b : ParserState) : bool :=
  match a, b with
  | START_RECORD, START_RECORD | START_FIELD, START_FIELD
  | IN_FIELD, IN_FIELD | IN_QUOTED_FIELD, IN_QUOTED_FIELD
  | QUOTE_IN_QUOTED_FIELD, QUOTE_IN_QUOTED_FIELD | EAT_CRNL, EAT_CRNL => true
  | _, _ => false
  end.

Record Reader : Type := mkReader {
  rd_state : ParserState;
  rd_field : string;          (* the field being read *)
  rd_fields : list string     (* the fields of the record read so far *)
}.

Definition parse_reset : Reader := mkReader START_RECORD EmptyString [].

Definition set_state (st : ParserState) (rd : Reader) : Reader :=
  mkReader st (rd_field rd) (rd_fields rd).

Definition parse_save_field (rd : Reader) : Reader :=
  mkReader (rd_state rd) EmptyString (rd_fields rd ++ [rd_field rd]).

Definition parse_add_char (c : ascii) (rd : Reader) : Reader :=
  mkReader (rd_state rd) (rd_field rd +:+ String c EmptyString) (rd_fields rd).

Definition is_newline (c : ascii) : bool := Ascii.eqb c LF || Ascii.eqb c CR.

(** After a line break or the end of the line *)
Definition end_of_line (c : option ascii) : ParserState :=
  match c with
  | None => START_RECORD
  | Some _ => EAT_CRNL
  end.

Definition is_eol_or_newline (c : option ascii) : bool :=
  match c with
  | None => true
  | Some ch => is_newline ch
  end.

Definition is_char (x : ascii) (c : option ascii) : bool :=
  match c with
  | None => false
  | Some ch => Ascii.eqb ch x
  end.

(** The START_FIELD case, which START_RECORD falls through to *)
Definition process_start_field (rd : Reader) (c : option ascii) : Reader :=
  if is_eol_or_newline c then set_state (end_of_line c) (parse_save_field rd)
  else if is_char DQUOTE c then set_state IN_QUOTED_FIELD rd
  else if is_char COMMA c then parse_save_field rd
  else match c with
       | Some ch => set_state IN_FIELD (parse_add_char ch rd)
       | None => rd
       end.

(** [parse_process_char]: one character of the line, or its end ([None]);
    the result [None] stands for [csv.Error]. *)
Definition parse_process_char (rd : Reader) (c : option ascii) : option Reader :=
  match rd_state rd with
  | START_RECORD =>
      match c with
      | None => Some rd
      | Some ch =>
          if is_newline ch then Some (set_state EAT_CRNL rd)
          else Some (process_start_field (set_state START_FIELD rd) c)
      end
  | START_FIELD => Some (process_start_field rd c)
  | IN_FIELD =>
      if is_eol_or_newline c then Some (set_state (end_of_line c) (parse_save_field rd))
      else if is_char COMMA c then Some (set_state START_FIELD (parse_save_field rd))
      else match c with
           | Some ch => Some (parse_add_char ch rd)
           | None => Some rd
           end
  | IN_QUOTED_FIELD =>
      match c with
      | None => Some rd
      | Some ch =>
          if Ascii.eqb ch DQUOTE then Some (set_state QUOTE_IN_QUOTED_FIELD rd)
          else Some (parse_add_char ch rd)
      end
  | QUOTE_IN_QUOTED_FIELD =>
      if is_char DQUOTE c
      then match c with
           | Some ch => Some (set_state IN_QUOTED_FIELD (parse_add_char ch rd))
           | None => Some rd
           end
      else if is_char COMMA c then Some (set_state START_FIELD (parse_save_field rd))
      else if is_eol_or_newline c then Some (set_state (end_of_line c) (parse_save_field rd))
      else match c with
           | Some ch => Some (set_state IN_FIELD (parse_add_char ch rd))
           | None => Some rd
           end
  | EAT_CRNL =>
      match c with
      | None => Some (set_state START_RECORD rd)
      | Some ch => if is_newline ch then Some rd else None
      end
  end.

(** The characters of one line, then its end *)
Fixpoint process_line (rd : Reader) (line : string) : option Reader :=
  match line with
  | EmptyString => parse_process_char rd None
  | String c t =>
      match parse_process_char rd (Some c) with
      | Some rd' => process_line rd' t
      | None => None
      end
  end.

(** What iterating over the reader yields: the rows read, and whether the
    iteration ended with [csv.Error] instead of the end of the input. *)
Definition Rows : Type := (list (list string) * bool)%type.

Definition yield (row : list string) (rest : Rows) : Rows :=
  (row :: fst rest, snd rest).

(** The reader at the end of the input: a record left open inside a quoted
    field is returned as it stands. *)
Definition at_end_of_input (rd : Reader) : Rows :=
  if negb (String.eqb (rd_field rd) EmptyString)
     || ParserState_eqb (rd_state rd) IN_QUOTED_FIELD
  then ([rd_fields (parse_save_field rd)], false)
  else ([], false).

(** [Reader_iternext], repeated to the end of the input: lines are taken
    until the parser is back at START_RECORD, which completes a row. *)
Fixpoint read_rows (rd : Reader) (lines : list string) : Rows :=
  match lines with
  | [] => at_end_of_input rd
  | l :: ls =>
      match process_line rd l with
      | None => ([], true)
      | Some rd' =>
          match rd_state rd' with
          | START_RECORD => yield (rd_fields rd') (read_rows parse_reset ls)
          | _ => read_rows rd' ls
          end
      end
  end.

(** [csv.reader(file)] *)
Definition csv_reader (content : string) : Rows :=
  read_rows parse_reset (file_lines content).

(** ** [csv.DictReader] *)

Definition is_blank_row (row : list string) : bool :=
  match row with
  | [] => true
  | _ => false
  end.

(** The dictionary of one row: the values under the field names; a field
    name the row does not reach is given [None].  (Values beyond the field
    names go under the key [None], which no lookup by title uses: they are
    not kept.) *)
Definition row_dict (fieldnames row : list string) : list (string * Text) :=
  fold_left (fun d key => dict_set key None d)
            (skipn (List.length row) fieldnames)
            (dict_of (combine fieldnames (map Some row))).

(** The first row gives the field names; blank rows after it are skipped. *)
Definition DictReader (rows : Rows) : list (list (string * Text)) * bool :=
  match fst rows with
  | [] => ([], snd rows)
  | fieldnames :: data =>
      (map (row_dict fieldnames) (filter (fun r => negb (is_blank_row r)) data),
       snd rows)
  end.

(* ================================================================== *)
(** * CsvFileStorage *)
(* ================================================================== *)

(** The storage is the content of the file at [file_path]. *)

(** [[row[field] for field in csv_fields]] *)
Fixpoint row_values (titles : list string) (row : list (string * Text))
  : Result (list Text) :=
  match titles with
  | [] => Returns []
  | t :: ts =>
      match dict_get t row with
      | None => Raises (KeyError t)
      | Some v =>
          match row_values ts row with
          | Returns vs => Returns (v :: vs)
          | Raises e => Raises e
          end
      end
  end.

(** The outer comprehension of [read_all]: rows are taken from the reader
    one at a time, so the first failure met is the one raised. *)
Fixpoint read_data (rows : list (list (string * Text))) (failed : bool)
  : Result (list (list Text)) :=
  match rows with
  | [] => if failed then Raises CsvError else Returns []
  | row :: rest =>
      match row_values csv_fields row with
      | Raises e => Raises e
      | Returns vs =>
          match read_data rest failed with
          | Returns data => Returns (vs :: data)
          | Raises e => Raises e
          end
      end
  end.

(** The constructor call of [read_all], on the seven unpacked values *)
Definition Contact_of_values (vs : list Text) : Result Contact :=
  match vs with
  | [i; l; n; m; o; w; p] => Returns (mkContact (text_val i) l n m o w p)
  | _ => Raises TypeError
  end.

Fixpoint map_result {A B : Type} (f : A -> Result B) (l : list A) : Result (list B) :=
  match l with
  | [] => Returns []
  | a :: l' =>
      match f a with
      | Raises e => Raises e
      | Returns b =>
          match map_result f l' with
          | Returns bs => Returns (b :: bs)
          | Raises e => Raises e
          end
      end
  end.

Definition read_all (content : string) : Result (list Contact) :=
  let reader := DictReader (csv_reader content) in
  match read_data (fst reader) (snd reader) with
  | Raises e => Raises e
  | Returns data => map_result Contact_of_values data
  end.

(** [add_one]: the file is opened for appending and the joined row is
    written as it is. *)
Definition add_one (contact : Contact) (content : string) : string :=
  content +:+ join "," (map py_str (data_row contact)).

(** [csv_field_map] of [_to_csv]: attribute name to column title *)
Definition csv_field_map : list (string * string) :=
  dict_of (map (fun kf => (title_en (snd kf), title_ru (snd kf))) field_map).

Definition _to_csv (contact : Contact) : Result (list (string * PyVal)) :=
  match map_result (fun kv => match dict_get (fst kv) csv_field_map with
                              | Some title => Returns (title, snd kv)
                              | None => Raises (KeyError (fst kv))
                              end) (contact_items contact) with
  | Returns items => Returns (dict_of items)
  | Raises e => Raises e
  end.

(** [DictWriter.writerows]: [written] is the text written so far, which
    stays in the file when a row is refused. *)
Fixpoint writerows (fieldnames : list string) (rows : list (list (string * PyVal)))
                   (written : string) : string * option Exn :=
  match rows with
  | [] => (written, None)
  | r :: rs =>
      match _dict_to_list fieldnames r with
      | Raises e => (written, Some e)
      | Returns vals => writerows fieldnames rs (written +:+ writerow vals)
      end
  end.

(** [save_all]: the file is truncated on opening; the new content, and the
    exception raised on the way if any. *)
Definition save_all (contacts : list Contact) : string * option Exn :=
  match map_result _to_csv contacts with
  | Raises e => (EmptyString, Some e)
  | Returns rows => writerows csv_fields rows (writeheader csv_fields)
  end.

(** [_init_storage]: a missing file ([None]) is created with the header. *)
Definition _init_storage (file : option string) : string :=
  match file with
  | Some content => content
  | None => writeheader csv_fields
  end.

(* ================================================================== *)
(** * The catalogue state and its computations *)
(* ================================================================== *)

Inductive ContactFormatter : Type :=
| ConsoleVisitCardFormatter
| ConsoleTableFormatter.

Record Phonebook : Type := mkPhonebook {
  _storage : string;                 (* the content of the storage file *)
  _formatter : ContactFormatter;
  _contacts : list Contact;
  _last_index : Z
}.

(** A run of an operation ends by returning, with the input lines left
    and the state reached, or by raising, with the state at that moment. *)
Inductive Outcome (A : Type) : Type :=
| Done (a : A) (rest : list string) (pb : Phonebook)
| Raised (e : Exn) (pb : Phonebook).
Arguments Done {A} a rest pb.
Arguments Raised {A} e pb.

Definition M (A : Type) : Type := list string -> Phonebook -> Outcome A.

Definition ret {A : Type} (a : A) : M A := fun inp pb => Done a inp pb.

Definition bind {A B : Type} (m : M A) (k : A -> M B) : M B :=
  fun inp pb =>
    match m inp pb with
    | Done a rest pb' => k a rest pb'
    | Raised e pb' => Raised e pb'
    end.

Notation "x <- m ;; k" := (bind m (fun x => k))
  (at level 61, m at next level, right associativity).
Notation "m ;; k" := (bind m (fun _ => k))
  (at level 61, right associativity).

Definition raise {A : Type} (e : Exn) : M A := fun _ pb => Raised e pb.

Definition lift {A : Type} (r : Result A) : M A :=
  match r with
  | Returns a => ret a
  | Raises e => raise e
  end.

Definition get : M Phonebook := fun inp pb => Done pb inp pb.
Definition put (pb : Phonebook) : M unit := fun inp _ => Done tt inp pb.

(** [input()] *)
Definition input : M string :=
  fun inp pb =>
    match inp with
    | [] => Raised EOFError pb
    | line :: rest => Done line rest pb
    end.

(** The state an outcome ends in *)
Definition final_state {A : Type} (o : Outcome A) : Phonebook :=
  match o with
  | Done _ _ pb => pb
  | Raised _ pb => pb
  end.

Definition set_contacts (cs : list Contact) (pb : Phonebook) : Phonebook :=
  mkPhonebook (_storage pb) (_formatter pb) cs (_last_index pb).
Definition set_last_index (n : Z) (pb : Phonebook) : Phonebook :=
  mkPhonebook (_storage pb) (_formatter pb) (_contacts pb) n.
Definition set_storage (content : string) (pb : Phonebook) : Phonebook :=
  mkPhonebook content (_formatter pb) (_contacts pb) (_last_index pb).
Definition set_formatter (f : ContactFormatter) (pb : Phonebook) : Phonebook :=
  mkPhonebook (_storage pb) f (_contacts pb) (_last_index pb).

(** [len(l)] *)
Definition len {A : Type} (l : list A) : Z := Z.of_nat (List.length l).

(** ** [get_answer] *)

(** [v in range(lo, hi)] *)
Definition in_py_range (lo hi : Z) (v : PyVal) : bool :=
  match v with
  | VInt n => (lo <=? n) && (n <? hi)
  | _ => false
  end.

(** [v in l] for a list of values *)
Definition in_py_list (l : list PyVal) (v : PyVal) : bool :=
  existsb (PyVal_eqb v) l.

(** The loop of [get_answer] reads a line per iteration: an empty line
    returns [None], a line of digits is taken as a number, and anything
    that is not a correct answer asks again. *)
Fixpoint get_answer (correct_answers : PyVal -> bool)
                    (inp : list string) (pb : Phonebook) : Outcome (option PyVal) :=
  match inp with
  | [] => Raised EOFError pb
  | answer :: rest =>
      if String.eqb answer EmptyString then Done None rest pb
      else if isnumeric answer then
        match py_int answer with
        | None => Raised ValueError pb
        | Some n =>
            if correct_answers (VInt n) then Done (Some (VInt n)) rest pb
            else get_answer correct_answers rest pb
        end
      else if correct_answers (VStr answer) then Done (Some (VStr answer)) rest pb
      else get_answer correct_answers rest pb
  end.

(** ** The formatters, called with [paginate=False]

    Every call from the operations below passes [paginate=False]; the
    pauses between pages are then never entered and neither formatter
    converts an index.  What remains of a formatter, beside the text it
    prints, is the question the table asks when there are more rows than
    the default page holds. *)

Definition DEFAULT_PAGE_SIZE : Z := 5.

Module ConsoleVisitCardFormatter_.
Definition print_contacts (contacts : list Contact) : M unit := ret tt.
End ConsoleVisitCardFormatter_.

Module ConsoleTableFormatter_.
Definition _get_page_size : M Z :=
  new_page_size <- get_answer (in_py_range 1 101) ;;
  match new_page_size with
  | Some (VInt n) => ret n
  | _ => ret DEFAULT_PAGE_SIZE
  end.

Definition print_contacts (contacts : list Contact) : M unit :=
  if DEFAULT_PAGE_SIZE <? len contacts
  then _get_page_size ;; ret tt
  else ret tt.
End ConsoleTableFormatter_.

Definition print_contacts (contacts : list Contact) : M unit :=
  pb <- get ;;
  match _formatter pb with
  | ConsoleVisitCardFormatter => ConsoleVisitCardFormatter_.print_contacts contacts
  | ConsoleTableFormatter => ConsoleTableFormatter_.print_contacts contacts
  end.

(** ** Storage calls of the catalogue *)

(** A step that only changes the state *)
Definition update (f : Phonebook -> Phonebook) : M unit :=
  fun inp pb => Done tt inp (f pb).

(** A step that changes the state and may raise after it *)
Definition attempt (f : Phonebook -> Phonebook * option Exn) : M unit :=
  fun inp pb =>
    match snd (f pb) with
    | Some e => Raised e (fst (f pb))
    | None => Done tt inp (fst (f pb))
    end.

(** [self._storage.add_one(contact)] *)
Definition storage_add_one (contact : Contact) (pb : Phonebook) : Phonebook :=
  set_storage (add_one contact (_storage pb)) pb.

(** [self._storage.save_all(self._contacts)] *)
Definition storage_save_all (pb : Phonebook) : Phonebook * option Exn :=
  let written := save_all (_contacts pb) in
  (set_storage (fst written) pb, snd written).

(** [Phonebook(formatter, storage)] *)
Definition Phonebook_init (formatter : ContactFormatter) (content : string)
  : Result Phonebook :=
  match read_all content with
  | Raises e => Raises e
  | Returns contacts => Returns (mkPhonebook content formatter contacts (len contacts))
  end.

(** ** Contact objects

    A contact is an object that the list and local variables share: a
    variable refers either to an element of [_contacts], by its position,
    or to a contact that is not, or no longer, in the list. *)
Inductive Ref : Type :=
| InList (pos : nat)
| Detached (c : Contact).

Definition deref (r : Ref) (cs : list Contact) : option Contact :=
  match r with
  | InList pos => nth_error cs pos
  | Detached c => Some c
  end.

Fixpoint update_nth {A : Type} (n : nat) (f : A -> A) (l : list A) : list A :=
  match l, n with
  | [], _ => []
  | x :: l', O => f x :: l'
  | x :: l', S n' => x :: update_nth n' f l'
  end.

(** The position of the first element equal to [c] *)
Fixpoint index_of (c : Contact) (l : list Contact) : option nat :=
  match l with
  | [] => None
  | x :: l' =>
      if Contact_eqb x c then Some O
      else match index_of c l' with
           | Some n => Some (S n)
           | None => None
           end
  end.

Fixpoint remove_nth {A : Type} (n : nat) (l : list A) : list A :=
  match l, n with
  | [], _ => []
  | _ :: l', O => l'
  | x :: l', S n' => x :: remove_nth n' l'
  end.

(** [contacts.remove(contact)]: the first element equal to the contact is
    removed, which is the contact itself unless an equal one precedes it;
    ValueError if there is none.  Returns the list left, and where the
    variable points afterwards. *)
Definition list_remove (r : Ref) (cs : list Contact) : Result (Ref * list Contact) :=
  match deref r cs with
  | None => Raises IndexError
  | Some c =>
      match index_of c cs with
      | None => Raises ValueError
      | Some q =>
          Returns (match r with
                   | InList pos => if Nat.eqb q pos then Detached c
                                   else InList (Nat.pred pos)
                   | Detached _ => r
                   end,
                   remove_nth q cs)
      end
  end.

(** [enumerate(contacts, start)] with [contact.index = idx] on each *)
Fixpoint renumber (start : Z) (cs : list Contact) : list Contact :=
  match cs with
  | [] => []
  | c :: cs' => set_index c (VInt start) :: renumber (start + 1) cs'
  end.

Definition _update_indexes (pb : Phonebook) : Phonebook :=
  let cs := renumber 1 (_contacts pb) in
  set_last_index (len cs) (set_contacts cs pb).

(** [int(v)]; the index a prompt returns is a number already *)
Definition int_of (v : PyVal) : Result Z :=
  match v with
  | VInt n => Returns n
  | VStr s => match py_int s with
              | Some n => Returns n
              | None => Raises ValueError
              end
  | VNone => Raises TypeError
  end.

(** [l[i]]: a negative subscript counts from the end *)
Definition subscript {A : Type} (l : list A) (i : Z) : option nat :=
  let pos := if i <? 0 then len l + i else i in
  if (0 <=? pos) && (pos <? len l) then Some (Z.to_nat pos) else None.

(** [_get_contact_by_index]: the contact comes back as a reference into
    the list. *)
Definition _get_contact_by_index : M (option Ref) :=
  pb <- get ;;
  idx <- get_answer (in_py_range 1 (_last_index pb + 1)) ;;
  match idx with
  | None => ret None
  | Some v =>
      if negb (truthy v) then ret None
      else
        n <- lift (int_of v) ;;
        match subscript (_contacts pb) (n - 1) with
        | Some pos => ret (Some (InList pos))
        | None => raise IndexError
        end
  end.

(** ** Adding and editing *)

Inductive Mode : Type := edit | add.

Definition Mode_eqb (a b : Mode) : bool :=
  match a, b with
  | edit, edit | add, add => true
  | _, _ => false
  end.

(** [setattr] through a reference *)
Definition setattr_ref (r : Ref) (attr data : string) : M Ref :=
  match r with
  | InList pos =>
      update (fun pb =>
        set_contacts (update_nth pos (fun c => setattr c attr data) (_contacts pb)) pb) ;;
      ret r
  | Detached c => ret (Detached (setattr c attr data))
  end.

(** The loop of [_input_contact_data] over the field table: one line per
    field other than the index; an empty line leaves the attribute as it
    is and three dashes empty it. *)
Fixpoint input_fields (r : Ref) (fields : list (Z * Field)) : M Ref :=
  match fields with
  | [] => ret r
  | (_, f) :: fs =>
      if String.eqb (title_en f) "index" then input_fields r fs
      else
        data <- input ;;
        r' <- (if negb (String.eqb data EmptyString)
               then setattr_ref r (title_en f)
                                (if String.eqb data "---" then EmptyString else data)
               else ret r) ;;
        input_fields r' fs
  end.

(** [_input_contact_data]: in mode [add] the contact is first appended to
    the list, and is filled in there. *)
Definition _input_contact_data (contact : Ref) (mode : Mode) : M Ref :=
  pb <- get ;;
  r <- (match mode, contact with
        | add, Detached c =>
            put (set_contacts (_contacts pb ++ [c]) pb) ;;
            ret (InList (List.length (_contacts pb)))
        | _, _ => ret contact
        end) ;;
  input_fields r field_map.

Definition _add_contact : M unit :=
  pb <- get ;;
  let contact := Detached (new_contact (VInt (_last_index pb + 1))) in
  r <- _input_contact_data contact add ;;
  update (fun pb => set_last_index (_last_index pb + 1) pb) ;;
  pb' <- get ;;
  match deref r (_contacts pb') with
  | Some c => update (storage_add_one c)
  | None => raise IndexError
  end.

Definition _change_contact : M unit :=
  found <- _get_contact_by_index ;;
  match found with
  | None => ret tt
  | Some contact =>
      pb <- get ;;
      match deref contact (_contacts pb) with
      | None => raise IndexError
      | Some c =>
          print_contacts [c] ;;
          _input_contact_data contact edit ;;
          attempt storage_save_all
      end
  end.

(** ** Deleting *)

(** The confirmation loop of [_delete_contact].  It is left by [return]
    on a refusal, and by its condition once the answer is one of the four
    tokens the condition lists; any other answer asks again. *)
Fixpoint confirm_delete (contact : Ref) (inp : list string) (pb : Phonebook)
  : Outcome unit :=
  match inp with
  | [] => Raised EOFError pb
  | line :: rest =>
      let answer := lower line in
      if str_in answer ["n"; "н"; "нет"; "no"] then Done tt rest pb
      else if str_in answer ["y"; "д"; "да"; "yes"] then
        match list_remove contact (_contacts pb) with
        | Raises e => Raised e pb
        | Returns (contact', cs) =>
            let saved := storage_save_all (_update_indexes (set_contacts cs pb)) in
            match snd saved with
            | Some e => Raised e (fst saved)
            | None =>
                if negb (str_in answer ["n"; "н"; "y"; "д"])
                then confirm_delete contact' rest (fst saved)
                else Done tt rest (fst saved)
            end
        end
      else
        if negb (str_in answer ["n"; "н"; "y"; "д"])
        then confirm_delete contact rest pb
        else Done tt rest pb
  end.

Definition _delete_contact : M unit :=
  found <- _get_contact_by_index ;;
  match found with
  | None => ret tt
  | Some contact =>
      pb <- get ;;
      match deref contact (_contacts pb) with
      | None => raise IndexError
      | Some c => print_contacts [c] ;; confirm_delete contact
      end
  end.

(** [_change_formatter] *)
Definition _change_formatter : M unit :=
  update (fun pb =>
    match _formatter pb with
    | ConsoleVisitCardFormatter => set_formatter ConsoleTableFormatter pb
    | ConsoleTableFormatter => set_formatter ConsoleVisitCardFormatter pb
    end).

(** ** Searching *)

(** [v.lower()]: only a [str] has the method *)
Definition lower_of (v : PyVal) : Result string :=
  match v with
  | VStr s => Returns (lower s)
  | _ => Raises AttributeError
  end.

(** [contact in found_contacts], by the equality of the dataclass *)
Definition contact_in (contact : Contact) (found : list Contact) : bool :=
  existsb (Contact_eqb contact) found.

(** [_print_search_results] *)
Definition _print_search_results (contacts : list Contact) : M unit :=
  match contacts with
  | [] => ret tt
  | _ => print_contacts contacts
  end.

(** The inner loop of [_find_contacts_by_all_fields], over the values of
    one contact *)
Fixpoint scan_values (search : string) (contact : Contact) (values : list PyVal)
                     (found_contacts : list Contact) : Result (list Contact) :=
  match values with
  | [] => Returns found_contacts
  | value :: rest =>
      match lower_of value with
      | Raises e => Raises e
      | Returns low =>
          scan_values search contact rest
            (if contains search low && negb (contact_in contact found_contacts)
             then found_contacts ++ [contact]
             else found_contacts)
      end
  end.

(** Its outer loop, over the contacts *)
Fixpoint scan_contacts (search : string) (contacts : list Contact)
                       (found_contacts : list Contact) : Result (list Contact) :=
  match contacts with
  | [] => Returns found_contacts
  | contact :: rest =>
      match scan_values search contact (data_row contact) found_contacts with
      | Raises e => Raises e
      | Returns found => scan_contacts search rest found
      end
  end.

Definition _find_contacts_by_all_fields : M unit :=
  line <- input ;;
  let search := lower line in
  pb <- get ;;
  found_contacts <- lift (scan_contacts search (_contacts pb) []) ;;
  _print_search_results found_contacts.

(** [_get_field_indexes]: a line is accepted when the filter keeps every
    one of its tokens; the filter keeps the tokens of digits whose number
    is in [range(max(field_map.keys()))]. *)
Definition max_key (m : list (Z * Field)) : Z :=
  fold_left Z.max (map fst m) 0.

Fixpoint filter_tokens (answer : list string) : Result (list Z) :=
  match answer with
  | [] => Returns []
  | x :: rest =>
      if isnumeric x then
        match py_int x with
        | None => Raises ValueError
        | Some n =>
            match filter_tokens rest with
            | Raises e => Raises e
            | Returns kept =>
                Returns (if in_py_range 0 (max_key field_map) (VInt n)
                         then n :: kept else kept)
            end
        end
      else filter_tokens rest
  end.

Fixpoint _get_field_indexes (inp : list string) (pb : Phonebook) : Outcome (list Z) :=
  match inp with
  | [] => Raised EOFError pb
  | line :: rest =>
      let answer := split line in
      match filter_tokens answer with
      | Raises e => Raised e pb
      | Returns search_field_indexes =>
          if negb (len search_field_indexes =? len answer)
          then _get_field_indexes rest pb
          else Done search_field_indexes rest pb
      end
  end.

(** [_get_search_conditions]: one line per selected field *)
Fixpoint _get_search_conditions (search_field_indexes : list Z) : M (list SearchCondition) :=
  match search_field_indexes with
  | [] => ret []
  | k :: rest =>
      match field_map_get k field_map with
      | None => raise (KeyError (str_int k))
      | Some f =>
          search_text <- input ;;
          conditions <- _get_search_conditions rest ;;
          ret (mkSearchCondition (title_en f) search_text :: conditions)
      end
  end.

(** The inner loop of [_find_contacts_by_search_conditions]: [total] is
    [len(search_conditions)] and [matched] the count so far. *)
Fixpoint match_conditions (contact : Contact) (conditions : list SearchCondition)
                          (total matched : Z) (found_contacts : list Contact)
  : Result (list Contact) :=
  match conditions with
  | [] => Returns found_contacts
  | search :: rest =>
      match getattr contact (field search) with
      | None => Raises AttributeError
      | Some value =>
          match lower_of value with
          | Raises e => Raises e
          | Returns low =>
              let matched' := if contains (lower (text search)) low
                              then matched + 1 else matched in
              match_conditions contact rest total matched'
                (if (matched' =? total) && negb (contact_in contact found_contacts)
                 then found_contacts ++ [contact]
                 else found_contacts)
          end
      end
  end.

Fixpoint match_contacts (contacts : list Contact) (conditions : list SearchCondition)
                        (found_contacts : list Contact) : Result (list Contact) :=
  match contacts with
  | [] => Returns found_contacts
  | contact :: rest =>
      match match_conditions contact conditions (len conditions) 0 found_contacts with
      | Raises e => Raises e
      | Returns found => match_contacts rest conditions found
      end
  end.

Definition _find_contacts_by_search_conditions (search_conditions : list SearchCondition)
  : M (list Contact) :=
  pb <- get ;;
  lift (match_contacts (_contacts pb) search_conditions []).

Definition _find_contacts_by_given_fields : M unit :=
  search_field_indexes <- _get_field_indexes ;;
  match search_field_indexes with
  | [] => ret tt
  | _ =>
      search_conditions <- _get_search_conditions search_field_indexes ;;
      found_contacts <- _find_contacts_by_search_conditions search_conditions ;;
      _print_search_results found_contacts
  end.

(** [_print_find_menu]: the answer comes back from [get_answer] as a
    number and is compared with the string of the first item. *)
Definition _print_find_menu : M unit :=
  answer <- get_answer (in_py_list [VInt 1; VInt 2]) ;;
  match answer with
  | None => ret tt
  | Some v =>
      if negb (truthy v) then ret tt
      else if PyVal_eqb v (VStr "1") then _find_contacts_by_all_fields
      else _find_contacts_by_given_fields
  end.

(* ================================================================== *)
(** * Notions used to state the properties *)
(* ================================================================== *)

(** The counter agrees with the list, as [Phonebook_init] leaves it. *)
Definition consistent (pb : Phonebook) : Prop :=
  _last_index pb = len (_contacts pb).

(** An operation that leaves the catalogue as it found it, however it
    ends: the same contacts in the same order, the same file content. *)
Definition readonly {A : Type} (m : M A) : Prop :=
  forall inp pb, final_state (m inp pb) = pb.

(** The number an index stands for *)
Definition index_number (c : Contact) : option Z :=
  match int_of (index c) with
  | Returns n => Some n
  | Raises _ => None
  end.

(** The indexes are [start], [start + 1], ... in list order. *)
Fixpoint dense_from (start : Z) (cs : list Contact) : Prop :=
  match cs with
  | [] => True
  | c :: cs' => index_number c = Some start /\ dense_from (start + 1) cs'
  end.

(** The number of lines [_input_contact_data] reads: one per field of the
    table other than the index *)
Definition prompts (fields : list (Z * Field)) : nat :=
  List.length (filter (fun kf => negb (String.eqb (title_en (snd kf)) "index")) fields).

(** What a contact holds beside its index *)
Definition text_fields (c : Contact) : list Text :=
  [last_name c; name c; middle_name c; organization c; work_phone c; private_phone c].

(** The numbers [1 .. n] as indexes *)
Definition indexes_upto (n : nat) : list PyVal :=
  map (fun i => VInt (Z.of_nat i)) (seq 1 n).

(** What [save_all] writes: the header, then the row of each contact *)
Fixpoint rows_text (contacts : list Contact) : string :=
  match contacts with
  | [] => EmptyString
  | c :: cs => writerow (data_row c) +:+ rows_text cs
  end.

Definition save_all_text (contacts : list Contact) : string :=
  writeheader csv_fields +:+ rows_text contacts.

(** ** The reader over the text of the file

    [feed] runs the reader over a text character by character; [open]
    tells whether a line has been entered and not ended.  A line ends
    after a line feed, or with the text, and the end of the line is then
    given to the parser.  It is [read_rows] over [splitlines] (lemma
    [feed_read_rows]) in a form that follows the text. *)
Definition end_of_text (rd : Reader) (open : bool) : Rows :=
  if open
  then match parse_process_char rd None with
       | None => ([], true)
       | Some rd2 =>
           match rd_state rd2 with
           | START_RECORD => ([rd_fields rd2], false)
           | _ => at_end_of_input rd2
           end
       end
  else at_end_of_input rd.

Fixpoint feed (rd : Reader) (open : bool) (s : string) : Rows :=
  match s with
  | EmptyString => end_of_text rd open
  | String c t =>
      match parse_process_char rd (Some c) with
      | None => ([], true)
      | Some rd1 =>
          if Ascii.eqb c LF
          then match parse_process_char rd1 None with
               | None => ([], true)
               | Some rd2 =>
                   match rd_state rd2 with
                   | START_RECORD => yield (rd_fields rd2) (feed parse_reset false t)
                   | _ => feed rd2 false t
                   end
               end
          else feed rd1 true t
      end
  end.

(** The characters that make the writer quote a field *)
Definition special (c : ascii) : bool :=
  Ascii.eqb c COMMA || Ascii.eqb c DQUOTE || Ascii.eqb c CR || Ascii.eqb c LF.

(** The reader after the characters of a field laid out by [quote_field],
    begun at the start of a field with [done] read before *)
Definition field_read (f : string) (done : list string) : Reader :=
  if needs_quote f then mkReader QUOTE_IN_QUOTED_FIELD f done
  else match f with
       | EmptyString => mkReader START_FIELD EmptyString done
       | _ => mkReader IN_FIELD f done
       end.

Definition starts_with_LF (s : string) : bool :=
  match s with
  | String c _ => Ascii.eqb c LF
  | EmptyString => false
  end.

(** The fields of a row as the writer lays them out, without the line
    terminator *)
Definition row_line (fields : list string) : string :=
  join "," (map quote_field fields).

(** What is read back for a value written by [save_all]: its text, with
    every carriage return, and the line feed that may follow it, read as
    one line feed *)
Definition stored_text (v : PyVal) : string := universal_newlines (csv_text v).

(** A contact as [read_all] returns it after [save_all] wrote it *)
Definition reloaded (c : Contact) : Contact :=
  mkContact (VStr (stored_text (index c)))
            (Some (stored_text (text_val (last_name c))))
            (Some (stored_text (text_val (name c))))
            (Some (stored_text (text_val (middle_name c))))
            (Some (stored_text (text_val (organization c))))
            (Some (stored_text (text_val (work_phone c))))
            (Some (stored_text (text_val (private_phone c)))).

(** The rows of [save_all] as a text file gives them to the reader *)
Fixpoint lf_rows (contacts : list Contact) : string :=
  match contacts with
  | [] => EmptyString
  | c :: cs => row_line (map stored_text (data_row c)) +:+ String LF (lf_rows cs)
  end.

(** A row of seven values and the contact [read_all] makes of it *)
Definition row_of_contact (row : list string) (k : Contact) : Prop :=
  exists a b d e f g h,
    row = [a; b; d; e; f; g; h]
    /\ k = mkContact (VStr a) (Some b) (Some d) (Some e) (Some f) (Some g) (Some h).

(** A contact in the form the file gives: every attribute a text, and no
    carriage return in any *)
Definition text_without_CR (v : PyVal) : Prop :=
  exists s, v = VStr s /\ has_char CR s = false.

Definition stored_form (c : Contact) : Prop :=
  Forall text_without_CR (data_row c).

(** A contact as [read_all] returns it after [add_one] wrote it *)
Definition appended (c : Contact) : Contact :=
  mkContact (VStr (py_str (index c)))
            (Some (py_str (text_val (last_name c))))
            (Some (py_str (text_val (name c))))
            (Some (py_str (text_val (middle_name c))))
            (Some (py_str (text_val (organization c))))
            (Some (py_str (text_val (work_phone c))))
            (Some (py_str (text_val (private_phone c)))).

(** A text that the csv format takes as it is: no delimiter, no quote, no
    line break *)
Definition plain (s : string) : Prop := needs_quote s = false.

Definition plain_contact (c : Contact) : Prop :=
  Forall (fun v => plain (py_str v)) (data_row c).

(** A line as the iteration over a text file gives it: no line break
    inside, and at most a line feed at its end *)
Fixpoint text_line (s : string) : Prop :=
  match s with
  | EmptyString => True
  | String c t => if is_newline c then c = LF /\ t = EmptyString else text_line t
  end.

(** The field names [DictReader] takes from the file: its first row *)
Definition fieldnames_of (content : string) : list string :=
  match fst (csv_reader content) with
  | [] => []
  | fieldnames :: _ => fieldnames
  end.

(** The data rows [DictReader] yields: the rows after the first that are
    not blank *)
Definition data_rows_of (content : string) : list (list string) :=
  match fst (csv_reader content) with
  | [] => []
  | _ :: data => filter (fun r => negb (is_blank_row r)) data
  end.

(** The first expected column title that the field names lack *)
Definition first_missing (fieldnames : list string) : option string :=
  find (fun t => negb (str_in t fieldnames)) csv_fields.

(** A data row that has not one value per column title *)
Definition wrong_row_length (content : string) : Prop :=
  exists row, In row (data_rows_of content)
              /\ List.length row <> List.length csv_fields.

(** A column title that the first row of the file lacks *)
Definition missing_title (content : string) (t : string) : Prop :=
  In t csv_fields /\ ~ In t (fieldnames_of content).

(** ** Notions of the searches *)

(** A value that has the method [lower] *)
Definition is_text (v : PyVal) : Prop := exists s, v = VStr s.

(** The query is a case-insensitive substring of the value. *)
Definition ci_contains (query : string) (v : PyVal) : bool :=
  match v with
  | VStr s => contains (lower query) (lower s)
  | _ => false
  end.

(** Some field of the contact contains the query. *)
Definition matches_any (query : string) (c : Contact) : bool :=
  existsb (ci_contains query) (data_row c).

(** The field of the condition contains its query. *)
Definition condition_holds (c : Contact) (s : SearchCondition) : bool :=
  match getattr c (field s) with
  | Some v => ci_contains (text s) v
  | None => false
  end.

(** Every selected field of the contact is a text. *)
Definition searchable (c : Contact) (conditions : list SearchCondition) : Prop :=
  Forall (fun s => exists v, getattr c (field s) = Some (VStr v)) conditions.

(** A token that the filter of [_get_field_indexes] keeps *)
Definition kept_token (x : string) : bool :=
  isnumeric x && in_py_range 0 (max_key field_map) (VInt (int_digits 0 x)).

(** ** Sample data, to run the operations on *)

Definition ivanov (i : PyVal) : Contact :=
  mkContact i (Some "Ivanov") (Some "Ivan") (Some EmptyString)
            (Some "ACME") (Some "12") (Some EmptyString).

Definition petrov (i : PyVal) : Contact :=
  mkContact i (Some "Petrov") (Some "Petr") (Some EmptyString)
            (Some EmptyString) (Some EmptyString) (Some "34").

(** The catalogue over a new, empty storage file *)
Definition empty_book : Phonebook :=
  mkPhonebook (_init_storage None) ConsoleTableFormatter [] 0.

(** The catalogue holding [contacts], saved *)
Definition book_of (contacts : list Contact) : Phonebook :=
  mkPhonebook (fst (save_all contacts)) ConsoleTableFormatter contacts (len contacts).

(* ================================================================== *)
(** * Notions for the further properties *)
(* ================================================================== *)

(** ** What the prompts of a contact leave in it *)

(** The attribute after a typed line: an empty line keeps the value,
    three dashes empty it, any other line replaces it. *)
Definition typed (old : Text) (data : string) : Text :=
  if String.eqb data EmptyString then old
  else Some (if String.eqb data "---" then EmptyString else data).

(** The contact after the six lines asked for, in the order of the field
    table *)
Definition filled (c : Contact) (lines : list string) : Contact :=
  match lines with
  | [l; n; m; o; w; p] =>
      mkContact (index c) (typed (last_name c) l) (typed (name c) n)
                (typed (middle_name c) m) (typed (organization c) o)
                (typed (work_phone c) w) (typed (private_phone c) p)
  | _ => c
  end.

(** The file holds what [save_all] writes for the contacts in memory. *)
Definition saved (pb : Phonebook) : Prop :=
  _storage pb = save_all_text (_contacts pb).

(** An operation that keeps a property of the catalogue, however it ends *)
Definition preserves {A : Type} (P : Phonebook -> Prop) (m : M A) : Prop :=
  forall inp pb, P pb -> P (final_state (m inp pb)).

(** A row of seven values or more and the contact [read_all] makes of its
    first seven *)
Definition wide_row_of_contact (row : list string) (k : Contact) : Prop :=
  exists a b d e f g h extra,
    row = a :: b :: d :: e :: f :: g :: h :: extra
    /\ k = mkContact (VStr a) (Some b) (Some d) (Some e) (Some f) (Some g) (Some h).

(** ** Notions of [get_answer] *)

(** The answer a typed line stands for: a line of digits is a number *)
Definition answer_value (line : string) : PyVal :=
  if isnumeric line then VInt (int_digits 0 line) else VStr line.

(** A line that [get_answer] does not take: it is not empty and does not
    stand for a correct answer *)
Definition refused (correct_answers : PyVal -> bool) (line : string) : Prop :=
  line <> EmptyString /\ correct_answers (answer_value line) = false.

(* ================================================================== *)
(** * The console: what the formatters print and read *)
(* ================================================================== *)

(** ** More of [str] *)

(** A byte that continues a character of UTF-8 *)
Definition continues (c : ascii) : bool := in_range 128 191 (nat_of_ascii c).

(** [len(s)]: the number of characters, that is of the bytes that do not
    continue one *)
Fixpoint str_len (s : string) : Z :=
  match s with
  | EmptyString => 0
  | String c t => (if continues c then 0 else 1) + str_len t
  end.

Fixpoint copies (n : nat) (s : string) : string :=
  match n with
  | O => EmptyString
  | S k => s +:+ copies k s
  end.

(** [s * n]: the empty string when [n] is not positive *)
Definition str_mul (s : string) (n : Z) : string := copies (Z.to_nat n) s.

(** [s.ljust(width, fillchar)] *)
Definition ljust (s : string) (width : Z) (fillchar : string) : string :=
  if width <=? str_len s then s
  else s +:+ str_mul fillchar (width - str_len s).

(** [s.center(width, fillchar)]: of an odd margin the larger half goes to
    the left when the width is odd, and to the right when it is even *)
Definition center (s : string) (width : Z) (fillchar : string) : string :=
  if width <=? str_len s then s
  else
    let marg := width - str_len s in
    let left := marg / 2 + Z.land (Z.land marg width) 1 in
    str_mul fillchar left +:+ s +:+ str_mul fillchar (marg - left).

(** The blanks that [int] allows around a literal: the space and the
    characters from the tab to the carriage return *)
Definition is_blank (c : ascii) : bool :=
  let n := nat_of_ascii c in in_range 9 13 n || (n =? 32)%nat.

Fixpoint skip_blanks (s : string) : string :=
  match s with
  | EmptyString => EmptyString
  | String c t => if is_blank c then skip_blanks t else s
  end.

Fixpoint reversed (acc s : string) : string :=
  match s with
  | EmptyString => acc
  | String c t => reversed (String c acc) t
  end.

(** [s] without the blanks at its ends *)
Definition trimmed (s : string) : string :=
  reversed EmptyString (skip_blanks (reversed EmptyString (skip_blanks s))).

(** The digits of an integer literal: single underscores may stand between
    digits; [None] stands for ValueError. *)
Fixpoint literal_digits (acc : Z) (after_digit : bool) (s : string) : option Z :=
  match s with
  | EmptyString => if after_digit then Some acc else None
  | String c t =>
      if is_digit c
      then literal_digits (10 * acc + Z.of_nat (nat_of_ascii c - 48)) true t
      else if Ascii.eqb c "_" && after_digit then literal_digits acc false t
      else None
  end.

(** [int(s)] for any string: blanks around the literal and a sign before
    it are allowed *)
Definition int_literal (s : string) : option Z :=
  match trimmed s with
  | EmptyString => None
  | String c t =>
      if Ascii.eqb c "+" then literal_digits 0 false t
      else if Ascii.eqb c "-" then option_map Z.opp (literal_digits 0 false t)
      else literal_digits 0 false (String c t)
  end.

(** [int(v)] for the index of any contact *)
Definition int_index (v : PyVal) : Result Z :=
  match v with
  | VInt n => Returns n
  | VStr s => match int_literal s with
              | Some n => Returns n
              | None => Raises ValueError
              end
  | VNone => Raises TypeError
  end.

(** ** Runs at the console *)

Module Console.

(** A run: the text written to the standard output, and the value
    returned with the lines left to be typed, or the exception raised *)
Record Run (A : Type) : Type := mkRun {
  written : string;
  ended : Result (A * list string)
}.
Arguments mkRun {A} written ended.
Arguments written {A} r.
Arguments ended {A} r.

Definition IO (A : Type) : Type := list string -> Run A.

Definition ret {A : Type} (a : A) : IO A :=
  fun inp => mkRun EmptyString (Returns (a, inp)).

Definition bind {A B : Type} (m : IO A) (k : A -> IO B) : IO B :=
  fun inp =>
    let r := m inp in
    match ended r with
    | Returns (a, rest) =>
        let r' := k a rest in
        mkRun (written r +:+ written r') (ended r')
    | Raises e => mkRun (written r) (Raises e)
    end.

Definition raise {A : Type} (e : Exn) : IO A :=
  fun _ => mkRun EmptyString (Raises e).

Definition lift {A : Type} (r : Result A) : IO A :=
  match r with
  | Returns a => ret a
  | Raises e => raise e
  end.

(** [print(text, end='')] *)
Definition write (text : string) : IO unit :=
  fun inp => mkRun text (Returns (tt, inp)).

(** [print(text)] *)
Definition print (text : string) : IO unit :=
  write (text +:+ String LF EmptyString).

(** [input(prompt)] *)
Definition input (prompt : string) : IO string :=
  fun inp =>
    match inp with
    | [] => mkRun prompt (Raises EOFError)
    | line :: rest => mkRun prompt (Returns (line, rest))
    end.

End Console.

Declare Scope io_scope.
Delimit Scope io_scope with io.
Notation "x <- m ;; k" := (Console.bind m (fun x => k))
  (at level 61, m at next level, right associativity) : io_scope.
Notation "m ;; k" := (Console.bind m (fun _ => k))
  (at level 61, right associativity) : io_scope.

(** [for x in l: body(x)] *)
Fixpoint for_each {A : Type} (l : list A) (body : A -> Console.IO unit)
  : Console.IO unit :=
  match l with
  | [] => Console.ret tt
  | x :: more => (body x ;; for_each more body)%io
  end.

(** [s] between double quotes *)
Definition quoted (s : string) : string :=
  String DQUOTE (s +:+ String DQUOTE EmptyString).

(** ** [get_answer], with what it prints *)

Definition try_again : string := "Введено неверное значение, попробуйте ещё раз: ".

Fixpoint answer_loop (correct_answers : PyVal -> bool) (inp : list string)
  : Console.Run (option PyVal) :=
  match inp with
  | [] => Console.mkRun EmptyString (Raises EOFError)
  | answer :: rest =>
      let again :=
        let r := answer_loop correct_answers rest in
        Console.mkRun (try_again +:+ Console.written r) (Console.ended r) in
      if String.eqb answer EmptyString
      then Console.mkRun EmptyString (Returns (None, rest))
      else if isnumeric answer then
        match py_int answer with
        | None => Console.mkRun EmptyString (Raises ValueError)
        | Some n =>
            if correct_answers (VInt n)
            then Console.mkRun EmptyString (Returns (Some (VInt n), rest))
            else again
        end
      else if correct_answers (VStr answer)
      then Console.mkRun EmptyString (Returns (Some (VStr answer), rest))
      else again
  end.

Definition console_get_answer (prompt : string) (correct_answers : PyVal -> bool)
  : Console.IO (option PyVal) :=
  (Console.write (prompt +:+ " ") ;; answer_loop correct_answers)%io.

(** ** The visiting cards *)

Module VisitCard.
Local Open Scope io_scope.

(** A line of the card for an attribute that is not empty.  A text that
    is true is a [str], so that adding it to the label is adding its
    [str]. *)
Definition labelled (label : string) (value : Text) (card_width : Z) : Console.IO unit :=
  if truthy (text_val value)
  then Console.print ("| " +:+ center (label +:+ py_str (text_val value)) card_width " "
                      +:+ " |")
  else Console.ret tt.

Definition _print_card (contact : Contact) (contact_count : Z) (card_width : Z)
  : Console.IO unit :=
  Console.print ("+ " +:+ center EmptyString card_width "-" +:+ " +") ;;
  let counter := join " " [py_str (index contact); "/"; str_int contact_count] in
  Console.print ("| № " +:+ ljust counter (card_width - 2) " " +:+ " |") ;;
  Console.print ("| " +:+ center (full_name contact) card_width " " +:+ " |") ;;
  Console.print ("| " +:+ center EmptyString card_width " " +:+ " |") ;;
  labelled "Организация: " (organization contact) card_width ;;
  labelled "Рабочий телефон: " (work_phone contact) card_width ;;
  labelled "Личный телефон: " (private_phone contact) card_width ;;
  Console.print ("+ " +:+ center EmptyString card_width "-" +:+ " +").

Definition pause : string := "Нажмите Enter для продолжения или q для выхода в меню:".

(** The loop of [print_contacts] over the contacts still to be shown *)
Fixpoint cards (contacts : list Contact) (contact_count : Z) (paginate : bool)
  : Console.IO unit :=
  match contacts with
  | [] => Console.ret tt
  | contact :: more =>
      _print_card contact contact_count 40 ;;
      if paginate then
        i <- Console.lift (int_index (index contact)) ;;
        if i <? contact_count then
          answer <- Console.input pause ;;
          if String.eqb answer "q" then Console.ret tt
          else cards more contact_count paginate
        else cards more contact_count paginate
      else cards more contact_count paginate
  end.

(** [print_contacts(contacts, paginate)]; the page size is not used *)
Definition print_contacts (contacts : list Contact) (paginate : bool) : Console.IO unit :=
  cards contacts (len contacts) paginate.

End VisitCard.

(** ** The table *)

Module Table.
Local Open Scope io_scope.

(** [_get_page_size].  The correct answers are numbers, so that a [str]
    cannot come back; were one to, it would be returned and the remainder
    taken by it would raise TypeError. *)
Definition _get_page_size : Console.IO Z :=
  Console.print "Сколько записей отображать на одной странице ?" ;;
  new_page_size <- console_get_answer
                     ("Enter - значение по-умолчанию (" +:+ str_int DEFAULT_PAGE_SIZE +:+ "):")
                     (in_py_range 1 101) ;;
  match new_page_size with
  | None => Console.ret DEFAULT_PAGE_SIZE
  | Some (VInt n) => if n =? 0 then Console.ret DEFAULT_PAGE_SIZE else Console.ret n
  | Some _ => Console.raise TypeError
  end.

(** [zip] of the unpacked arrays: the columns of the rows, as many as the
    shortest row has *)
Fixpoint zip_star {A : Type} (arrays : list (list A)) : list (list A) :=
  match arrays with
  | [] => []
  | a :: more =>
      match more with
      | [] => map (fun x => [x]) a
      | _ => map (fun p => fst p :: snd p) (combine a (zip_star more))
      end
  end.

(** [max(x)] for a column; it has an element for every row *)
Definition py_max (x : list Z) : Z :=
  match x with
  | [] => 0
  | a :: more => fold_left Z.max more a
  end.

Definition row_size_arrays (contacts : list Contact) : list (list Z) :=
  map (fun contact => map (fun v => str_len (py_str v)) (data_row contact)) contacts
  ++ [map str_len csv_fields].

Definition max_column_len (contacts : list Contact) : list Z :=
  map py_max (zip_star (row_size_arrays contacts)).

Definition _print_table_data_row (data : list PyVal) (column_len_array : list Z)
  : Console.IO unit :=
  for_each (combine data column_len_array)
           (fun p => Console.write ("| " +:+ ljust (py_str (fst p)) (snd p + 1) " ")) ;;
  Console.print "|".

Definition _print_table_divider (column_len_array : list Z) : Console.IO unit :=
  for_each column_len_array
           (fun column_width => Console.write ("+" +:+ str_mul "-" (column_width + 2))) ;;
  Console.print "+".

Definition pause : string :=
  "Нажмите Enter чтобы продолжить или " +:+ quoted "q" +:+ " для выхода".

(** [int(row[0])] *)
Definition first_number (row : list PyVal) : Result Z :=
  match row with
  | [] => Raises IndexError
  | v :: _ => int_index v
  end.

(** The loop of [print_contacts] over the rows still to be shown; leaving
    it by [break] is returning from it. *)
Fixpoint rows (contact_list : list (list PyVal)) (contact_count page_size : Z)
              (paginate : bool) (max_column_len : list Z) : Console.IO unit :=
  match contact_list with
  | [] => Console.ret tt
  | row :: more =>
      let next := rows more contact_count page_size paginate max_column_len in
      _print_table_data_row row max_column_len ;;
      if paginate then
        i <- Console.lift (first_number row) ;;
        if (i mod page_size =? 0) && negb (i =? contact_count) then
          answer <- console_get_answer pause (in_py_list [VStr EmptyString; VStr "q"]) ;;
          match answer with
          | Some (VStr "q") => Console.ret tt
          | _ => next
          end
        else next
      else next
  end.

(** [print_contacts(contacts, paginate)]; no call passes a page size, which
    is the default one until the user is asked for it. *)
Definition print_contacts (contacts : list Contact) (paginate : bool) : Console.IO unit :=
  page_size <- (if DEFAULT_PAGE_SIZE <? len contacts
                then _get_page_size
                else Console.ret DEFAULT_PAGE_SIZE) ;;
  let max_column_len := max_column_len contacts in
  _print_table_divider max_column_len ;;
  _print_table_data_row (map VStr csv_fields) max_column_len ;;
  _print_table_divider max_column_len ;;
  rows (map data_row contacts) (len contacts) page_size paginate max_column_len ;;
  _print_table_divider max_column_len.

End Table.

(** [formatter.print_contacts(contacts, paginate=...)] *)
Definition formatter_print (formatter : ContactFormatter) (contacts : list Contact)
                           (paginate : bool) : Console.IO unit :=
  match formatter with
  | ConsoleVisitCardFormatter => VisitCard.print_contacts contacts paginate
  | ConsoleTableFormatter => Table.print_contacts contacts paginate
  end.

(** A run at the console as a step of the catalogue: the text is dropped. *)
Definition at_console {A : Type} (m : Console.IO A) : M A :=
  fun inp pb =>
    match Console.ended (m inp) with
    | Returns (a, rest) => Done a rest pb
    | Raises e => Raised e pb
    end.
(* ================================================================== *)
(** * The session *)
(* ================================================================== *)

(** [self._formatter.print_contacts(self._contacts)], with the pauses
    between the pages *)
Definition print_all : M unit :=
  pb <- get ;;
  at_console (formatter_print (_formatter pb) (_contacts pb) true).

(** How a session ends: with the quit command, by which [exit()] raises
    SystemExit, or with an exception that nothing catches.  [start] does
    not return otherwise, the condition of its loop being true whenever it
    is tested. *)
Inductive Ending : Type :=
| SystemExit (rest : list string) (pb : Phonebook)
| Uncaught (e : Exn) (pb : Phonebook).

(** The loop of [start].  Every turn reads a command, so that a session
    takes no more turns than there are lines to read; [fuel] bounds the
    turns. *)
Fixpoint start_loop (fuel : nat) (inp : list string) (pb : Phonebook) : option Ending :=
  match fuel with
  | O => None
  | S fuel' =>
      match inp with
      | [] => Some (Uncaught EOFError pb)
      | line :: rest =>
          let answer := lower line in
          let then_menu (operation : M unit) :=
            match (operation ;; input) rest pb with
            | Done _ rest' pb' => start_loop fuel' rest' pb'
            | Raised e pb' => Some (Uncaught e pb')
            end in
          if str_in answer ["p"; "з"] then then_menu print_all
          else if str_in answer ["a"; "ф"] then then_menu _add_contact
          else if str_in answer ["s"; "ы"] then then_menu _print_find_menu
          else if str_in answer ["c"; "с"] then then_menu _change_contact
          else if str_in answer ["d"; "в"] then then_menu _delete_contact
          else if str_in answer ["f"; "а"] then then_menu _change_formatter
          else if str_in answer ["q"; "й"] then Some (SystemExit rest pb)
          else start_loop fuel' rest pb
      end
  end.

(** [start] *)
Definition start (inp : list string) (pb : Phonebook) : option Ending :=
  start_loop (S (List.length inp)) inp pb.

(* ================================================================== *)
(** * Notions of the console and of the session *)
(* ================================================================== *)

(** The text a step writes when nothing is typed *)
Definition printed (m : Console.IO unit) : string := Console.written (m []).

(** A step that only prints: it returns, reads no line, and writes the
    same text whatever is left to be typed. *)
Definition prints (m : Console.IO unit) : Prop :=
  forall inp, m inp = Console.mkRun (printed m) (Returns (tt, inp)).

(** The text of the visiting card of a contact, among [contact_count] *)
Definition card_text (contact_count : Z) (contact : Contact) : string :=
  printed (VisitCard._print_card contact contact_count 40).

(** The text of a table row, and of the divider, for given column widths *)
Definition row_text (column_len_array : list Z) (data : list PyVal) : string :=
  printed (Table._print_table_data_row data column_len_array).

Definition divider_text (column_len_array : list Z) : string :=
  printed (Table._print_table_divider column_len_array).

(** The head of the table: the titles between two dividers *)
Definition head_text (column_len_array : list Z) : string :=
  divider_text column_len_array
  +:+ row_text column_len_array (map VStr csv_fields)
  +:+ divider_text column_len_array.

(** What the table writes to ask for the page size, before the answer *)
Definition page_size_question : string :=
  printed (Console.print "Сколько записей отображать на одной странице ?")
  +:+ "Enter - значение по-умолчанию (" +:+ str_int DEFAULT_PAGE_SIZE +:+ "): ".

(** Texts one after the other *)
Definition texts (l : list string) : string := fold_right String.append EmptyString l.

(** The whole table of the contacts: head, a row for each contact, and the
    closing divider *)
Definition table_text (contacts : list Contact) : string :=
  let cols := Table.max_column_len contacts in
  head_text cols +:+ texts (map (row_text cols) (map data_row contacts))
  +:+ divider_text cols.

(** The width of a line of the table: every column takes its width and
    three characters more, and the line ends with a bar or a cross and the
    line feed. *)
Definition table_width (column_len_array : list Z) : Z :=
  fold_right (fun w acc => w + 3 + acc) 2 column_len_array.

(** The row of a contact ends a page: its number is a multiple of the page
    size, and it is not the last row. *)
Definition page_end (page_size contact_count : Z) (c : Contact) : bool :=
  match index_number c with
  | Some i => (i mod page_size =? 0) && negb (i =? contact_count)
  | None => false
  end.

(** What the table writes when it pauses *)
Definition table_pause : string := Table.pause +:+ " ".

(** The rows of the contacts, with the pause after every page *)
Definition paged_rows (cols : list Z) (page_size contact_count : Z)
                      (contacts : list Contact) : string :=
  texts (map (fun c => row_text cols (data_row c)
                       +:+ (if page_end page_size contact_count c
                            then table_pause else EmptyString))
             contacts).

(** A line that answers the question of the page size, and the size it
    gives: the empty line gives the default size. *)
Definition page_size_typed (line : string) (page_size : Z) : Prop :=
  (line = EmptyString /\ page_size = DEFAULT_PAGE_SIZE)
  \/ (py_int line = Some page_size /\ 1 <= page_size <= 100).

(** ** Notions of the session *)

(** The contacts are numbered 1, 2, ... in list order and the counter is
    their number. *)
Definition numbered (pb : Phonebook) : Prop :=
  consistent pb /\ dense_from 1 (_contacts pb).

(** An operation that, whenever it returns, has kept a property of the
    catalogue and has left no more lines to be typed than it found *)
Definition keeps {A : Type} (P : Phonebook -> Prop) (m : M A) : Prop :=
  forall inp pb a rest pb',
    P pb -> m inp pb = Done a rest pb' ->
    P pb' /\ (List.length rest <= List.length inp)%nat.

(** The same of a run at the console *)
Definition reads_on {A : Type} (m : Console.IO A) : Prop :=
  forall inp a rest,
    Console.ended (m inp) = Returns (a, rest) ->
    (List.length rest <= List.length inp)%nat.

(** [main], from the storage file found, if there is one, and the lines
    typed: the catalogue cannot be made when the file cannot be read. *)
Definition main (file : option string) (inp : list string) : Result (option Ending) :=
  match Phonebook_init ConsoleTableFormatter (_init_storage file) with
  | Raises e => Raises e
  | Returns pb => Returns (start inp pb)
  end.

(** ** Notions of the prompts and of the cards *)

(** A line that [get_answer] takes: the empty line, or a correct answer *)
Definition accepted (correct_answers : PyVal -> bool) (line : string) : bool :=
  String.eqb line EmptyString || correct_answers (answer_value line).

(** What [get_answer] returns for a line it takes *)
Definition answer_of (line : string) : option PyVal :=
  if String.eqb line EmptyString then None else Some (answer_value line).

(** The visiting card is 40 characters wide between its borders, and 38
    after the sign of the number: the texts of a contact fit when none is
    longer. *)
Definition fits_card (contact_count : Z) (c : Contact) : Prop :=
  str_len (join " " [py_str (index c); "/"; str_int contact_count]) <= 38
  /\ str_len (full_name c) <= 40
  /\ str_len ("Организация: " +:+ py_str (text_val (organization c))) <= 40
  /\ str_len ("Рабочий телефон: " +:+ py_str (text_val (work_phone c))) <= 40
  /\ str_len ("Личный телефон: " +:+ py_str (text_val (private_phone c))) <= 40.

(** The number of lines a text attribute takes on the card *)
Definition card_lines_of (value : Text) : nat :=
  if truthy (text_val value) then 1%nat else 0%nat.

(** ** Notions of what can go wrong *)

(** An operation that raises no other exceptions than those of [E] *)
Definition raises_only {A : Type} (E : Exn -> Prop) (m : M A) : Prop :=
  forall inp pb e pb', m inp pb = Raised e pb' -> E e.

(** The same of a run at the console *)
Definition console_raises_only {A : Type} (E : Exn -> Prop) (m : Console.IO A) : Prop :=
  forall inp e, Console.ended (m inp) = Raises e -> E e.

(** A variable that refers to a contact *)
Definition refers (r : Ref) (cs : list Contact) : Prop :=
  exists c, deref r cs = Some c.

(** The exceptions that can end a session: the input running out, a
    contact that is not in the list, a text method on what is not a text,
    and a field number that is not in the field table *)
Definition known_error (e : Exn) : Prop :=
  e = EOFError \/ e = ValueError \/ e = AttributeError \/ exists k, e = KeyError k.

(** The exceptions of a search *)
Definition search_error (e : Exn) : Prop :=
  e = EOFError \/ e = AttributeError \/ exists k, e = KeyError k.

(* ================================================================== *)
(** * Properties *)
(* ================================================================== *)

(** ** Monad and frame lemmas *)

Lemma readonly_ret {A : Type} (a : A) : readonly (ret a).
Proof. intros inp pb; reflexivity. Qed.

Lemma readonly_raise {A : Type} (e : Exn) : readonly (@raise A e).
Proof. intros inp pb; reflexivity. Qed.

Lemma readonly_lift {A : Type} (r : Result A) : readonly (lift r).
Proof. destruct r; intros inp pb; reflexivity. Qed.

Lemma readonly_get : readonly get.
Proof. intros inp pb; reflexivity. Qed.

Lemma readonly_input : readonly input.
Proof. intros [|l inp] pb; reflexivity. Qed.

Lemma readonly_bind {A B : Type} (m : M A) (k : A -> M B) :
  readonly m -> (forall a, readonly (k a)) -> readonly (bind m k).
Proof.
  intros Hm Hk inp pb. unfold bind.
  specialize (Hm inp pb).
  destruct (m inp pb) as [a rest pb' | e pb']; simpl in Hm; subst.
  - apply Hk.
  - reflexivity.
Qed.

Lemma readonly_get_answer (correct : PyVal -> bool) : readonly (get_answer correct).
Proof.
  intros inp pb. induction inp as [|answer rest IH]; simpl.
  - reflexivity.
  - destruct (String.eqb answer EmptyString); [reflexivity|].
    destruct (isnumeric answer).
    + destruct (py_int answer); [|reflexivity].
      destruct (correct (VInt z)); [reflexivity | exact IH].
    + destruct (correct (VStr answer)); [reflexivity | exact IH].
Qed.

Lemma readonly_get_field_indexes : readonly _get_field_indexes.
Proof.
  intros inp pb. induction inp as [|line rest IH]; simpl.
  - reflexivity.
  - destruct (filter_tokens (split line)); [|reflexivity].
    destruct (negb _); [exact IH | reflexivity].
Qed.

Create HintDb frame.
#[local] Hint Resolve readonly_ret readonly_raise readonly_lift readonly_get
  readonly_input readonly_get_answer readonly_get_field_indexes : frame.

Ltac frame_step :=
  first [ apply readonly_bind; [| intro]
        | solve [auto with frame]
        | match goal with
          | |- readonly (match ?x with _ => _ end) => destruct x
          | |- readonly (if ?x then _ else _) => destruct x
          end ].

Lemma readonly_print_contacts (contacts : list Contact) :
  readonly (print_contacts contacts).
Proof.
  unfold print_contacts, ConsoleVisitCardFormatter_.print_contacts,
    ConsoleTableFormatter_.print_contacts, ConsoleTableFormatter_._get_page_size.
  repeat frame_step.
Qed.

Lemma readonly_print_search_results (contacts : list Contact) :
  readonly (_print_search_results contacts).
Proof.
  unfold _print_search_results.
  destruct contacts; auto using readonly_print_contacts with frame.
Qed.

Lemma readonly_get_search_conditions (idxs : list Z) :
  readonly (_get_search_conditions idxs).
Proof.
  induction idxs as [|k rest IH]; cbn [_get_search_conditions]; [auto with frame|].
  destruct (field_map_get k field_map); [|auto with frame].
  repeat frame_step.
Qed.

Lemma readonly_find_by_all_fields : readonly _find_contacts_by_all_fields.
Proof.
  unfold _find_contacts_by_all_fields.
  repeat frame_step. apply readonly_print_search_results.
Qed.

Lemma readonly_find_by_search_conditions (conditions : list SearchCondition) :
  readonly (_find_contacts_by_search_conditions conditions).
Proof.
  unfold _find_contacts_by_search_conditions. repeat frame_step.
Qed.

Lemma readonly_find_by_given_fields : readonly _find_contacts_by_given_fields.
Proof.
  unfold _find_contacts_by_given_fields.
  apply readonly_bind; [auto with frame | intros idxs].
  destruct idxs; [auto with frame|].
  apply readonly_bind; [apply readonly_get_search_conditions | intros conds].
  apply readonly_bind; [apply readonly_find_by_search_conditions | intros found].
  apply readonly_print_search_results.
Qed.

(** C10.  Both searches are read-only: however the search ends (results
    shown, nothing found, or an exception), the catalogue is in the state
    it started from: the same contacts with the same field values in the
    same order, the same counter and formatter, and an untouched storage
    file. *)
Theorem searches_are_read_only :
  forall (inp : list string) (pb : Phonebook),
    final_state (_find_contacts_by_all_fields inp pb) = pb
    /\ (forall conditions,
          final_state (_find_contacts_by_search_conditions conditions inp pb) = pb)
    /\ final_state (_find_contacts_by_given_fields inp pb) = pb.
Proof.
  intros inp pb. repeat split.
  - apply readonly_find_by_all_fields.
  - intros conditions. apply readonly_find_by_search_conditions.
  - apply readonly_find_by_given_fields.
Qed.

(** ** Adding a contact *)

Lemma setattr_index (c : Contact) (attr data : string) :
  index (setattr c attr data) = index c.
Proof.
  unfold setattr.
  repeat (destruct (String.eqb attr _); [reflexivity|]).
  reflexivity.
Qed.

Lemma update_nth_twice {A : Type} (f g : A -> A) (n : nat) (l : list A) :
  update_nth n g (update_nth n f l) = update_nth n (fun x => g (f x)) l.
Proof.
  revert n; induction l as [|x l IH]; intros [|n]; simpl; try reflexivity.
  now rewrite IH.
Qed.

Lemma update_nth_last {A : Type} (f : A -> A) (l : list A) (x : A) :
  update_nth (List.length l) f (l ++ [x]) = l ++ [f x].
Proof. induction l as [|y l IH]; simpl; [reflexivity | now rewrite IH]. Qed.

Lemma nth_error_last {A : Type} (l : list A) (x : A) :
  nth_error (l ++ [x]) (List.length l) = Some x.
Proof. induction l as [|y l IH]; simpl; [reflexivity | exact IH]. Qed.

Lemma len_app_one {A : Type} (l : list A) (x : A) : len (l ++ [x]) = len l + 1.
Proof. unfold len. rewrite length_app. simpl. lia. Qed.

(** Filling a contact of the list in: the lines are consumed, the contact
    keeps its place and its index, and nothing else changes. *)
Lemma input_fields_in_list :
  forall (fields : list (Z * Field)) (pos : nat) (lines rest : list string)
         (pb : Phonebook),
    List.length lines = prompts fields ->
    exists f : Contact -> Contact,
      (forall c, index (f c) = index c) /\
      input_fields (InList pos) fields (lines ++ rest) pb =
        Done (InList pos) rest (set_contacts (update_nth pos f (_contacts pb)) pb).
Proof.
  induction fields as [|[k fld] fields IH]; intros pos lines rest pb Hlen.
  - destruct lines; [|discriminate]. exists (fun c => c). split; [reflexivity|].
    simpl. unfold ret. f_equal. destruct pb as [s f cs n]; unfold set_contacts; simpl.
    f_equal. clear. revert pos. induction cs as [|c cs IHcs]; intros [|pos]; simpl;
      try reflexivity. now rewrite <- IHcs.
  - unfold prompts in Hlen. cbn [filter snd] in Hlen. cbn [input_fields].
    destruct (String.eqb (title_en fld) "index") eqn:Hidx; cbn [negb] in Hlen.
    + apply IH. exact Hlen.
    + destruct lines as [|data lines]; [discriminate|].
      cbn [List.length] in Hlen. injection Hlen as Hlen.
      cbn [app]. unfold bind at 1. cbn [input].
      destruct (negb (String.eqb data EmptyString)).
      * unfold bind at 1. cbn [setattr_ref]. unfold bind at 1. unfold update, ret.
        destruct (IH pos lines rest
                    (set_contacts
                       (update_nth pos
                          (fun c => setattr c (title_en fld)
                                      (if String.eqb data "---" then EmptyString else data))
                          (_contacts pb)) pb) Hlen) as (f & Hf & Hrun).
        exists (fun c => f (setattr c (title_en fld)
                             (if String.eqb data "---" then EmptyString else data))).
        split; [intros c; rewrite Hf; apply setattr_index|].
        rewrite Hrun. cbn [_contacts set_contacts].
        rewrite update_nth_twice. destruct pb; reflexivity.
      * unfold bind at 1, ret. apply IH. exact Hlen.
Qed.

(** C4.  From every state whose counter agrees with its K contacts, the
    add operation, given the six lines it asks for, constructs the new
    contact with index K + 1, appends it to the list, which then holds
    K + 1 contacts, raises the counter to K + 1 and appends the row of the
    contact to the storage file. *)
Theorem add_contact_assigns_next_index :
  forall (pb : Phonebook) (lines rest : list string),
    consistent pb ->
    List.length lines = 6%nat ->
    exists contact : Contact,
      _add_contact (lines ++ rest) pb =
        Done tt rest (mkPhonebook (add_one contact (_storage pb)) (_formatter pb)
                                  (_contacts pb ++ [contact])
                                  (len (_contacts pb) + 1))
      /\ index contact = VInt (len (_contacts pb) + 1)
      /\ len (_contacts pb ++ [contact]) = len (_contacts pb) + 1.
Proof.
  intros pb lines rest Hcons Hlen. unfold consistent in Hcons.
  destruct (input_fields_in_list field_map (List.length (_contacts pb)) lines rest
              (set_contacts (_contacts pb ++ [new_contact (VInt (_last_index pb + 1))]) pb)
              Hlen) as (f & Hf & Hrun).
  exists (f (new_contact (VInt (_last_index pb + 1)))).
  split; [|split].
  - unfold _add_contact. unfold bind at 1. cbn [get].
    unfold bind at 1. unfold _input_contact_data. unfold bind at 1. cbn [get].
    unfold bind at 1. unfold bind at 1. cbn [put ret].
    rewrite Hrun. cbn [_contacts set_contacts].
    rewrite update_nth_last.
    unfold bind at 1. cbn [update]. unfold bind at 1. cbn [get].
    cbn [deref _contacts set_contacts set_last_index].
    rewrite nth_error_last.
    unfold update, storage_add_one, set_storage, set_last_index, set_contacts.
    cbn [_storage _formatter _contacts _last_index].
    rewrite Hcons. reflexivity.
  - rewrite Hf, Hcons. reflexivity.
  - apply len_app_one.
Qed.

(** An instance: the first contact added to an empty catalogue *)
Lemma add_contact_assigns_next_index_witness :
  consistent empty_book
  /\ exists contact : Contact,
      _add_contact (["Ivanov"; "Ivan"; EmptyString; "ACME"; "12"; EmptyString] ++ [])
                   empty_book =
        Done tt [] (mkPhonebook (add_one contact (_storage empty_book))
                                (_formatter empty_book)
                                (_contacts empty_book ++ [contact])
                                (len (_contacts empty_book) + 1))
      /\ index contact = VInt (len (_contacts empty_book) + 1)
      /\ len (_contacts empty_book ++ [contact]) = len (_contacts empty_book) + 1.
Proof.
  split; [reflexivity|].
  exact (add_contact_assigns_next_index empty_book
           ["Ivanov"; "Ivan"; EmptyString; "ACME"; "12"; EmptyString] []
           eq_refl eq_refl).
Defined.

(** ** Strings and equality tests *)

Lemma append_assoc (a b c : string) : (a +:+ b) +:+ c = a +:+ (b +:+ c).
Proof. induction a as [|x a IH]; simpl; [reflexivity | now rewrite IH]. Qed.

Lemma append_nil_r (a : string) : a +:+ EmptyString = a.
Proof. induction a as [|x a IH]; simpl; [reflexivity | now rewrite IH]. Qed.

Lemma PyVal_eqb_eq (a b : PyVal) : PyVal_eqb a b = true <-> a = b.
Proof.
  destruct a, b; simpl; split; intros H; try discriminate; try reflexivity.
  - apply Z.eqb_eq in H. now subst.
  - injection H as ->. apply Z.eqb_refl.
  - apply String.eqb_eq in H. now subst.
  - injection H as ->. apply String.eqb_refl.
Qed.

Lemma text_val_inj (a b : Text) : text_val a = text_val b -> a = b.
Proof. destruct a, b; simpl; intros H; congruence. Qed.

Lemma Contact_eqb_eq (a b : Contact) : Contact_eqb a b = true <-> a = b.
Proof.
  split.
  - destruct a, b. unfold Contact_eqb, data_row, contact_items. simpl.
    rewrite !andb_true_iff, !PyVal_eqb_eq.
    intros (H1 & H2 & H3 & H4 & H5 & H6 & H7 & _).
    apply text_val_inj in H2, H3, H4, H5, H6, H7. now subst.
  - intros <-. destruct a. unfold Contact_eqb, data_row, contact_items. simpl.
    rewrite !andb_true_iff, !PyVal_eqb_eq. repeat split.
Qed.

Lemma Contact_eqb_refl (a : Contact) : Contact_eqb a a = true.
Proof. now apply Contact_eqb_eq. Qed.

(** ** What [save_all] writes *)

Lemma to_csv_row (c : Contact) :
  exists d, _to_csv c = Returns d /\ _dict_to_list csv_fields d = Returns (data_row c).
Proof. destruct c. eexists. split; vm_compute; reflexivity. Qed.

Lemma writerows_text :
  forall (cs : list Contact) (rows : list (list (string * PyVal))) (written : string),
    Forall2 (fun c d => _dict_to_list csv_fields d = Returns (data_row c)) cs rows ->
    writerows csv_fields rows written = (written +:+ rows_text cs, None).
Proof.
  induction cs as [|c cs IH]; intros rows written H; inversion H; subst; simpl.
  - now rewrite append_nil_r.
  - match goal with Hd : _dict_to_list _ _ = _ |- _ => rewrite Hd end.
    rewrite IH by assumption. now rewrite append_assoc.
Qed.

Lemma map_result_to_csv (cs : list Contact) :
  exists rows, map_result _to_csv cs = Returns rows /\
    Forall2 (fun c d => _dict_to_list csv_fields d = Returns (data_row c)) cs rows.
Proof.
  induction cs as [|c cs (rows & Hrows & Hall)].
  - exists []. split; [reflexivity | constructor].
  - destruct (to_csv_row c) as (d & Hd & Hl).
    exists (d :: rows). split.
    + cbn [map_result]. now rewrite Hd, Hrows.
    + now constructor.
Qed.

(** [save_all] never raises and writes the header and one row per
    contact, whatever the file held before. *)
Lemma save_all_writes (cs : list Contact) : save_all cs = (save_all_text cs, None).
Proof.
  unfold save_all. destruct (map_result_to_csv cs) as (rows & -> & Hall).
  now apply writerows_text.
Qed.

(** ** Deleting a contact *)

Lemma bind_Done {A B : Type} (m : M A) (k : A -> M B) inp pb a rest pb' :
  m inp pb = Done a rest pb' -> bind m k inp pb = k a rest pb'.
Proof. intros H. unfold bind. now rewrite H. Qed.

Lemma py_int_isnumeric (line : string) (k : Z) :
  py_int line = Some k -> isnumeric line = true /\ String.eqb line EmptyString = false.
Proof.
  unfold py_int. destruct (isnumeric line) eqn:Hn; [|discriminate].
  intros _. split; [reflexivity|]. destruct line; [discriminate | reflexivity].
Qed.

(** A line of digits whose number is a correct answer is returned as that
    number by [get_answer]. *)
Lemma get_answer_number (correct : PyVal -> bool) (line : string) (k : Z) rest pb :
  py_int line = Some k -> correct (VInt k) = true ->
  get_answer correct (line :: rest) pb = Done (Some (VInt k)) rest pb.
Proof.
  intros Hk Hc. destruct (py_int_isnumeric line k Hk) as [Hn He].
  cbn [get_answer]. now rewrite He, Hn, Hk, Hc.
Qed.

Lemma get_contact_by_index_run (pb : Phonebook) (line : string) (k : Z) rest :
  consistent pb -> py_int line = Some k -> 1 <= k <= len (_contacts pb) ->
  _get_contact_by_index (line :: rest) pb =
    Done (Some (InList (Z.to_nat (k - 1)))) rest pb.
Proof.
  intros Hcons Hk Hr. unfold _get_contact_by_index.
  unfold bind at 1. cbn [get].
  erewrite bind_Done; [| apply get_answer_number; [exact Hk|]].
  - assert (Ht : truthy (VInt k) = true).
    { simpl. destruct (Z.eqb_spec k 0); [lia | reflexivity]. }
    cbv beta iota. rewrite Ht. cbn [negb int_of lift]. unfold bind, ret.
    unfold subscript.
    destruct (Z.ltb_spec (k - 1) 0); [lia|].
    destruct (Z.leb_spec 0 (k - 1)); [|lia].
    destruct (Z.ltb_spec (k - 1) (len (_contacts pb))); [|lia].
    reflexivity.
  - unfold in_py_range. rewrite Hcons.
    destruct (Z.leb_spec 1 k); [|lia].
    destruct (Z.ltb_spec k (len (_contacts pb) + 1)); [reflexivity | lia].
Qed.

Lemma print_contacts_single (c : Contact) inp pb :
  print_contacts [c] inp pb = Done tt inp pb.
Proof. unfold print_contacts, bind, get. destruct (_formatter pb); reflexivity. Qed.

Lemma dense_from_nth :
  forall cs s p c, dense_from s cs -> nth_error cs p = Some c ->
                   index_number c = Some (s + Z.of_nat p).
Proof.
  induction cs as [|x cs IH]; intros s p c Hd Hn.
  - destruct p; discriminate.
  - destruct Hd as [Hx Hd]. destruct p as [|p]; simpl in Hn.
    + injection Hn as <-. rewrite Hx. f_equal. simpl. lia.
    + rewrite (IH _ _ _ Hd Hn). f_equal. lia.
Qed.

(** With dense indexes no two contacts are equal, so the first contact
    equal to the one at a position is that one. *)
Lemma dense_index_of :
  forall cs s p c, dense_from s cs -> nth_error cs p = Some c -> index_of c cs = Some p.
Proof.
  induction cs as [|x cs IH]; intros s p c Hd Hn.
  - destruct p; discriminate.
  - destruct Hd as [Hx Hd]. destruct p as [|p]; simpl in Hn.
    + injection Hn as <-. simpl. now rewrite Contact_eqb_refl.
    + simpl. destruct (Contact_eqb x c) eqn:E.
      * apply Contact_eqb_eq in E. subst x.
        pose proof (dense_from_nth _ _ _ _ Hd Hn) as Hc.
        rewrite Hx in Hc. injection Hc as Hc. lia.
      * now rewrite (IH _ _ _ Hd Hn).
Qed.

Lemma remove_nth_firstn_skipn {A : Type} (n : nat) (l : list A) :
  remove_nth n l = firstn n l ++ skipn (S n) l.
Proof.
  revert n; induction l as [|x l IH]; intros [|n]; simpl; try reflexivity.
  now rewrite IH.
Qed.

Lemma remove_nth_length {A : Type} (n : nat) (l : list A) (x : A) :
  nth_error l n = Some x -> S (List.length (remove_nth n l)) = List.length l.
Proof.
  revert n; induction l as [|y l IH]; intros [|n] H; simpl in *; try discriminate.
  - reflexivity.
  - now rewrite (IH _ H).
Qed.

Lemma renumber_length (s : Z) (cs : list Contact) :
  List.length (renumber s cs) = List.length cs.
Proof. revert s; induction cs as [|c cs IH]; intros s; simpl; [reflexivity | now rewrite IH]. Qed.

Lemma renumber_text_fields (s : Z) (cs : list Contact) :
  map text_fields (renumber s cs) = map text_fields cs.
Proof. revert s; induction cs as [|c cs IH]; intros s; simpl; [reflexivity | now rewrite IH]. Qed.

Lemma renumber_indexes (a : nat) (cs : list Contact) :
  map index (renumber (Z.of_nat a) cs) =
  map (fun i => VInt (Z.of_nat i)) (seq a (List.length cs)).
Proof.
  revert a; induction cs as [|c cs IH]; intros a; simpl; [reflexivity|].
  f_equal. rewrite <- IH. now rewrite Nat2Z.inj_succ, Z.add_1_r.
Qed.

Lemma renumber_dense (s : Z) (cs : list Contact) : dense_from s (renumber s cs).
Proof. revert s; induction cs as [|c cs IH]; intros s; simpl; [exact I | split; [reflexivity | apply IH]]. Qed.

Lemma yes_token_cases (a : string) :
  str_in a ["y"; "д"; "да"; "yes"] = true ->
  a = "y" \/ a = "д" \/ a = "да" \/ a = "yes".
Proof.
  cbn [str_in]. rewrite !orb_true_iff, !String.eqb_eq.
  intros [H | [H | [H | [H | H]]]]; auto; discriminate.
Qed.

(** One confirmation: the contact is removed, the rest renumbered and the
    file rewritten; the loop then ends for the two tokens its condition
    knows and goes on asking for the two others. *)
Lemma confirm_delete_yes (pb : Phonebook) (p : nat) (target : Contact) answer rest :
  dense_from 1 (_contacts pb) ->
  nth_error (_contacts pb) p = Some target ->
  str_in (lower answer) ["y"; "д"; "да"; "yes"] = true ->
  let contacts' := renumber 1 (remove_nth p (_contacts pb)) in
  let pb' := mkPhonebook (fst (save_all contacts')) (_formatter pb) contacts' (len contacts') in
  confirm_delete (InList p) (answer :: rest) pb =
    if str_in (lower answer) ["y"; "д"] then Done tt rest pb'
    else confirm_delete (Detached target) rest pb'.
Proof.
  intros Hd Hn Hyes contacts' pb'. cbn [confirm_delete].
  assert (Hno : str_in (lower answer) ["n"; "н"; "нет"; "no"] = false).
  { destruct (yes_token_cases _ Hyes) as [-> | [-> | [-> | ->]]]; reflexivity. }
  assert (Hloop : str_in (lower answer) ["n"; "н"; "y"; "д"] = str_in (lower answer) ["y"; "д"]).
  { destruct (yes_token_cases _ Hyes) as [-> | [-> | [-> | ->]]]; reflexivity. }
  rewrite Hno, Hyes, Hloop.
  unfold list_remove. cbn [deref]. rewrite Hn.
  rewrite (dense_index_of _ _ _ _ Hd Hn). rewrite Nat.eqb_refl.
  unfold storage_save_all, _update_indexes.
  cbn [_contacts set_contacts set_last_index set_storage fst snd _storage _formatter _last_index].
  fold contacts'. rewrite save_all_writes. cbn [fst snd].
  subst pb'. rewrite save_all_writes. cbn [fst].
  destruct (str_in (lower answer) ["y"; "д"]); reflexivity.
Qed.



(** A refusal returns at once and changes nothing. *)
Lemma confirm_delete_no (r : Ref) (answer : string) rest pb :
  str_in (lower answer) ["n"; "н"; "нет"; "no"] = true ->
  confirm_delete r (answer :: rest) pb = Done tt rest pb.
Proof. intros H. cbn [confirm_delete]. now rewrite H. Qed.

(** An answer that is neither a refusal nor a confirmation asks again. *)
Lemma confirm_delete_other (r : Ref) (answer : string) rest pb :
  str_in (lower answer) ["n"; "н"; "нет"; "no"] = false ->
  str_in (lower answer) ["y"; "д"; "да"; "yes"] = false ->
  confirm_delete r (answer :: rest) pb = confirm_delete r rest pb.
Proof.
  intros Hno Hyes. cbn [confirm_delete]. rewrite Hno, Hyes.
  assert (H : str_in (lower answer) ["n"; "н"; "y"; "д"] = false).
  { cbn [str_in] in *. rewrite !orb_false_iff in *. intuition. }
  now rewrite H.
Qed.

(** C8.  The confirmation loop returns after y and д, but not after да
    and yes, which the loop condition does not list: the contact is removed
    and the file rewritten, and the question is asked again.  A second да
    then removes again: it raises ValueError when no contact equals the one
    removed, and deletes a second contact when one does. *)
Theorem delete_long_yes_token_asks_again :
  let pb := book_of [ivanov (VInt 1); petrov (VInt 2)] in
  let pb' := book_of [petrov (VInt 1)] in
  _delete_contact ["1"; "y"] pb = Done tt [] pb'
  /\ _delete_contact ["1"; "да"] pb = Raised EOFError pb'
  /\ _delete_contact ["1"; "yes"; "no"] pb = Done tt [] pb'
  /\ _delete_contact ["1"; "да"; "да"] pb = Raised ValueError pb'
  /\ _delete_contact ["1"; "да"; "да"; "n"]
       (book_of [ivanov (VInt 1); ivanov (VInt 2); petrov (VInt 3)])
     = Done tt [] (book_of [petrov (VInt 1)]).
Proof. repeat split; vm_compute; reflexivity. Qed.

(** ** The prompts of the selected-fields search *)

(** C7.  The field-number prompt accepts the numbers of
    range(max(field_map.keys())), which are 0..6 and not 1..7: the token 0
    is accepted and fails the lookup in the field table, and the token 7,
    the last field, is refused and asked again. *)
Theorem field_prompt_accepts_zero_rejects_seven :
  forall pb : Phonebook,
    _get_field_indexes ["0"] pb = Done [0] [] pb
    /\ _get_search_conditions [0] ["x"] pb = Raised (KeyError "0") pb
    /\ _find_contacts_by_given_fields ["0"; "x"] pb = Raised (KeyError "0") pb
    /\ _get_field_indexes ["7"] pb = Raised EOFError pb
    /\ _get_field_indexes ["7"; "6"] pb = Done [6] [] pb.
Proof. intros pb. repeat split; reflexivity. Qed.

(** ** Searching contacts numbered by the program *)

(** C6.  A contact just added carries its index as a number, and the
    all-fields search calls lower() on every value of a contact: the search
    raises AttributeError instead of returning the contact whose last name
    contains the query. *)
Theorem all_fields_search_fails_on_numbered_contact :
  exists pb : Phonebook,
    _add_contact ["Ivanov"; "Ivan"; EmptyString; "ACME"; "12"; EmptyString] empty_book
      = Done tt [] pb
    /\ _contacts pb = [ivanov (VInt 1)]
    /\ _find_contacts_by_all_fields ["iva"] pb = Raised AttributeError pb.
Proof. eexists. repeat split; vm_compute; reflexivity. Qed.

(** C5.  The same contact and a search on the first field, the index,
    with the query 1: the index is the number 1, its text contains the
    query, and the search raises AttributeError instead of returning the
    contact. *)
Theorem selected_fields_search_fails_on_numbered_index :
  exists pb : Phonebook,
    _add_contact ["Ivanov"; "Ivan"; EmptyString; "ACME"; "12"; EmptyString] empty_book
      = Done tt [] pb
    /\ contains (lower "1") (lower (py_str (index (ivanov (VInt 1))))) = true
    /\ _find_contacts_by_search_conditions [mkSearchCondition "index" "1"] [] pb
       = Raised AttributeError pb
    /\ _find_contacts_by_given_fields ["1"; "1"] pb = Raised AttributeError pb.
Proof. eexists. repeat split; vm_compute; reflexivity. Qed.

(** ** The reader never fails on the lines of a text file *)

Lemma universal_newlines_no_CR_upto :
  forall (n : nat) (s : string),
    (String.length s <= n)%nat -> has_char CR (universal_newlines s) = false.
Proof.
  induction n as [|n IH]; intros s Hlen.
  - destruct s; [reflexivity | simpl in Hlen; lia].
  - destruct s as [|c t]; [reflexivity|].
    simpl in Hlen. cbn [universal_newlines].
    destruct (Ascii.eqb c CR) eqn:Hc.
    + cbn [has_char]. change (Ascii.eqb CR LF) with false. cbn [orb].
      destruct t as [|d t']; [reflexivity|]. simpl in Hlen.
      destruct (Ascii.eqb d LF); apply IH; simpl; lia.
    + cbn [has_char]. rewrite Ascii.eqb_sym, Hc. cbn [orb]. apply IH. lia.
Qed.

Lemma universal_newlines_no_CR (s : string) :
  has_char CR (universal_newlines s) = false.
Proof. apply (universal_newlines_no_CR_upto (String.length s)). lia. Qed.

Lemma splitlines_text_lines (s : string) :
  has_char CR s = false -> Forall text_line (splitlines s).
Proof.
  induction s as [|c t IH]; intros H; [constructor|].
  cbn [has_char] in H. apply orb_false_iff in H as [Hc Ht].
  specialize (IH Ht). cbn [splitlines].
  destruct (Ascii.eqb c LF) eqn:Hlf.
  - constructor; [|exact IH].
    apply Ascii.eqb_eq in Hlf. subst c. simpl. auto.
  - assert (Hnl : is_newline c = false).
    { unfold is_newline. rewrite Hlf. rewrite Ascii.eqb_sym, Hc. reflexivity. }
    destruct (splitlines t) as [|l ls].
    + constructor; [|constructor]. cbn [text_line]. rewrite Hnl. exact I.
    + inversion IH; subst. constructor; [|assumption].
      cbn [text_line]. rewrite Hnl. assumption.
Qed.

Lemma file_lines_text_lines (content : string) :
  Forall text_line (file_lines content).
Proof. apply splitlines_text_lines, universal_newlines_no_CR. Qed.

Lemma parse_end_of_line (rd : Reader) :
  rd_state rd <> EAT_CRNL ->
  exists rd', parse_process_char rd None = Some rd' /\
              (rd_state rd' = START_RECORD \/ rd_state rd' = IN_QUOTED_FIELD).
Proof.
  destruct rd as [st f fs]. intros H. destruct st; cbn in *; try congruence; eauto.
Qed.

Lemma parse_after_newline (rd : Reader) :
  exists rd', parse_process_char rd None = Some rd' /\
              (rd_state rd' = START_RECORD \/ rd_state rd' = IN_QUOTED_FIELD).
Proof. destruct rd as [st f fs]. destruct st; cbn; eauto. Qed.

Lemma parse_ordinary_char (rd : Reader) (c : ascii) :
  rd_state rd <> EAT_CRNL -> is_newline c = false ->
  exists rd', parse_process_char rd (Some c) = Some rd' /\ rd_state rd' <> EAT_CRNL.
Proof.
  destruct rd as [st f fs]. intros H Hc.
  destruct st; unfold parse_process_char, process_start_field, is_eol_or_newline, is_char;
    cbn [rd_state] in *; rewrite ?Hc; try congruence;
    repeat match goal with
           | |- context [if ?b then _ else _] => destruct b
           end;
    eexists; (split; [reflexivity | cbn; congruence]).
Qed.

Lemma parse_line_feed (rd : Reader) :
  rd_state rd <> EAT_CRNL ->
  exists rd', parse_process_char rd (Some LF) = Some rd'.
Proof.
  destruct rd as [st f fs]. intros H. destruct st; cbn in *; try congruence; eauto.
Qed.

(** A line of a text file leaves the parser at the start of a record or
    inside a quoted field, and is never refused. *)
Lemma process_text_line :
  forall (l : string) (rd : Reader),
    text_line l -> rd_state rd <> EAT_CRNL ->
    exists rd', process_line rd l = Some rd' /\
                (rd_state rd' = START_RECORD \/ rd_state rd' = IN_QUOTED_FIELD).
Proof.
  induction l as [|c t IH]; intros rd Hl Hst.
  - cbn [process_line]. now apply parse_end_of_line.
  - cbn [text_line] in Hl. cbn [process_line].
    destruct (is_newline c) eqn:Hc.
    + destruct Hl as [-> ->].
      destruct (parse_line_feed rd Hst) as (rd1 & ->).
      cbn [process_line]. apply parse_after_newline.
    + destruct (parse_ordinary_char rd c Hst Hc) as (rd1 & -> & Hst1).
      now apply IH.
Qed.

Lemma read_rows_text_lines :
  forall (lines : list string) (rd : Reader),
    Forall text_line lines -> rd_state rd <> EAT_CRNL ->
    snd (read_rows rd lines) = false.
Proof.
  induction lines as [|l ls IH]; intros rd Hall Hst.
  - cbn [read_rows]. unfold at_end_of_input. destruct (_ || _); reflexivity.
  - inversion Hall; subst. cbn [read_rows].
    destruct (process_text_line l rd) as (rd' & -> & Hst'); try assumption.
    destruct Hst' as [E | E]; rewrite E.
    + unfold yield. cbn [snd]. apply IH; [assumption | discriminate].
    + apply IH; [assumption | congruence].
Qed.

(** [csv.reader] over a file opened in text mode never raises. *)
Lemma csv_reader_total (content : string) : snd (csv_reader content) = false.
Proof.
  apply read_rows_text_lines; [apply file_lines_text_lines | discriminate].
Qed.

(** ** Dictionaries *)

Lemma dict_get_set {V : Type} (k k' : string) (v : V) (d : list (string * V)) :
  dict_get k (dict_set k' v d) = if String.eqb k k' then Some v else dict_get k d.
Proof.
  induction d as [|[k1 v1] d IH]; cbn [dict_set dict_get]; [reflexivity|].
  destruct (String.eqb_spec k' k1) as [-> | Hne]; cbn [dict_get].
  - destruct (String.eqb k k1); reflexivity.
  - rewrite IH. destruct (String.eqb_spec k k1) as [-> | Hne'].
    + destruct (String.eqb_spec k1 k'); [congruence | reflexivity].
    + reflexivity.
Qed.

Lemma str_in_In (s : string) (l : list string) : str_in s l = true <-> In s l.
Proof.
  induction l as [|x l IH]; cbn [str_in In]; [split; [discriminate | tauto]|].
  rewrite orb_true_iff, String.eqb_eq, IH. split; intros [H | H]; auto.
Qed.

Lemma dict_get_fold_items {V : Type} (k : string) (items : list (string * V)) :
  forall d, dict_get k (fold_left (fun d kv => dict_set (fst kv) (snd kv) d) items d) = None
            <-> dict_get k d = None /\ ~ In k (map fst items).
Proof.
  induction items as [|[k1 v1] items IH]; intros d; cbn [fold_left map In fst snd].
  - tauto.
  - rewrite IH, dict_get_set. destruct (String.eqb_spec k k1) as [-> | Hne].
    + split; [intros [H _]; discriminate | intros [_ H]; exfalso; apply H; now left].
    + split; intros [H1 H2]; (split; [exact H1|]).
      * intros [H | H]; [congruence | now apply H2].
      * intros H. apply H2. now right.
Qed.

Lemma dict_get_fold_keys {V : Type} (k : string) (v : V) (keys : list string) :
  forall d, dict_get k (fold_left (fun d key => dict_set key v d) keys d) = None
            <-> dict_get k d = None /\ ~ In k keys.
Proof.
  induction keys as [|k1 keys IH]; intros d; cbn [fold_left In].
  - tauto.
  - rewrite IH, dict_get_set. destruct (String.eqb_spec k k1) as [-> | Hne].
    + split; [intros [H _]; discriminate | intros [_ H]; exfalso; apply H; now left].
    + split; intros [H1 H2]; (split; [exact H1|]).
      * intros [H | H]; [congruence | now apply H2].
      * intros H. apply H2. now right.
Qed.

Lemma map_fst_combine {A B : Type} (l : list A) (l' : list B) :
  map fst (combine l l') = firstn (List.length l') l.
Proof.
  revert l'; induction l as [|a l IH]; intros [|b l']; cbn; try reflexivity.
  now rewrite IH.
Qed.

(** The keys of the dictionary of a row are the field names, whatever the
    number of values in the row. *)
Lemma row_dict_keys (fieldnames row : list string) (t : string) :
  dict_get t (row_dict fieldnames row) = None <-> ~ In t fieldnames.
Proof.
  unfold row_dict, dict_of. rewrite dict_get_fold_keys, dict_get_fold_items.
  rewrite map_fst_combine, length_map. cbn [dict_get].
  rewrite <- (firstn_skipn (List.length row) fieldnames) at 3.
  rewrite in_app_iff. tauto.
Qed.

(** ** What [read_all] does with the header and the rows *)

Lemma row_values_present (d : list (string * Text)) :
  forall titles, (forall t, In t titles -> dict_get t d <> None) ->
    exists vs, row_values titles d = Returns vs /\ List.length vs = List.length titles.
Proof.
  induction titles as [|t titles IH]; intros H; cbn [row_values].
  - exists []. split; reflexivity.
  - destruct (dict_get t d) as [v|] eqn:Hv; [| exfalso; apply (H t); [now left | exact Hv]].
    destruct IH as (vs & -> & Hlen); [intros t' Ht'; apply H; now right|].
    exists (v :: vs). split; [reflexivity | cbn; now rewrite Hlen].
Qed.

Lemma row_values_missing (fieldnames row : list string) :
  forall titles t,
    find (fun t => negb (str_in t fieldnames)) titles = Some t ->
    row_values titles (row_dict fieldnames row) = Raises (KeyError t).
Proof.
  induction titles as [|t1 titles IH]; intros t Hfind; cbn [find] in Hfind; [discriminate|].
  cbn [row_values]. destruct (str_in t1 fieldnames) eqn:Hin; cbn [negb] in Hfind.
  - destruct (dict_get t1 (row_dict fieldnames row)) as [v|] eqn:Hv.
    + now rewrite (IH _ Hfind).
    + apply row_dict_keys in Hv. apply str_in_In in Hin. contradiction.
  - injection Hfind as <-.
    assert (Hv : dict_get t1 (row_dict fieldnames row) = None).
    { apply row_dict_keys. rewrite <- str_in_In, Hin. discriminate. }
    now rewrite Hv.
Qed.

Lemma find_none_all_present (fieldnames : list string) :
  forall titles, find (fun t => negb (str_in t fieldnames)) titles = None ->
                 forall t, In t titles -> In t fieldnames.
Proof.
  induction titles as [|t1 titles IH]; intros Hfind t Ht; [destruct Ht|].
  cbn [find] in Hfind. destruct (str_in t1 fieldnames) eqn:Hin; [|discriminate].
  destruct Ht as [<- | Ht]; [now apply str_in_In | now apply IH].
Qed.

Lemma read_data_complete (fieldnames : list string) :
  (forall t, In t csv_fields -> In t fieldnames) ->
  forall rows, exists data,
    read_data (map (row_dict fieldnames) rows) false = Returns data
    /\ List.length data = List.length rows
    /\ Forall (fun vs => List.length vs = List.length csv_fields) data.
Proof.
  intros Hall. induction rows as [|row rows (data & Hd & Hlen & Hseven)].
  - exists []. repeat split. constructor.
  - destruct (row_values_present (row_dict fieldnames row) csv_fields) as (vs & Hvs & Hl).
    { intros t Ht Hnone. apply row_dict_keys in Hnone. apply Hnone, Hall, Ht. }
    exists (vs :: data). cbn [map read_data]. rewrite Hvs, Hd.
    repeat split; [cbn; now rewrite Hlen | now constructor].
Qed.

Lemma contacts_of_values (data : list (list Text)) :
  Forall (fun vs => List.length vs = List.length csv_fields) data ->
  exists contacts, map_result Contact_of_values data = Returns contacts
                   /\ List.length contacts = List.length data.
Proof.
  induction 1 as [|vs data Hvs _ (contacts & Hc & Hlen)].
  - exists []. split; reflexivity.
  - destruct vs as [|a [|b [|c [|d [|e [|f [|g [|h vs]]]]]]]]; try discriminate Hvs.
    eexists. cbn [map_result Contact_of_values]. rewrite Hc.
    split; [reflexivity | cbn; now rewrite Hlen].
Qed.



(** ** Universal newlines *)

(** Induction following the cases of [universal_newlines] *)
Lemma universal_newlines_ind (P : string -> Prop) :
  P EmptyString ->
  (forall c t, Ascii.eqb c CR = false -> P t -> P (String c t)) ->
  P (String CR EmptyString) ->
  (forall t, P t -> P (String CR (String LF t))) ->
  (forall d t, Ascii.eqb d LF = false -> P (String d t) -> P (String CR (String d t))) ->
  forall s, P s.
Proof.
  intros Hnil Hchar Hcr Hcrlf Hcrd.
  assert (H : forall n s, (String.length s <= n)%nat -> P s).
  { induction n as [|n IH]; intros s Hlen.
    - destruct s; [exact Hnil | simpl in Hlen; lia].
    - destruct s as [|c t]; [exact Hnil|]. simpl in Hlen.
      destruct (Ascii.eqb c CR) eqn:Hc.
      + apply Ascii.eqb_eq in Hc. subst c.
        destruct t as [|d t']; [exact Hcr|]. simpl in Hlen.
        destruct (Ascii.eqb d LF) eqn:Hd.
        * apply Ascii.eqb_eq in Hd. subst d. apply Hcrlf, IH. lia.
        * apply Hcrd; [exact Hd|]. apply IH. simpl. lia.
      + apply Hchar; [exact Hc|]. apply IH. lia. }
  intros s. apply (H (String.length s)). lia.
Qed.

Lemma universal_newlines_char (c : ascii) (t : string) :
  Ascii.eqb c CR = false ->
  universal_newlines (String c t) = String c (universal_newlines t).
Proof. intros H. cbn [universal_newlines]. now rewrite H. Qed.

Lemma universal_newlines_CR (t : string) :
  starts_with_LF t = false ->
  universal_newlines (String CR t) = String LF (universal_newlines t).
Proof.
  intros H. cbn [universal_newlines]. rewrite Ascii.eqb_refl.
  destruct t as [|d t']; [reflexivity|]. cbn [starts_with_LF] in H. now rewrite H.
Qed.

Lemma universal_newlines_CRLF (t : string) :
  universal_newlines (String CR (String LF t)) = String LF (universal_newlines t).
Proof. reflexivity. Qed.

(** Reading distributes over a concatenation unless a carriage return and
    its line feed are on the two sides. *)
Lemma universal_newlines_app (a b : string) :
  starts_with_LF b = false ->
  universal_newlines (a +:+ b) = universal_newlines a +:+ universal_newlines b.
Proof.
  intros Hb. induction a as [| c t Hc IH | | t IH | d t Hd IH] using universal_newlines_ind.
  - reflexivity.
  - cbn [append]. rewrite !universal_newlines_char by assumption.
    cbn [append]. now rewrite IH.
  - cbn [append]. rewrite universal_newlines_CR by assumption. reflexivity.
  - cbn [append]. rewrite !universal_newlines_CRLF. cbn [append]. now rewrite IH.
  - change (String CR (String d t) +:+ b) with (String CR (String d t +:+ b)).
    rewrite universal_newlines_CR by (cbn; exact Hd).
    rewrite IH. rewrite (universal_newlines_CR (String d t)) by (cbn; exact Hd).
    reflexivity.
Qed.

Lemma universal_newlines_id (s : string) :
  has_char CR s = false -> universal_newlines s = s.
Proof.
  induction s as [|c t IH]; intros H; [reflexivity|].
  cbn [has_char] in H. apply orb_false_iff in H as [Hc Ht].
  rewrite universal_newlines_char by (now rewrite Ascii.eqb_sym).
  now rewrite IH.
Qed.

(** ** The reader follows the text *)

Lemma read_rows_cons (rd : Reader) (c : ascii) (l : string) (ls : list string) :
  read_rows rd (String c l :: ls) =
  match parse_process_char rd (Some c) with
  | None => ([], true)
  | Some rd1 => read_rows rd1 (l :: ls)
  end.
Proof.
  cbn [read_rows process_line].
  destruct (parse_process_char rd (Some c)); reflexivity.
Qed.

Lemma read_rows_end_of_line (rd : Reader) (ls : list string) :
  read_rows rd (EmptyString :: ls) =
  match parse_process_char rd None with
  | None => ([], true)
  | Some rd2 =>
      match rd_state rd2 with
      | START_RECORD => yield (rd_fields rd2) (read_rows parse_reset ls)
      | _ => read_rows rd2 ls
      end
  end.
Proof. reflexivity. Qed.

Lemma feed_read_rows_open :
  forall (s : string) (rd : Reader) (open : bool),
    feed rd open s =
    read_rows rd (match splitlines s with
                  | [] => if open then [EmptyString] else []
                  | ls => ls
                  end).
Proof.
  induction s as [|c t IH]; intros rd open.
  - cbn [feed splitlines]. unfold end_of_text. destruct open; [|reflexivity].
    rewrite read_rows_end_of_line.
    destruct (parse_process_char rd None) as [rd2|]; [|reflexivity].
    destruct (rd_state rd2); reflexivity.
  - cbn [feed splitlines]. destruct (Ascii.eqb c LF) eqn:Hc.
    + rewrite read_rows_cons.
      destruct (parse_process_char rd (Some c)) as [rd1|]; [|reflexivity].
      rewrite read_rows_end_of_line.
      destruct (parse_process_char rd1 None) as [rd2|]; [|reflexivity].
      rewrite !IH. destruct (splitlines t); reflexivity.
    + transitivity (match parse_process_char rd (Some c) with
                    | None => ([], true)
                    | Some rd1 => read_rows rd1 (match splitlines t with
                                                 | [] => [EmptyString]
                                                 | ls => ls
                                                 end)
                    end).
      * destruct (parse_process_char rd (Some c)) as [rd1|]; [|reflexivity].
        apply IH.
      * destruct (splitlines t) as [|l ls]; now rewrite read_rows_cons.
Qed.

(** [csv.reader] over a file is [feed] over its text. *)
Lemma feed_read_rows (content : string) :
  csv_reader content = feed parse_reset false (universal_newlines content).
Proof.
  unfold csv_reader, file_lines. rewrite feed_read_rows_open.
  destruct (splitlines (universal_newlines content)); reflexivity.
Qed.

(** ** The reader reads back what the writer lays out *)

Lemma needs_quote_cons (c : ascii) (t : string) :
  needs_quote (String c t) = special c || needs_quote t.
Proof.
  unfold needs_quote, special. cbn [has_char].
  rewrite (Ascii.eqb_sym COMMA c), (Ascii.eqb_sym DQUOTE c),
          (Ascii.eqb_sym CR c), (Ascii.eqb_sym LF c).
  destruct (Ascii.eqb c COMMA), (Ascii.eqb c DQUOTE), (Ascii.eqb c CR), (Ascii.eqb c LF),
    (has_char COMMA t), (has_char DQUOTE t), (has_char CR t), (has_char LF t); reflexivity.
Qed.

Lemma special_false (c : ascii) :
  special c = false ->
  Ascii.eqb c COMMA = false /\ Ascii.eqb c DQUOTE = false /\ is_newline c = false
  /\ Ascii.eqb c LF = false.
Proof.
  unfold special, is_newline.
  destruct (Ascii.eqb c COMMA), (Ascii.eqb c DQUOTE), (Ascii.eqb c CR), (Ascii.eqb c LF);
    intros H; try discriminate H; repeat split.
Qed.

(** The steps of the parser on the characters the writer produces *)

Lemma step_start_quote (fld : string) (done : list string) :
  parse_process_char (mkReader START_FIELD fld done) (Some DQUOTE)
  = Some (mkReader IN_QUOTED_FIELD fld done).
Proof. reflexivity. Qed.

Lemma step_start_ordinary (c : ascii) (fld : string) (done : list string) :
  special c = false ->
  parse_process_char (mkReader START_FIELD fld done) (Some c)
  = Some (mkReader IN_FIELD (fld +:+ String c EmptyString) done).
Proof.
  intros H. destruct (special_false c H) as (Hc & Hq & Hn & _).
  unfold parse_process_char, process_start_field, is_eol_or_newline, is_char.
  cbn [rd_state]. now rewrite Hn, Hq, Hc.
Qed.

Lemma step_field_ordinary (c : ascii) (fld : string) (done : list string) :
  special c = false ->
  parse_process_char (mkReader IN_FIELD fld done) (Some c)
  = Some (mkReader IN_FIELD (fld +:+ String c EmptyString) done).
Proof.
  intros H. destruct (special_false c H) as (Hc & Hq & Hn & _).
  unfold parse_process_char, is_eol_or_newline, is_char.
  cbn [rd_state]. now rewrite Hn, Hc.
Qed.

Lemma step_quoted_other (c : ascii) (fld : string) (done : list string) :
  Ascii.eqb c DQUOTE = false ->
  parse_process_char (mkReader IN_QUOTED_FIELD fld done) (Some c)
  = Some (mkReader IN_QUOTED_FIELD (fld +:+ String c EmptyString) done).
Proof. intros H. unfold parse_process_char. cbn [rd_state]. now rewrite H. Qed.

(** An unquoted field body is taken character by character. *)
Lemma feed_unquoted :
  forall (body fld : string) (done : list string) (k : string),
    needs_quote body = false ->
    feed (mkReader IN_FIELD fld done) true (body +:+ k)
    = feed (mkReader IN_FIELD (fld +:+ body) done) true k.
Proof.
  induction body as [|c t IH]; intros fld done k H.
  - now rewrite append_nil_r.
  - rewrite needs_quote_cons in H. apply orb_false_iff in H as [Hc Ht].
    cbn [append feed]. rewrite step_field_ordinary by exact Hc.
    destruct (special_false c Hc) as (_ & _ & _ & Hlf). rewrite Hlf.
    rewrite IH by exact Ht. now rewrite append_assoc.
Qed.

(** A quoted field body is taken up to its closing quote, line feeds
    included, and a doubled quote gives one quote. *)
Lemma feed_quoted :
  forall (body fld : string) (done : list string) (open : bool) (k : string),
    feed (mkReader IN_QUOTED_FIELD fld done) open
         (double_quotes body +:+ String DQUOTE k)
    = feed (mkReader QUOTE_IN_QUOTED_FIELD (fld +:+ body) done) true k.
Proof.
  induction body as [|c t IH]; intros fld done open k.
  - rewrite append_nil_r. reflexivity.
  - cbn [double_quotes]. destruct (Ascii.eqb c DQUOTE) eqn:Hq.
    + apply Ascii.eqb_eq in Hq. subst c.
      change (feed (mkReader IN_QUOTED_FIELD fld done) open
                (String DQUOTE (String DQUOTE (double_quotes t)) +:+ String DQUOTE k))
        with (feed (mkReader IN_QUOTED_FIELD (fld +:+ String DQUOTE EmptyString) done) true
                (double_quotes t +:+ String DQUOTE k)).
      rewrite IH. now rewrite append_assoc.
    + cbn [append feed]. rewrite step_quoted_other by exact Hq.
      destruct (Ascii.eqb c LF).
      * cbn [parse_process_char rd_state]. rewrite IH. now rewrite append_assoc.
      * rewrite IH. now rewrite append_assoc.
Qed.

(** A field laid out by the writer, read from the start of a field *)
Lemma feed_field :
  forall (f : string) (done : list string) (k : string),
    feed (mkReader START_FIELD EmptyString done) true (quote_field f +:+ k)
    = feed (field_read f done) true k.
Proof.
  intros f done k. unfold quote_field, field_read.
  destruct (needs_quote f) eqn:Hq.
  - cbn [append]. rewrite append_assoc. cbn [append feed].
    rewrite step_start_quote. change (Ascii.eqb DQUOTE LF) with false. cbv iota.
    rewrite feed_quoted. reflexivity.
  - destruct f as [|c t]; [reflexivity|].
    rewrite needs_quote_cons in Hq. apply orb_false_iff in Hq as [Hc Ht].
    cbn [append feed]. rewrite step_start_ordinary by exact Hc.
    destruct (special_false c Hc) as (_ & _ & _ & Hlf). rewrite Hlf.
    rewrite feed_unquoted by exact Ht. reflexivity.
Qed.

Lemma field_read_cases (f : string) (done : list string) :
  field_read f done = mkReader QUOTE_IN_QUOTED_FIELD f done
  \/ field_read f done = mkReader START_FIELD f done
  \/ field_read f done = mkReader IN_FIELD f done.
Proof.
  unfold field_read. destruct (needs_quote f); [now left|].
  destruct f; [right; now left | right; now right].
Qed.

(** After a field, a comma starts the next one. *)
Lemma feed_after_field_comma (f : string) (done : list string) (k : string) :
  feed (field_read f done) true (String COMMA k)
  = feed (mkReader START_FIELD EmptyString (done ++ [f])) true k.
Proof.
  destruct (field_read_cases f done) as [-> | [-> | ->]]; reflexivity.
Qed.

(** After a field, a line feed completes the row. *)
Lemma feed_after_field_LF (f : string) (done : list string) (rest : string) :
  feed (field_read f done) true (String LF rest)
  = yield (done ++ [f]) (feed parse_reset false rest).
Proof.
  destruct (field_read_cases f done) as [-> | [-> | ->]]; reflexivity.
Qed.

(** After a field, the end of the text completes the row. *)
Lemma feed_after_field_end (f : string) (done : list string) :
  feed (field_read f done) true EmptyString = ([done ++ [f]], false).
Proof.
  destruct (field_read_cases f done) as [-> | [-> | ->]]; reflexivity.
Qed.

Lemma row_line_cons (f g : string) (r : list string) :
  row_line (f :: g :: r) = quote_field f +:+ String COMMA (row_line (g :: r)).
Proof. reflexivity. Qed.

Lemma feed_fields_LF :
  forall (fs done : list string) (rest : string),
    fs <> [] ->
    feed (mkReader START_FIELD EmptyString done) true (row_line fs +:+ String LF rest)
    = yield (done ++ fs) (feed parse_reset false rest).
Proof.
  induction fs as [|f fs IH]; intros done rest Hne; [contradiction|].
  destruct fs as [|g r].
  - change (row_line [f]) with (quote_field f).
    rewrite feed_field. apply feed_after_field_LF.
  - rewrite row_line_cons, append_assoc. rewrite feed_field.
    cbn [append]. rewrite feed_after_field_comma.
    rewrite IH by discriminate. now rewrite <- app_assoc.
Qed.

Lemma feed_fields_end :
  forall (fs done : list string),
    fs <> [] ->
    feed (mkReader START_FIELD EmptyString done) true (row_line fs)
    = ([done ++ fs], false).
Proof.
  induction fs as [|f fs IH]; intros done Hne; [contradiction|].
  destruct fs as [|g r].
  - change (row_line [f]) with (quote_field f).
    rewrite <- (append_nil_r (quote_field f)).
    rewrite feed_field. apply feed_after_field_end.
  - rewrite row_line_cons. rewrite feed_field.
    rewrite feed_after_field_comma.
    rewrite IH by discriminate. now rewrite <- app_assoc.
Qed.

Lemma feed_start_of_record (c : ascii) (t : string) (open : bool) :
  is_newline c = false ->
  feed parse_reset open (String c t)
  = feed (mkReader START_FIELD EmptyString []) true (String c t).
Proof.
  intros H. cbn [feed].
  assert (E : parse_process_char parse_reset (Some c)
              = parse_process_char (mkReader START_FIELD EmptyString []) (Some c)).
  { unfold parse_process_char. cbn [rd_state parse_reset]. now rewrite H. }
  now rewrite E.
Qed.

Lemma row_line_starts (f g : string) (r : list string) (tail : string) :
  exists c t, row_line (f :: g :: r) +:+ tail = String c t /\ is_newline c = false.
Proof.
  rewrite row_line_cons. unfold quote_field.
  destruct (needs_quote f) eqn:Hq.
  - eexists _, _. split; [reflexivity | reflexivity].
  - destruct f as [|c t].
    + eexists _, _. split; [reflexivity | reflexivity].
    + rewrite needs_quote_cons in Hq. apply orb_false_iff in Hq as [Hc _].
      destruct (special_false c Hc) as (_ & _ & Hn & _).
      eexists _, _. split; [reflexivity | exact Hn].
Qed.

(** A row of two fields or more, written by the writer and ended by a line
    feed, is read back as it was, and the reader starts afresh after it. *)
Lemma feed_row_LF (fs : list string) (rest : string) (open : bool) :
  (2 <= List.length fs)%nat ->
  feed parse_reset open (row_line fs +:+ String LF rest)
  = yield fs (feed parse_reset false rest).
Proof.
  intros Hlen. destruct fs as [|f [|g r]]; try (simpl in Hlen; lia).
  destruct (row_line_starts f g r (String LF rest)) as (c & t & E & Hc).
  rewrite E, feed_start_of_record by exact Hc. rewrite <- E.
  now rewrite feed_fields_LF by discriminate.
Qed.

(** The same row at the very end of the text, with no line feed after it *)
Lemma feed_row_end (fs : list string) (open : bool) :
  (2 <= List.length fs)%nat ->
  feed parse_reset open (row_line fs) = ([fs], false).
Proof.
  intros Hlen. destruct fs as [|f [|g r]]; try (simpl in Hlen; lia).
  destruct (row_line_starts f g r EmptyString) as (c & t & E & Hc).
  rewrite append_nil_r in E.
  rewrite E, feed_start_of_record by exact Hc. rewrite <- E.
  now rewrite feed_fields_end by discriminate.
Qed.

(** ** The text of the file under universal newlines *)

Lemma has_char_universal_newlines (c : ascii) (s : string) :
  Ascii.eqb c CR = false -> Ascii.eqb c LF = false ->
  has_char c (universal_newlines s) = has_char c s.
Proof.
  intros Hcr Hlf.
  induction s as [| d t Hd IH | | t IH | d t Hd IH] using universal_newlines_ind.
  - reflexivity.
  - rewrite universal_newlines_char by exact Hd. cbn [has_char]. now rewrite IH.
  - cbn. now rewrite Hcr, Hlf.
  - rewrite universal_newlines_CRLF. cbn [has_char]. now rewrite IH, Hcr, Hlf.
  - rewrite universal_newlines_CR by (cbn; exact Hd).
    remember (universal_newlines (String d t)) as u.
    remember (String d t) as s. cbn [has_char]. now rewrite IH, Hcr, Hlf.
Qed.

Lemma has_LF_universal_newlines (s : string) :
  has_char LF (universal_newlines s) = has_char LF s || has_char CR s.
Proof.
  induction s as [| d t Hd IH | | t IH | d t Hd IH] using universal_newlines_ind.
  - reflexivity.
  - rewrite universal_newlines_char by exact Hd. cbn [has_char].
    rewrite IH, (Ascii.eqb_sym CR d), Hd.
    destruct (Ascii.eqb LF d), (has_char LF t), (has_char CR t); reflexivity.
  - reflexivity.
  - rewrite universal_newlines_CRLF. reflexivity.
  - rewrite universal_newlines_CR by (cbn; exact Hd).
    remember (universal_newlines (String d t)) as u.
    remember (String d t) as s. cbn [has_char]. rewrite Ascii.eqb_refl.
    cbn [orb]. now rewrite orb_true_r.
Qed.

Lemma needs_quote_universal_newlines (s : string) :
  needs_quote (universal_newlines s) = needs_quote s.
Proof.
  unfold needs_quote.
  rewrite !has_char_universal_newlines by reflexivity.
  rewrite universal_newlines_no_CR, has_LF_universal_newlines.
  destruct (has_char COMMA s), (has_char DQUOTE s), (has_char CR s), (has_char LF s);
    reflexivity.
Qed.

Lemma double_quotes_starts (d : ascii) (t : string) :
  Ascii.eqb d LF = false -> starts_with_LF (double_quotes (String d t)) = false.
Proof.
  intros H. cbn [double_quotes]. destruct (Ascii.eqb d DQUOTE); [reflexivity | exact H].
Qed.

Lemma universal_newlines_double_quotes (s : string) :
  universal_newlines (double_quotes s) = double_quotes (universal_newlines s).
Proof.
  induction s as [| d t Hd IH | | t IH | d t Hd IH] using universal_newlines_ind.
  - reflexivity.
  - rewrite universal_newlines_char by exact Hd. cbn [double_quotes].
    destruct (Ascii.eqb d DQUOTE) eqn:Hq.
    + apply Ascii.eqb_eq in Hq. subst d.
      rewrite !universal_newlines_char by reflexivity. now rewrite IH.
    + rewrite universal_newlines_char by exact Hd. now rewrite IH.
  - reflexivity.
  - change (double_quotes (String CR (String LF t)))
      with (String CR (String LF (double_quotes t))).
    rewrite !universal_newlines_CRLF.
    change (double_quotes (String LF (universal_newlines t)))
      with (String LF (double_quotes (universal_newlines t))).
    now rewrite IH.
  - change (double_quotes (String CR (String d t)))
      with (String CR (double_quotes (String d t))).
    rewrite universal_newlines_CR by (now apply double_quotes_starts).
    rewrite IH. rewrite (universal_newlines_CR (String d t)) by (cbn; exact Hd).
    reflexivity.
Qed.

Lemma universal_newlines_quote_field (f : string) :
  universal_newlines (quote_field f) = quote_field (universal_newlines f).
Proof.
  unfold quote_field. rewrite needs_quote_universal_newlines.
  destruct (needs_quote f); [|reflexivity].
  rewrite universal_newlines_char by reflexivity.
  rewrite universal_newlines_app by reflexivity.
  now rewrite universal_newlines_double_quotes.
Qed.

Lemma universal_newlines_row_line :
  forall (fs : list string) (b : string),
    starts_with_LF b = false ->
    universal_newlines (row_line fs +:+ b)
    = row_line (map universal_newlines fs) +:+ universal_newlines b.
Proof.
  induction fs as [|f fs IH]; intros b Hb; [reflexivity|].
  destruct fs as [|g r].
  - change (row_line [f]) with (quote_field f).
    rewrite universal_newlines_app by exact Hb.
    now rewrite universal_newlines_quote_field.
  - cbn [map]. rewrite !row_line_cons, !append_assoc. cbn [append].
    rewrite universal_newlines_app by reflexivity.
    rewrite universal_newlines_quote_field.
    rewrite universal_newlines_char by reflexivity.
    now rewrite (IH b Hb).
Qed.

(** A row of two values or more as the writer lays it out *)
Lemma writerow_line (v w : PyVal) (r : list PyVal) :
  writerow (v :: w :: r) = row_line (map csv_text (v :: w :: r)) +:+ CRLF.
Proof.
  unfold writerow, row_line. rewrite map_map. cbn [map join].
  destruct (quote_field (csv_text v)); reflexivity.
Qed.

Lemma universal_newlines_rows (cs : list Contact) :
  universal_newlines (rows_text cs) = lf_rows cs.
Proof.
  induction cs as [|c cs IH]; [reflexivity|].
  cbn [rows_text lf_rows]. unfold data_row at 1, contact_items. cbn [map snd].
  rewrite writerow_line, append_assoc.
  rewrite universal_newlines_row_line by reflexivity.
  change (CRLF +:+ rows_text cs) with (String CR (String LF (rows_text cs))).
  rewrite universal_newlines_CRLF, IH, map_map. reflexivity.
Qed.

Lemma universal_newlines_saved (cs : list Contact) :
  universal_newlines (save_all_text cs)
  = row_line csv_fields +:+ String LF (lf_rows cs).
Proof.
  unfold save_all_text.
  change (writeheader csv_fields) with (row_line csv_fields +:+ CRLF).
  rewrite append_assoc.
  rewrite universal_newlines_row_line by reflexivity.
  change (CRLF +:+ rows_text cs) with (String CR (String LF (rows_text cs))).
  rewrite universal_newlines_CRLF, universal_newlines_rows.
  reflexivity.
Qed.

(** ** Saving, then reading *)

Lemma data_row_length (c : Contact) : List.length (data_row c) = 7%nat.
Proof. reflexivity. Qed.

Lemma feed_lf_rows (cs : list Contact) :
  feed parse_reset false (lf_rows cs)
  = (map (fun c => map stored_text (data_row c)) cs, false).
Proof.
  induction cs as [|c cs IH]; [reflexivity|].
  cbn [lf_rows]. rewrite feed_row_LF by (rewrite length_map, data_row_length; lia).
  rewrite IH. reflexivity.
Qed.

(** What [csv.reader] yields on a file written by [save_all]: the column
    titles, then the stored texts of each contact *)
Lemma csv_reader_saved (cs : list Contact) :
  csv_reader (save_all_text cs)
  = (csv_fields :: map (fun c => map stored_text (data_row c)) cs, false).
Proof.
  rewrite feed_read_rows, universal_newlines_saved.
  rewrite feed_row_LF by (vm_compute; lia).
  now rewrite feed_lf_rows.
Qed.

Lemma row_values_seven (a b c d e f g : string) :
  row_values csv_fields (row_dict csv_fields [a; b; c; d; e; f; g])
  = Returns [Some a; Some b; Some c; Some d; Some e; Some f; Some g].
Proof. reflexivity. Qed.

(** What [read_all] makes of rows of seven values under the column
    titles *)
Lemma read_all_rows (rows : list (list string)) (contacts : list Contact) :
  Forall2 row_of_contact rows contacts ->
  match read_data (map (row_dict csv_fields)
                       (filter (fun r => negb (is_blank_row r)) rows)) false with
  | Raises e => Raises e
  | Returns data => map_result Contact_of_values data
  end = Returns contacts.
Proof.
  induction 1 as [|row k rows ks Hrow _ IH]; [reflexivity|].
  destruct Hrow as (a & b & d & e & f & g & h & -> & ->).
  cbn [filter is_blank_row negb map read_data].
  rewrite row_values_seven.
  destruct (read_data _ false) as [data|err]; [|discriminate IH].
  cbn [map_result Contact_of_values]. rewrite IH. reflexivity.
Qed.

Lemma stored_rows (cs : list Contact) :
  Forall2 row_of_contact (map (fun c => map stored_text (data_row c)) cs)
          (map reloaded cs).
Proof.
  induction cs as [|c cs IH]; [constructor|].
  cbn [map]. constructor; [|exact IH]. destruct c. repeat eexists.
Qed.

Lemma read_all_saved (cs : list Contact) :
  read_all (save_all_text cs) = Returns (map reloaded cs).
Proof.
  unfold read_all, DictReader. rewrite csv_reader_saved. cbn [fst snd].
  apply read_all_rows, stored_rows.
Qed.

Lemma text_without_CR_text (t : Text) :
  text_without_CR (text_val t) -> exists s, t = Some s /\ has_char CR s = false.
Proof.
  intros (s & E & Hs). destruct t as [s'|]; [|discriminate E].
  injection E as ->. now exists s.
Qed.

Lemma reloaded_stored_form (c : Contact) : stored_form c -> reloaded c = c.
Proof.
  destruct c as [i l n m o w p]. unfold stored_form, data_row, contact_items, reloaded.
  cbn [map snd index last_name name middle_name organization work_phone private_phone].
  intros H.
  repeat match goal with
         | H : Forall _ (_ :: _) |- _ => inversion H; clear H; subst
         end.
  repeat match goal with
         | H : text_without_CR (text_val _) |- _ =>
             apply text_without_CR_text in H; destruct H as (? & -> & ?)
         end.
  match goal with
  | H : text_without_CR i |- _ => destruct H as (? & -> & ?)
  end.
  unfold stored_text. cbn [csv_text text_val].
  rewrite !universal_newlines_id by assumption. reflexivity.
Qed.




(** ** Appending a row *)

Lemma quote_field_plain (t : string) : plain t -> quote_field t = t.
Proof. unfold plain, quote_field. now intros ->. Qed.

Lemma row_line_plain (ts : list string) : Forall plain ts -> row_line ts = join "," ts.
Proof.
  intros H. unfold row_line. f_equal.
  induction H as [|t ts Ht _ IH]; [reflexivity|].
  cbn [map]. now rewrite (quote_field_plain t Ht), IH.
Qed.

Lemma plain_no_CR (t : string) : plain t -> has_char CR t = false.
Proof.
  unfold plain, needs_quote. intros H.
  destruct (has_char COMMA t), (has_char DQUOTE t), (has_char CR t);
    try discriminate H; reflexivity.
Qed.

Lemma feed_lf_rows_app (cs : list Contact) (tail : string) :
  feed parse_reset false (lf_rows cs +:+ tail)
  = (map (fun c => map stored_text (data_row c)) cs
       ++ fst (feed parse_reset false tail),
     snd (feed parse_reset false tail)).
Proof.
  induction cs as [|c cs IH].
  - cbn [lf_rows append map app]. now destruct (feed parse_reset false tail).
  - cbn [lf_rows]. rewrite append_assoc. cbn [append].
    rewrite feed_row_LF by (rewrite length_map, data_row_length; lia).
    rewrite IH. reflexivity.
Qed.

(** The text of a row that [add_one] writes for a plain contact, as the
    file gives it to the reader after the rows of [save_all] *)
Lemma csv_reader_appended (cs : list Contact) (c : Contact) :
  plain_contact c ->
  csv_reader (add_one c (save_all_text cs))
  = (csv_fields :: map (fun c => map stored_text (data_row c)) cs
       ++ [map py_str (data_row c)], false).
Proof.
  intros Hc. unfold plain_contact in Hc.
  assert (Hplain : Forall plain (map py_str (data_row c))).
  { apply Forall_map. exact Hc. }
  assert (Hlen : (2 <= List.length (map py_str (data_row c)))%nat).
  { rewrite length_map, data_row_length. lia. }
  unfold add_one. rewrite <- (row_line_plain _ Hplain).
  rewrite feed_read_rows.
  assert (Hstart : starts_with_LF (row_line (map py_str (data_row c))) = false).
  { destruct (map py_str (data_row c)) as [|f [|g r]]; try (simpl in Hlen; lia).
    destruct (row_line_starts f g r EmptyString) as (x & t & E & Hx).
    rewrite append_nil_r in E. rewrite E. cbn [starts_with_LF].
    unfold is_newline in Hx. now apply orb_false_iff in Hx as [Hx _]. }
  rewrite universal_newlines_app by exact Hstart.
  rewrite universal_newlines_saved.
  rewrite <- (append_nil_r (row_line (map py_str (data_row c)))) at 1.
  rewrite universal_newlines_row_line by reflexivity.
  rewrite append_nil_r.
  assert (Hid : map universal_newlines (map py_str (data_row c)) = map py_str (data_row c)).
  { clear Hlen Hstart. induction Hplain as [|t ts Ht _ IH]; [reflexivity|].
    cbn [map]. now rewrite (universal_newlines_id t (plain_no_CR t Ht)), IH. }
  rewrite Hid, append_assoc. cbn [append].
  rewrite feed_row_LF by (vm_compute; lia).
  rewrite feed_lf_rows_app, feed_row_end by exact Hlen.
  reflexivity.
Qed.




(** ** The searches on contacts whose fields are texts *)

Lemma contact_in_In (c : Contact) (found : list Contact) :
  contact_in c found = true <-> In c found.
Proof.
  unfold contact_in. rewrite existsb_exists. split.
  - intros (x & Hx & E). apply Contact_eqb_eq in E. now subst.
  - intros H. exists c. split; [exact H | apply Contact_eqb_refl].
Qed.

Lemma contact_in_snoc (c : Contact) (found : list Contact) :
  contact_in c (found ++ [c]) = true.
Proof. apply contact_in_In, in_or_app. right. now left. Qed.

(** The loop over the values of one contact adds it once, when a value
    contains the query and the contact was not found before. *)
Lemma scan_values_text (search : string) (c : Contact) :
  forall (values : list PyVal) (found : list Contact),
    Forall is_text values ->
    scan_values search c values found
    = Returns (if existsb (fun v => match v with
                                    | VStr s => contains search (lower s)
                                    | _ => false
                                    end) values
                  && negb (contact_in c found)
               then found ++ [c] else found).
Proof.
  induction values as [|v vs IH]; intros found Hall.
  - reflexivity.
  - inversion Hall as [|? ? [s ->] Hvs]; subst.
    cbn [scan_values lower_of existsb]. rewrite IH by exact Hvs.
    destruct (contains search (lower s)); cbn [orb andb].
    + destruct (contact_in c found) eqn:Hin; cbn [negb].
      * rewrite Hin. cbn [negb]. now rewrite andb_false_r.
      * rewrite contact_in_snoc. cbn [negb]. now rewrite andb_false_r.
    + reflexivity.
Qed.

Lemma scan_contacts_text (search : string) :
  forall (contacts found : list Contact),
    Forall (fun c => Forall is_text (data_row c)) contacts ->
    NoDup found ->
    exists found',
      scan_contacts search contacts found = Returns found'
      /\ NoDup found'
      /\ forall x, In x found' <->
                   In x found \/
                   (In x contacts /\
                    existsb (fun v => match v with
                                      | VStr s => contains search (lower s)
                                      | _ => false
                                      end) (data_row x) = true).
Proof.
  induction contacts as [|c cs IH]; intros found Hall Hnd.
  - exists found. split; [reflexivity|]. split; [exact Hnd|].
    intros x. cbn [In]. tauto.
  - inversion Hall as [|? ? Hc Hcs]; subst.
    cbn [scan_contacts]. rewrite scan_values_text by exact Hc.
    set (hit := existsb _ (data_row c)).
    destruct (hit && negb (contact_in c found)) eqn:Hadd.
    + apply andb_true_iff in Hadd as [Hhit Hnew].
      assert (Hnotin : ~ In c found).
      { intros H. apply contact_in_In in H. rewrite H in Hnew. discriminate. }
      destruct (IH (found ++ [c]) Hcs) as (found' & Hrun & Hnd' & Hin').
      { apply NoDup_app; [exact Hnd | repeat constructor; intros [] |].
        intros x Hx [<- | []]. contradiction. }
      exists found'. split; [exact Hrun|]. split; [exact Hnd'|].
      intros x. rewrite Hin', in_app_iff. cbn [In]. split.
      * intros [[H | [<- | []]] | [H1 H2]]; auto.
      * intros [H | [[<- | H1] H2]]; auto.
    + destruct (IH found Hcs Hnd) as (found' & Hrun & Hnd' & Hin').
      exists found'. split; [exact Hrun|]. split; [exact Hnd'|].
      intros x. rewrite Hin'. cbn [In]. split.
      * intros [H | [H1 H2]]; auto.
      * intros [H | [[<- | H1] H2]]; auto.
        apply andb_false_iff in Hadd as [Hhit | Hold].
        -- fold hit in H2. rewrite H2 in Hhit. discriminate.
        -- left. apply contact_in_In. now destruct (contact_in c found).
Qed.



(** The loop over the conditions adds the contact once, at the last
    condition, when every condition held and the contact was not found
    before. *)
Lemma match_conditions_text (c : Contact) (total : Z) :
  forall (conditions : list SearchCondition) (matched : Z) (found : list Contact),
    searchable c conditions ->
    matched + len conditions <= total ->
    match_conditions c conditions total matched found
    = Returns (if negb (len conditions =? 0)
                  && (matched + len conditions =? total)
                  && forallb (condition_holds c) conditions
                  && negb (contact_in c found)
               then found ++ [c] else found).
Proof.
  induction conditions as [|s rest IH]; intros matched found Hs Hle.
  - reflexivity.
  - inversion Hs as [|? ? [v Hv] Hrest]; subst.
    cbn [match_conditions forallb]. rewrite Hv. cbn [lower_of].
    unfold condition_holds at 1. rewrite Hv. cbn [ci_contains].
    assert (Hlen : len (s :: rest) = len rest + 1).
    { unfold len. cbn [List.length]. lia. }
    assert (Hpos : 0 <= len rest) by (unfold len; lia).
    rewrite Hlen in *.
    replace (len rest + 1 =? 0) with false by (symmetry; apply Z.eqb_neq; lia).
    cbn [negb andb].
    destruct (contains (lower (text s)) (lower v)) eqn:Hhit; cbn [andb].
    + rewrite IH by (try exact Hrest; lia).
      replace (matched + 1 + len rest =? total) with (matched + (len rest + 1) =? total)
        by (f_equal; lia).
      destruct (Z.eqb_spec (len rest) 0) as [E0 | N0]; cbn [negb andb].
      * rewrite E0. replace (matched + (0 + 1)) with (matched + 1) by lia.
        assert (Hnil : rest = []).
        { destruct rest; [reflexivity | unfold len in E0; cbn in E0; lia]. }
        subst rest. cbn [forallb]. rewrite andb_true_r.
        reflexivity.
      * replace (matched + 1 =? total) with false by (symmetry; apply Z.eqb_neq; lia).
        cbn [andb]. reflexivity.
    + rewrite IH by (try exact Hrest; lia).
      replace (matched =? total) with false by (symmetry; apply Z.eqb_neq; lia).
      cbn [andb].
      replace (matched + len rest =? total) with false by (symmetry; apply Z.eqb_neq; lia).
      rewrite andb_false_r. cbn [andb].
      now rewrite andb_false_r.
Qed.

Lemma match_contacts_text (conditions : list SearchCondition) :
  conditions <> [] ->
  forall (contacts found : list Contact),
    Forall (fun c => searchable c conditions) contacts ->
    NoDup found ->
    exists found',
      match_contacts contacts conditions found = Returns found'
      /\ NoDup found'
      /\ forall x, In x found' <->
                   In x found \/
                   (In x contacts /\ forallb (condition_holds x) conditions = true).
Proof.
  intros Hne.
  assert (Hlen : negb (len conditions =? 0) = true).
  { destruct conditions; [contradiction | reflexivity]. }
  induction contacts as [|c cs IH]; intros found Hall Hnd.
  - exists found. split; [reflexivity|]. split; [exact Hnd|].
    intros x. cbn [In]. tauto.
  - inversion Hall as [|? ? Hc Hcs]; subst.
    cbn [match_contacts]. rewrite match_conditions_text by (try exact Hc; lia).
    rewrite Hlen. replace (0 + len conditions =? len conditions) with true
      by (symmetry; apply Z.eqb_eq; lia).
    cbn [andb].
    destruct (forallb (condition_holds c) conditions && negb (contact_in c found)) eqn:Hadd.
    + apply andb_true_iff in Hadd as [Hhit Hnew].
      assert (Hnotin : ~ In c found).
      { intros H. apply contact_in_In in H. rewrite H in Hnew. discriminate. }
      destruct (IH (found ++ [c]) Hcs) as (found' & Hrun & Hnd' & Hin').
      { apply NoDup_app; [exact Hnd | repeat constructor; intros [] |].
        intros x Hx [<- | []]. contradiction. }
      exists found'. split; [exact Hrun|]. split; [exact Hnd'|].
      intros x. rewrite Hin', in_app_iff. cbn [In]. split.
      * intros [[H | [<- | []]] | [H1 H2]]; auto.
      * intros [H | [[<- | H1] H2]]; auto.
    + destruct (IH found Hcs Hnd) as (found' & Hrun & Hnd' & Hin').
      exists found'. split; [exact Hrun|]. split; [exact Hnd'|].
      intros x. rewrite Hin'. cbn [In]. split.
      * intros [H | [H1 H2]]; auto.
      * intros [H | [[<- | H1] H2]]; auto.
        apply andb_false_iff in Hadd as [Hhit | Hold].
        -- rewrite H2 in Hhit. discriminate.
        -- left. apply contact_in_In. now destruct (contact_in c found).
Qed.



(** ** The other answers of the delete flow *)

(** X3.  In the delete flow an empty line at the index prompt cancels,
    a refusal (n, н, нет, no, in any case) returns with the catalogue and
    the file unchanged, and an answer that is neither a refusal nor a
    confirmation is asked again: the flow goes on as if it had not been
    typed. *)
Theorem delete_refused_changes_nothing :
  forall (pb : Phonebook) (line answer : string) (rest : list string) (k : Z),
    consistent pb ->
    py_int line = Some k ->
    1 <= k <= len (_contacts pb) ->
    _delete_contact (EmptyString :: rest) pb = Done tt rest pb
    /\ (str_in (lower answer) ["n"; "н"; "нет"; "no"] = true ->
        _delete_contact (line :: answer :: rest) pb = Done tt rest pb)
    /\ (str_in (lower answer) ["n"; "н"; "нет"; "no"] = false ->
        str_in (lower answer) ["y"; "д"; "да"; "yes"] = false ->
        _delete_contact (line :: answer :: rest) pb = _delete_contact (line :: rest) pb).
Proof.
  intros pb line answer rest k Hcons Hk Hr.
  assert (Hsome : exists c, nth_error (_contacts pb) (Z.to_nat (k - 1)) = Some c).
  { destruct (nth_error (_contacts pb) (Z.to_nat (k - 1))) as [c|] eqn:E; [now exists c|].
    apply nth_error_None in E. unfold len in Hr. lia. }
  destruct Hsome as (c & Hc).
  assert (Hflow : forall inp,
             _delete_contact (line :: inp) pb
             = confirm_delete (InList (Z.to_nat (k - 1))) inp pb).
  { intros inp. unfold _delete_contact.
    erewrite bind_Done; [| apply (get_contact_by_index_run pb line k); assumption].
    unfold bind at 1. cbn [get deref]. rewrite Hc.
    erewrite bind_Done; [| apply print_contacts_single]. reflexivity. }
  split; [reflexivity|]. split.
  - intros Hno. rewrite Hflow. now apply confirm_delete_no.
  - intros Hno Hyes. rewrite !Hflow. now apply confirm_delete_other.
Qed.

(** An instance: the deletion of the second contact refused with НЕТ *)
Lemma delete_refused_changes_nothing_witness :
  let pb := book_of [ivanov (VStr "1"); petrov (VInt 2)] in
  consistent pb
  /\ py_int "2" = Some 2
  /\ 1 <= 2 <= len (_contacts pb)
  /\ str_in (lower "НЕТ") ["n"; "н"; "нет"; "no"] = true
  /\ _delete_contact ["2"; "НЕТ"; "p"] pb = Done tt ["p"] pb.
Proof.
  intros pb.
  assert (Hr : 1 <= 2 <= len (_contacts pb)) by (cbn; lia).
  split; [reflexivity|]. split; [reflexivity|]. split; [exact Hr|]. split; [reflexivity|].
  exact (proj1 (proj2 (delete_refused_changes_nothing pb "2" "НЕТ" ["p"] 2
                         eq_refl eq_refl Hr))
           eq_refl).
Defined.

(** ** Start-up *)



(** ** What the field-number prompt accepts *)

Lemma filter_tokens_kept (answer : list string) :
  filter_tokens answer = Returns (map (int_digits 0) (filter kept_token answer)).
Proof.
  induction answer as [|x rest IH]; [reflexivity|].
  cbn [filter_tokens filter]. unfold kept_token at 1, py_int.
  destruct (isnumeric x); cbn [andb]; rewrite IH; [|reflexivity].
  destruct (in_py_range 0 (max_key field_map) (VInt (int_digits 0 x))); reflexivity.
Qed.

Lemma filter_all_length {A : Type} (f : A -> bool) (l : list A) :
  List.length (filter f l) = List.length l <-> forallb f l = true.
Proof.
  induction l as [|x l IH]; cbn [filter forallb List.length]; [tauto|].
  pose proof (filter_length_le f l) as Hle.
  destruct (f x); cbn [andb List.length].
  - rewrite <- IH. split; intros H; lia.
  - split; [intros H; lia | discriminate].
Qed.


(** ** The search menu *)

(** Both items of the search menu lead to the selected-fields search: the
    answer comes back from get_answer as the number 1 or 2, and the test
    compares it with the string of the digit 1. *)
Theorem find_menu_always_selects_given_fields :
  forall (rest : list string) (pb : Phonebook),
    _print_find_menu ("1" :: rest) pb = _find_contacts_by_given_fields rest pb
    /\ _print_find_menu ("2" :: rest) pb = _find_contacts_by_given_fields rest pb
    /\ _print_find_menu (EmptyString :: rest) pb = Done tt rest pb.
Proof. intros rest pb. repeat split; reflexivity. Qed.

(* ================================================================== *)
(** * Further properties *)
(* ================================================================== *)

(** ** Filling a contact in *)

Lemma update_nth_ext {A : Type} (f g : A -> A) (n : nat) (l : list A) :
  (forall x, f x = g x) -> update_nth n f l = update_nth n g l.
Proof.
  intros H. revert n; induction l as [|x l IH]; intros [|n]; simpl; try reflexivity.
  - now rewrite H.
  - now rewrite IH.
Qed.

Lemma update_nth_id {A : Type} (n : nat) (l : list A) :
  update_nth n (fun x => x) l = l.
Proof.
  revert n; induction l as [|x l IH]; intros [|n]; simpl; try reflexivity.
  now rewrite IH.
Qed.

Lemma update_nth_length {A : Type} (f : A -> A) (n : nat) (l : list A) :
  List.length (update_nth n f l) = List.length l.
Proof.
  revert n; induction l as [|x l IH]; intros [|n]; simpl; try reflexivity.
  now rewrite IH.
Qed.

Lemma set_contacts_same (pb : Phonebook) : set_contacts (_contacts pb) pb = pb.
Proof. now destruct pb. Qed.

(** One prompt of [_input_contact_data] on a contact of the list *)
Lemma input_fields_step (pos : nat) (k : Z) (f : Field) (fs : list (Z * Field))
      (data : string) (rest : list string) (pb : Phonebook) :
  String.eqb (title_en f) "index" = false ->
  input_fields (InList pos) ((k, f) :: fs) (data :: rest) pb
  = input_fields (InList pos) fs rest
      (set_contacts
         (update_nth pos
            (fun c => if String.eqb data EmptyString then c
                      else setattr c (title_en f)
                             (if String.eqb data "---" then EmptyString else data))
            (_contacts pb)) pb).
Proof.
  intros Hf. cbn [input_fields]. rewrite Hf. unfold bind at 1. cbn [input].
  destruct (String.eqb data EmptyString); cbn [negb].
  - unfold bind, ret. now rewrite update_nth_id, set_contacts_same.
  - unfold bind at 1. cbn [setattr_ref]. unfold bind, update, ret. reflexivity.
Qed.

Lemma filled_steps (c : Contact) (l n m o w p : string) :
  (fun c5 => if String.eqb p EmptyString then c5
             else setattr c5 "private_phone" (if String.eqb p "---" then EmptyString else p))
    ((fun c4 => if String.eqb w EmptyString then c4
                else setattr c4 "work_phone" (if String.eqb w "---" then EmptyString else w))
       ((fun c3 => if String.eqb o EmptyString then c3
                   else setattr c3 "organization" (if String.eqb o "---" then EmptyString else o))
          ((fun c2 => if String.eqb m EmptyString then c2
                      else setattr c2 "middle_name" (if String.eqb m "---" then EmptyString else m))
             ((fun c1 => if String.eqb n EmptyString then c1
                         else setattr c1 "name" (if String.eqb n "---" then EmptyString else n))
                ((fun c0 => if String.eqb l EmptyString then c0
                            else setattr c0 "last_name" (if String.eqb l "---" then EmptyString else l))
                   c)))))
  = filled c [l; n; m; o; w; p].
Proof.
  destruct c. unfold filled, typed. cbv beta.
  destruct (String.eqb l EmptyString), (String.eqb n EmptyString),
    (String.eqb m EmptyString), (String.eqb o EmptyString),
    (String.eqb w EmptyString), (String.eqb p EmptyString); reflexivity.
Qed.

Lemma input_fields_skip_index (r : Ref) (k : Z) (f : Field) (fs : list (Z * Field)) :
  String.eqb (title_en f) "index" = true ->
  input_fields r ((k, f) :: fs) = input_fields r fs.
Proof. intros H. cbn [input_fields]. now rewrite H. Qed.

(** The six prompts on a contact of the list leave it [filled]; nothing
    else changes. *)
Lemma input_fields_fills (pos : nat) (l n m o w p : string) (rest : list string)
      (pb : Phonebook) :
  input_fields (InList pos) field_map ([l; n; m; o; w; p] ++ rest) pb
  = Done (InList pos) rest
      (set_contacts (update_nth pos (fun c => filled c [l; n; m; o; w; p]) (_contacts pb)) pb).
Proof.
  unfold field_map. cbn [app].
  rewrite input_fields_skip_index by reflexivity.
  do 6 (rewrite input_fields_step by reflexivity).
  cbn [input_fields title_en _contacts set_contacts]. unfold ret.
  rewrite !update_nth_twice.
  f_equal. destruct pb as [s fmt cs li]. unfold set_contacts. cbn [_storage _formatter _contacts _last_index]. f_equal.
  apply update_nth_ext. intros c. apply filled_steps.
Qed.

Lemma add_contact_run (pb : Phonebook) (l n m o w p : string) (rest : list string) :
  _add_contact ([l; n; m; o; w; p] ++ rest) pb
  = Done tt rest
      (mkPhonebook
         (add_one (filled (new_contact (VInt (_last_index pb + 1))) [l; n; m; o; w; p])
                  (_storage pb))
         (_formatter pb)
         (_contacts pb ++ [filled (new_contact (VInt (_last_index pb + 1))) [l; n; m; o; w; p]])
         (_last_index pb + 1)).
Proof.
  unfold _add_contact. unfold bind at 1. cbn [get].
  unfold bind at 1. unfold _input_contact_data. unfold bind at 1. cbn [get].
  unfold bind at 1. unfold bind at 1. cbn [put ret].
  rewrite input_fields_fills. cbn [_contacts set_contacts].
  rewrite update_nth_last.
  unfold bind at 1. cbn [update]. unfold bind at 1. cbn [get].
  cbn [deref _contacts set_contacts set_last_index].
  rewrite nth_error_last.
  unfold update, storage_add_one, set_storage, set_last_index, set_contacts.
  cbn [_storage _formatter _contacts _last_index]. reflexivity.
Qed.

(** X7.  The add operation, given the six lines it asks for, builds the
    contact numbered one more than the counter, whose every attribute is
    the line typed for it (three dashes standing for the empty text),
    appends it after the contacts already there, raises the counter by
    one and appends its row to the file; the contacts that were there are
    not touched. *)
Theorem add_contact_stores_typed_lines :
  forall (pb : Phonebook) (l n m o w p : string) (rest : list string),
    let shown := fun data : string =>
                   Some (if String.eqb data "---" then EmptyString else data) in
    let contact := mkContact (VInt (_last_index pb + 1))
                             (shown l) (shown n) (shown m) (shown o) (shown w) (shown p) in
    _add_contact ([l; n; m; o; w; p] ++ rest) pb
    = Done tt rest
        (mkPhonebook (add_one contact (_storage pb)) (_formatter pb)
                     (_contacts pb ++ [contact]) (_last_index pb + 1)).
Proof.
  intros pb l n m o w p rest shown contact. rewrite add_contact_run.
  assert (E : filled (new_contact (VInt (_last_index pb + 1))) [l; n; m; o; w; p] = contact).
  { subst contact shown. unfold filled, new_contact, typed.
    cbn [index last_name name middle_name organization work_phone private_phone].
    f_equal;
      match goal with
      | |- (if String.eqb ?d EmptyString then _ else _) = _ =>
          destruct (String.eqb_spec d EmptyString) as [-> | _]; reflexivity
      end. }
  now rewrite E.
Qed.

(** ** Properties kept by the operations *)

Lemma preserves_bind {A B : Type} (P : Phonebook -> Prop) (m : M A) (k : A -> M B) :
  preserves P m -> (forall a, preserves P (k a)) -> preserves P (bind m k).
Proof.
  intros Hm Hk inp pb HP. unfold bind.
  specialize (Hm inp pb HP).
  destruct (m inp pb) as [a rest pb' | e pb']; cbn [final_state] in *.
  - now apply Hk.
  - exact Hm.
Qed.

Lemma preserves_readonly {A : Type} (P : Phonebook -> Prop) (m : M A) :
  readonly m -> preserves P m.
Proof. intros H inp pb HP. now rewrite H. Qed.

Lemma preserves_update (P : Phonebook -> Prop) (f : Phonebook -> Phonebook) :
  (forall pb, P pb -> P (f pb)) -> preserves P (update f).
Proof. intros H inp pb HP. now apply H. Qed.

Lemma preserves_attempt (P : Phonebook -> Prop) (f : Phonebook -> Phonebook * option Exn) :
  (forall pb, P pb -> P (fst (f pb))) -> preserves P (attempt f).
Proof.
  intros H inp pb HP. unfold attempt.
  destruct (snd (f pb)); cbn [final_state]; now apply H.
Qed.

Lemma consistent_update_nth (f : Contact -> Contact) (pos : nat) (pb : Phonebook) :
  consistent pb -> consistent (set_contacts (update_nth pos f (_contacts pb)) pb).
Proof.
  unfold consistent, len. cbn [_contacts _last_index set_contacts].
  now rewrite update_nth_length.
Qed.

Lemma preserves_setattr_ref (r : Ref) (attr data : string) :
  preserves consistent (setattr_ref r attr data).
Proof.
  destruct r as [pos | c]; cbn [setattr_ref].
  - apply preserves_bind; [|intros; apply preserves_readonly, readonly_ret].
    apply preserves_update. intros pb. apply consistent_update_nth.
  - apply preserves_readonly, readonly_ret.
Qed.

Lemma preserves_input_fields (fields : list (Z * Field)) :
  forall r, preserves consistent (input_fields r fields).
Proof.
  induction fields as [|[k f] fs IH]; intros r; cbn [input_fields].
  - apply preserves_readonly, readonly_ret.
  - destruct (String.eqb (title_en f) "index"); [apply IH|].
    apply preserves_bind; [apply preserves_readonly, readonly_input | intros data].
    apply preserves_bind; [| intros r'; apply IH].
    destruct (negb _); [apply preserves_setattr_ref | apply preserves_readonly, readonly_ret].
Qed.

Lemma preserves_input_edit (r : Ref) :
  preserves consistent (_input_contact_data r edit).
Proof.
  unfold _input_contact_data.
  apply preserves_bind; [apply preserves_readonly, readonly_get | intros pb].
  apply preserves_bind; [| intros r'; apply preserves_input_fields].
  apply preserves_readonly, readonly_ret.
Qed.

Lemma consistent_set_storage (content : string) (pb : Phonebook) :
  consistent pb -> consistent (set_storage content pb).
Proof. now unfold consistent. Qed.

Lemma readonly_get_contact_by_index : readonly _get_contact_by_index.
Proof.
  unfold _get_contact_by_index.
  apply readonly_bind; [apply readonly_get | intros pb].
  apply readonly_bind; [apply readonly_get_answer | intros idx].
  destruct idx as [v|]; [|apply readonly_ret].
  destruct (negb (truthy v)); [apply readonly_ret|].
  apply readonly_bind; [apply readonly_lift | intros n].
  destruct (subscript _ _); [apply readonly_ret | apply readonly_raise].
Qed.

Lemma preserves_change_contact : preserves consistent _change_contact.
Proof.
  unfold _change_contact.
  apply preserves_bind; [apply preserves_readonly, readonly_get_contact_by_index | intros found].
  destruct found as [contact|]; [|apply preserves_readonly, readonly_ret].
  apply preserves_bind; [apply preserves_readonly, readonly_get | intros pb].
  destruct (deref contact (_contacts pb)); [|apply preserves_readonly, readonly_raise].
  apply preserves_bind; [apply preserves_readonly, readonly_print_contacts | intros _].
  apply preserves_bind; [apply preserves_input_edit | intros _].
  apply preserves_attempt. intros pb0. apply consistent_set_storage.
Qed.

Lemma consistent_after_removal (cs : list Contact) (pb : Phonebook) :
  consistent (fst (storage_save_all (_update_indexes (set_contacts cs pb)))).
Proof. reflexivity. Qed.

Lemma preserves_confirm_delete (r : Ref) : preserves consistent (confirm_delete r).
Proof.
  intros inp. revert r. induction inp as [|line rest IH]; intros r pb HP.
  - exact HP.
  - cbn [confirm_delete].
    destruct (str_in (lower line) ["n"; "н"; "нет"; "no"]); [exact HP|].
    destruct (str_in (lower line) ["y"; "д"; "да"; "yes"]).
    + destruct (list_remove r (_contacts pb)) as [[r' cs]|e]; [|exact HP].
      destruct (snd (storage_save_all (_update_indexes (set_contacts cs pb)))).
      * apply consistent_after_removal.
      * destruct (negb _); [apply IH|]; apply consistent_after_removal.
    + destruct (negb _); [now apply IH | exact HP].
Qed.

Lemma preserves_delete_contact : preserves consistent _delete_contact.
Proof.
  unfold _delete_contact.
  apply preserves_bind; [apply preserves_readonly, readonly_get_contact_by_index | intros found].
  destruct found as [contact|]; [|apply preserves_readonly, readonly_ret].
  apply preserves_bind; [apply preserves_readonly, readonly_get | intros pb].
  destruct (deref contact (_contacts pb)); [|apply preserves_readonly, readonly_raise].
  apply preserves_bind; [apply preserves_readonly, readonly_print_contacts | intros _].
  apply preserves_confirm_delete.
Qed.

Lemma input_fields_short :
  forall (fields : list (Z * Field)) (r : Ref) (inp : list string) (pb : Phonebook),
    (List.length inp < prompts fields)%nat ->
    exists pb', input_fields r fields inp pb = Raised EOFError pb'.
Proof.
  induction fields as [|[k f] fs IH]; intros r inp pb Hlen.
  - unfold prompts in Hlen. cbn in Hlen. lia.
  - unfold prompts in Hlen. cbn [filter snd] in Hlen. cbn [input_fields].
    destruct (String.eqb (title_en f) "index"); cbn [negb] in Hlen.
    + apply IH. exact Hlen.
    + destruct inp as [|data inp]; [eexists; reflexivity|].
      cbn [List.length] in Hlen.
      unfold bind at 1. cbn [input].
      destruct (negb (String.eqb data EmptyString)).
      * unfold bind at 1. destruct r as [pos | c]; cbn [setattr_ref].
        -- unfold bind at 1. cbn [update]. unfold ret. apply IH. unfold prompts. lia.
        -- unfold ret. apply IH. unfold prompts. lia.
      * unfold bind at 1, ret. apply IH. unfold prompts. lia.
Qed.

Lemma add_contact_needs_six_lines (pb : Phonebook) (inp : list string) :
  (List.length inp < 6)%nat ->
  exists pb', _add_contact inp pb = Raised EOFError pb'.
Proof.
  intros Hlen. unfold _add_contact. unfold bind at 1. cbn [get].
  unfold bind at 1. unfold _input_contact_data. unfold bind at 1. cbn [get].
  unfold bind at 1. unfold bind at 1. cbn [put ret].
  destruct (input_fields_short field_map
              (InList (List.length (_contacts pb))) inp
              (set_contacts (_contacts pb ++ [new_contact (VInt (_last_index pb + 1))]) pb))
    as (pb' & ->); [exact Hlen|].
  now exists pb'.
Qed.

(** X8.  The counter of contacts agrees with the list after every
    operation of the menu, if it did before: after an add that returns,
    and after an edit, a delete, a search or a change of format however
    they end. *)
Theorem operations_keep_counter :
  forall (pb : Phonebook) (inp : list string),
    consistent pb ->
    (forall rest pb', _add_contact inp pb = Done tt rest pb' -> consistent pb')
    /\ consistent (final_state (_change_contact inp pb))
    /\ consistent (final_state (_delete_contact inp pb))
    /\ consistent (final_state (_print_find_menu inp pb))
    /\ consistent (final_state (_change_formatter inp pb)).
Proof.
  intros pb inp HP. split; [|split; [|split; [|split]]].
  - intros rest pb' Hrun.
    destruct (Nat.lt_ge_cases (List.length inp) 6) as [Hshort | Hlong].
    + destruct (add_contact_needs_six_lines pb inp Hshort) as (pb0 & E).
      rewrite E in Hrun. discriminate.
    + destruct inp as [|l [|n [|m [|o [|w [|p tail]]]]]]; try (cbn in Hlong; lia).
      change (l :: n :: m :: o :: w :: p :: tail) with ([l; n; m; o; w; p] ++ tail) in Hrun.
      rewrite add_contact_run in Hrun. injection Hrun as _ <-.
      unfold consistent in *. cbn [_contacts _last_index].
      rewrite len_app_one. now rewrite HP.
  - now apply preserves_change_contact.
  - now apply preserves_delete_contact.
  - assert (R : readonly _print_find_menu).
    { unfold _print_find_menu.
      apply readonly_bind; [apply readonly_get_answer | intros a].
      destruct a as [v|]; [|apply readonly_ret].
      destruct (negb (truthy v)); [apply readonly_ret|].
      destruct (PyVal_eqb v (VStr "1"));
        [apply readonly_find_by_all_fields | apply readonly_find_by_given_fields]. }
    now rewrite R.
  - destruct (_formatter pb) eqn:E; unfold _change_formatter, update; cbn [final_state];
      rewrite E; exact HP.
Qed.

(** An instance: the counter after an add over an empty catalogue *)
Lemma operations_keep_counter_witness :
  consistent empty_book
  /\ consistent (final_state (_delete_contact ["1"; "y"] (book_of [ivanov (VInt 1)]))).
Proof.
  split; [reflexivity|].
  exact (proj1 (proj2 (proj2 (operations_keep_counter (book_of [ivanov (VInt 1)])
                                 ["1"; "y"] eq_refl)))).
Defined.

(** ** Editing a contact *)

Lemma nth_error_update_nth {A : Type} (f : A -> A) (n i : nat) (l : list A) :
  nth_error (update_nth n f l) i
  = if Nat.eqb i n then option_map f (nth_error l i) else nth_error l i.
Proof.
  revert n i; induction l as [|x l IH]; intros [|n] [|i]; cbn; try reflexivity.
  - now destruct (Nat.eqb i n).
  - apply IH.
Qed.

Lemma update_nth_index (f : Contact -> Contact) (n : nat) (cs : list Contact) :
  (forall c, index (f c) = index c) ->
  map index (update_nth n f cs) = map index cs.
Proof.
  intros H. revert n; induction cs as [|c cs IH]; intros [|n]; cbn; try reflexivity.
  - now rewrite H.
  - now rewrite IH.
Qed.

Lemma filled_index (c : Contact) (lines : list string) : index (filled c lines) = index c.
Proof.
  unfold filled.
  destruct lines as [|l [|n [|m [|o [|w [|p [|x t]]]]]]]; reflexivity.
Qed.

Lemma change_contact_run (pb : Phonebook) (line l n m o w p : string)
      (rest : list string) (k : Z) :
  consistent pb ->
  py_int line = Some k ->
  1 <= k <= len (_contacts pb) ->
  _change_contact (line :: [l; n; m; o; w; p] ++ rest) pb
  = Done tt rest
      (mkPhonebook
         (save_all_text (update_nth (Z.to_nat (k - 1))
                                    (fun c => filled c [l; n; m; o; w; p]) (_contacts pb)))
         (_formatter pb)
         (update_nth (Z.to_nat (k - 1)) (fun c => filled c [l; n; m; o; w; p]) (_contacts pb))
         (_last_index pb)).
Proof.
  intros Hcons Hk Hr.
  assert (Hsome : exists c, nth_error (_contacts pb) (Z.to_nat (k - 1)) = Some c).
  { destruct (nth_error (_contacts pb) (Z.to_nat (k - 1))) as [c|] eqn:E; [now exists c|].
    apply nth_error_None in E. unfold len in Hr. lia. }
  destruct Hsome as (c & Hc).
  unfold _change_contact.
  erewrite bind_Done; [| apply (get_contact_by_index_run pb line k); assumption].
  unfold bind at 1. cbn [get deref]. rewrite Hc.
  erewrite bind_Done; [| apply print_contacts_single].
  erewrite bind_Done.
  2:{ unfold _input_contact_data. unfold bind at 1. cbn [get].
      unfold bind at 1. unfold ret at 1. apply input_fields_fills. }
  unfold attempt, storage_save_all. cbn [fst snd _contacts set_contacts].
  rewrite save_all_writes. cbn [fst snd]. reflexivity.
Qed.



(** ** Adding, then deleting what was added *)

Lemma delete_contact_run (pb : Phonebook) (line answer : string) (rest : list string)
      (k : Z) (target : Contact) :
  consistent pb ->
  dense_from 1 (_contacts pb) ->
  py_int line = Some k ->
  1 <= k ->
  nth_error (_contacts pb) (Z.to_nat (k - 1)) = Some target ->
  str_in (lower answer) ["y"; "д"] = true ->
  _delete_contact (line :: answer :: rest) pb
  = Done tt rest
      (mkPhonebook
         (save_all_text (renumber 1 (remove_nth (Z.to_nat (k - 1)) (_contacts pb))))
         (_formatter pb)
         (renumber 1 (remove_nth (Z.to_nat (k - 1)) (_contacts pb)))
         (len (renumber 1 (remove_nth (Z.to_nat (k - 1)) (_contacts pb))))).
Proof.
  intros Hcons Hd Hk Hk1 Hn Hyes.
  assert (Hlt : (Z.to_nat (k - 1) < List.length (_contacts pb))%nat).
  { apply nth_error_Some. rewrite Hn. discriminate. }
  assert (Hy : str_in (lower answer) ["y"; "д"; "да"; "yes"] = true).
  { cbn [str_in] in *. apply orb_true_iff in Hyes as [H | H].
    - now rewrite H.
    - apply orb_true_iff in H as [H | H]; [|discriminate].
      rewrite H. now rewrite orb_true_r. }
  unfold _delete_contact.
  erewrite bind_Done;
    [| apply (get_contact_by_index_run pb line k); [exact Hcons | exact Hk | unfold len; lia]].
  unfold bind at 1. cbn [get deref]. rewrite Hn.
  erewrite bind_Done; [| apply print_contacts_single].
  rewrite (confirm_delete_yes pb _ target answer rest Hd Hn Hy).
  rewrite Hyes, save_all_writes. reflexivity.
Qed.

Lemma dense_from_snoc (s : Z) (cs : list Contact) (c : Contact) :
  dense_from s cs -> index_number c = Some (s + len cs) -> dense_from s (cs ++ [c]).
Proof.
  revert s; induction cs as [|x cs IH]; intros s Hd Hc.
  - cbn. split; [|exact I]. rewrite Hc. f_equal. unfold len. cbn. lia.
  - destruct Hd as [Hx Hd]. cbn [app dense_from]. split; [exact Hx|].
    apply IH; [exact Hd|]. rewrite Hc. f_equal. unfold len. cbn [List.length]. lia.
Qed.

Lemma remove_nth_last {A : Type} (l : list A) (x : A) :
  remove_nth (List.length l) (l ++ [x]) = l.
Proof. induction l as [|y l IH]; cbn; [reflexivity | now rewrite IH]. Qed.



(** ** Adding twice *)

Lemma has_char_app (c : ascii) (a b : string) :
  has_char c (a +:+ b) = has_char c a || has_char c b.
Proof.
  induction a as [|x a IH]; [reflexivity|].
  cbn [append has_char]. rewrite IH. now rewrite orb_assoc.
Qed.

Lemma plain_app (a b : string) : plain a -> plain b -> plain (a +:+ b).
Proof.
  unfold plain, needs_quote. rewrite !has_char_app.
  destruct (has_char COMMA a), (has_char DQUOTE a), (has_char CR a), (has_char LF a);
    intros Ha; try discriminate Ha; cbn [orb]; intros Hb; exact Hb.
Qed.

(** The rows of a saved file followed by one more row of plain texts, not
    ended by a line terminator *)
Lemma csv_reader_saved_then_row (cs : list Contact) (row : list string) :
  Forall plain row ->
  (2 <= List.length row)%nat ->
  csv_reader (save_all_text cs +:+ join "," row)
  = (csv_fields :: map (fun c => map stored_text (data_row c)) cs ++ [row], false).
Proof.
  intros Hplain Hlen.
  rewrite <- (row_line_plain _ Hplain).
  rewrite feed_read_rows.
  assert (Hstart : starts_with_LF (row_line row) = false).
  { destruct row as [|f [|g r]]; try (simpl in Hlen; lia).
    destruct (row_line_starts f g r EmptyString) as (x & t & E & Hx).
    rewrite append_nil_r in E. rewrite E. cbn [starts_with_LF].
    unfold is_newline in Hx. now apply orb_false_iff in Hx as [Hx _]. }
  rewrite universal_newlines_app by exact Hstart.
  rewrite universal_newlines_saved.
  rewrite <- (append_nil_r (row_line row)) at 1.
  rewrite universal_newlines_row_line by reflexivity.
  rewrite append_nil_r.
  assert (Hid : map universal_newlines row = row).
  { clear Hlen Hstart. induction Hplain as [|t ts Ht _ IH]; [reflexivity|].
    cbn [map]. now rewrite (universal_newlines_id t (plain_no_CR t Ht)), IH. }
  rewrite Hid, append_assoc. cbn [append].
  rewrite feed_row_LF by (vm_compute; lia).
  rewrite feed_lf_rows_app, feed_row_end by exact Hlen.
  reflexivity.
Qed.

Lemma row_values_wide (a b c d e f g : string) (extra : list string) :
  row_values csv_fields (row_dict csv_fields (a :: b :: c :: d :: e :: f :: g :: extra))
  = Returns [Some a; Some b; Some c; Some d; Some e; Some f; Some g].
Proof.
  unfold row_dict.
  replace (skipn (List.length (a :: b :: c :: d :: e :: f :: g :: extra)) csv_fields)
    with (@nil string).
  - reflexivity.
  - symmetry. apply skipn_all2. cbn. lia.
Qed.

Lemma read_all_wide_rows (rows : list (list string)) (contacts : list Contact) :
  Forall2 wide_row_of_contact rows contacts ->
  match read_data (map (row_dict csv_fields)
                       (filter (fun r => negb (is_blank_row r)) rows)) false with
  | Raises e => Raises e
  | Returns data => map_result Contact_of_values data
  end = Returns contacts.
Proof.
  induction 1 as [|row k rows ks Hrow _ IH]; [reflexivity|].
  destruct Hrow as (a & b & d & e & f & g & h & extra & -> & ->).
  cbn [filter is_blank_row negb map read_data].
  rewrite row_values_wide.
  destruct (read_data _ false) as [data|err]; [|discriminate IH].
  cbn [map_result Contact_of_values]. rewrite IH. reflexivity.
Qed.

Lemma stored_rows_wide (cs : list Contact) :
  Forall2 wide_row_of_contact (map (fun c => map stored_text (data_row c)) cs)
          (map reloaded cs).
Proof.
  induction cs as [|c cs IH]; [constructor|].
  cbn [map]. constructor; [|exact IH]. destruct c. repeat eexists.
Qed.



(** ** Answers to a prompt *)


(* ================================================================== *)
(** * Properties of the console *)
(* ================================================================== *)

(** ** Steps that only print *)

Lemma bind_prints {B : Type} (m : Console.IO unit) (k : unit -> Console.IO B)
                  (inp : list string) :
  prints m ->
  Console.bind m k inp
  = Console.mkRun (printed m +:+ Console.written (k tt inp)) (Console.ended (k tt inp)).
Proof. intros Hm. unfold Console.bind. rewrite (Hm inp). reflexivity. Qed.

Lemma ended_bind {A B : Type} (m : Console.IO A) (k : A -> Console.IO B)
                 (inp : list string) :
  Console.ended (Console.bind m k inp)
  = match Console.ended (m inp) with
    | Returns (a, rest) => Console.ended (k a rest)
    | Raises e => Raises e
    end.
Proof.
  unfold Console.bind. destruct (Console.ended (m inp)) as [[a rest]|e]; reflexivity.
Qed.

Lemma printed_bind (m : Console.IO unit) (k : unit -> Console.IO unit) :
  prints m -> printed (Console.bind m k) = printed m +:+ printed (k tt).
Proof. intros Hm. unfold printed at 1. now rewrite bind_prints. Qed.

Lemma prints_bind (m : Console.IO unit) (k : unit -> Console.IO unit) :
  prints m -> prints (k tt) -> prints (Console.bind m k).
Proof.
  intros Hm Hk inp. rewrite printed_bind by exact Hm.
  rewrite bind_prints by exact Hm. now rewrite (Hk inp).
Qed.

Lemma prints_ret : prints (Console.ret tt).
Proof. intros inp. reflexivity. Qed.

Lemma prints_write (text : string) : prints (Console.write text).
Proof. intros inp. reflexivity. Qed.

Lemma prints_print (text : string) : prints (Console.print text).
Proof. intros inp. reflexivity. Qed.

Lemma prints_for_each {A : Type} (body : A -> Console.IO unit) (l : list A) :
  (forall x, prints (body x)) -> prints (for_each l body).
Proof.
  intros Hb. induction l as [|x l IH]; cbn [for_each].
  - apply prints_ret.
  - apply prints_bind; [apply Hb | exact IH].
Qed.

Lemma prints_labelled (label : string) (value : Text) (card_width : Z) :
  prints (VisitCard.labelled label value card_width).
Proof.
  unfold VisitCard.labelled.
  destruct (truthy (text_val value)); [apply prints_print | apply prints_ret].
Qed.

Lemma prints_card (contact : Contact) (contact_count card_width : Z) :
  prints (VisitCard._print_card contact contact_count card_width).
Proof.
  unfold VisitCard._print_card.
  repeat (apply prints_bind; [first [apply prints_print | apply prints_labelled]|]).
  apply prints_print.
Qed.

Lemma prints_data_row (data : list PyVal) (column_len_array : list Z) :
  prints (Table._print_table_data_row data column_len_array).
Proof.
  unfold Table._print_table_data_row.
  apply prints_bind; [|apply prints_print].
  apply prints_for_each. intros x. apply prints_write.
Qed.

Lemma prints_divider (column_len_array : list Z) :
  prints (Table._print_table_divider column_len_array).
Proof.
  unfold Table._print_table_divider.
  apply prints_bind; [|apply prints_print].
  apply prints_for_each. intros x. apply prints_write.
Qed.

(** ** Without pages *)

Lemma prints_cards_unpaginated (contact_count : Z) (contacts : list Contact) :
  prints (VisitCard.cards contacts contact_count false).
Proof.
  induction contacts as [|c cs IH]; cbn [VisitCard.cards].
  - apply prints_ret.
  - apply prints_bind; [apply prints_card | exact IH].
Qed.

Lemma prints_rows_unpaginated (contact_count page_size : Z) (cols : list Z)
                              (contact_list : list (list PyVal)) :
  prints (Table.rows contact_list contact_count page_size false cols).
Proof.
  induction contact_list as [|row more IH]; cbn [Table.rows].
  - apply prints_ret.
  - apply prints_bind; [apply prints_data_row | exact IH].
Qed.

(** The table once the page size is known *)
Lemma prints_table_unpaginated (contacts : list Contact) (page_size : Z) :
  let cols := Table.max_column_len contacts in
  prints (Console.bind (Table._print_table_divider cols) (fun _ =>
          Console.bind (Table._print_table_data_row (map VStr csv_fields) cols) (fun _ =>
          Console.bind (Table._print_table_divider cols) (fun _ =>
          Console.bind (Table.rows (map data_row contacts) (len contacts) page_size false cols)
                       (fun _ => Table._print_table_divider cols))))).
Proof.
  intros cols.
  apply prints_bind; [apply prints_divider|].
  apply prints_bind; [apply prints_data_row|].
  apply prints_bind; [apply prints_divider|].
  apply prints_bind; [apply prints_rows_unpaginated | apply prints_divider].
Qed.

(** ** [get_answer] at the console *)

Lemma answer_loop_ended (correct : PyVal -> bool) (pb : Phonebook) (inp : list string) :
  match Console.ended (answer_loop correct inp) with
  | Returns (a, rest) => Done a rest pb
  | Raises e => Raised e pb
  end = get_answer correct inp pb.
Proof.
  induction inp as [|line rest IH]; cbn [answer_loop get_answer].
  - reflexivity.
  - destruct (String.eqb line EmptyString); [reflexivity|].
    destruct (isnumeric line).
    + destruct (py_int line) as [n|]; [|reflexivity].
      destruct (correct (VInt n)); [reflexivity | exact IH].
    + destruct (correct (VStr line)); [reflexivity | exact IH].
Qed.

Lemma get_answer_at_console (prompt : string) (correct : PyVal -> bool)
                            (inp : list string) (pb : Phonebook) :
  at_console (console_get_answer prompt correct) inp pb = get_answer correct inp pb.
Proof.
  unfold at_console, console_get_answer.
  rewrite bind_prints by apply prints_write.
  apply answer_loop_ended.
Qed.

Lemma answer_loop_correct (correct : PyVal -> bool) (inp : list string) :
  forall v rest,
    Console.ended (answer_loop correct inp) = Returns (Some v, rest) -> correct v = true.
Proof.
  induction inp as [|line more IH]; intros v rest; cbn [answer_loop].
  - discriminate.
  - destruct (String.eqb line EmptyString); [discriminate|].
    destruct (isnumeric line).
    + destruct (py_int line) as [n|]; [|discriminate].
      destruct (correct (VInt n)) eqn:E; [|apply IH].
      cbn. intros H. injection H as <- _. exact E.
    + destruct (correct (VStr line)) eqn:E; [|apply IH].
      cbn. intros H. injection H as <- _. exact E.
Qed.

(** The page size that is asked for is a number from 1 to 100, or the
    default one: the question does not end on TypeError. *)
Lemma get_page_size_ended (inp : list string) :
  match Console.ended (answer_loop (in_py_range 1 101) inp) with
  | Returns (a, rest) =>
      exists p, 1 <= p <= 100
                /\ Console.ended (Table._get_page_size inp) = Returns (p, rest)
  | Raises e => Console.ended (Table._get_page_size inp) = Raises e
  end.
Proof.
  unfold Table._get_page_size, console_get_answer.
  rewrite bind_prints by apply prints_print. cbn [Console.ended].
  rewrite ended_bind.
  rewrite bind_prints by apply prints_write. cbn [Console.ended].
  pose proof (answer_loop_correct (in_py_range 1 101) inp) as Hc.
  destruct (Console.ended (answer_loop (in_py_range 1 101) inp)) as [[a rest]|e];
    [|reflexivity].
  destruct a as [v|].
  - specialize (Hc v rest eq_refl). destruct v as [n| |]; try discriminate.
    cbn [in_py_range] in Hc. apply andb_true_iff in Hc as [H1 H2].
    apply Z.leb_le in H1. apply Z.ltb_lt in H2.
    exists n. split; [lia|].
    destruct (Z.eqb_spec n 0); [lia | reflexivity].
  - exists DEFAULT_PAGE_SIZE. split; [unfold DEFAULT_PAGE_SIZE; lia | reflexivity].
Qed.

Lemma get_page_size_at_console (inp : list string) (pb : Phonebook) :
  (at_console Table._get_page_size ;; ret tt) inp pb
  = (ConsoleTableFormatter_._get_page_size ;; ret tt) inp pb.
Proof.
  unfold at_console, ConsoleTableFormatter_._get_page_size. unfold bind.
  rewrite <- (answer_loop_ended (in_py_range 1 101) pb inp).
  pose proof (get_page_size_ended inp) as H.
  destruct (Console.ended (answer_loop (in_py_range 1 101) inp)) as [[a rest]|e].
  - destruct H as (p & _ & ->). destruct a as [[n| |]|]; reflexivity.
  - now rewrite H.
Qed.
Lemma printed_cards_unpaginated (contact_count : Z) (contacts : list Contact) :
  printed (VisitCard.cards contacts contact_count false)
  = texts (map (card_text contact_count) contacts).
Proof.
  induction contacts as [|c cs IH]; cbn [VisitCard.cards map texts fold_right].
  - reflexivity.
  - rewrite printed_bind by apply prints_card. fold (texts (map (card_text contact_count) cs)).
    now rewrite IH.
Qed.

Lemma printed_rows_unpaginated (contact_count page_size : Z) (cols : list Z)
                               (contact_list : list (list PyVal)) :
  printed (Table.rows contact_list contact_count page_size false cols)
  = texts (map (row_text cols) contact_list).
Proof.
  induction contact_list as [|row more IH]; cbn [Table.rows map texts fold_right].
  - reflexivity.
  - rewrite printed_bind by apply prints_data_row. fold (texts (map (row_text cols) more)).
    now rewrite IH.
Qed.

Lemma cards_unpaginated (contacts : list Contact) (inp : list string) :
  VisitCard.print_contacts contacts false inp
  = Console.mkRun (texts (map (card_text (len contacts)) contacts)) (Returns (tt, inp)).
Proof.
  unfold VisitCard.print_contacts.
  rewrite (prints_cards_unpaginated (len contacts) contacts inp).
  now rewrite printed_cards_unpaginated.
Qed.

Lemma table_known_page_size (contacts : list Contact) (page_size : Z) (inp : list string) :
  let cols := Table.max_column_len contacts in
  Console.bind (Table._print_table_divider cols) (fun _ =>
  Console.bind (Table._print_table_data_row (map VStr csv_fields) cols) (fun _ =>
  Console.bind (Table._print_table_divider cols) (fun _ =>
  Console.bind (Table.rows (map data_row contacts) (len contacts) page_size false cols)
               (fun _ => Table._print_table_divider cols)))) inp
  = Console.mkRun (table_text contacts) (Returns (tt, inp)).
Proof.
  intros cols. subst cols.
  rewrite (prints_table_unpaginated contacts page_size inp). f_equal.
  rewrite printed_bind by apply prints_divider.
  rewrite printed_bind by apply prints_data_row.
  rewrite printed_bind by apply prints_divider.
  rewrite printed_bind by apply prints_rows_unpaginated.
  rewrite printed_rows_unpaginated.
  unfold table_text, head_text, divider_text, row_text. cbv zeta.
  now rewrite !append_assoc.
Qed.

Lemma table_unpaginated (contacts : list Contact) (inp : list string) :
  Table.print_contacts contacts false inp
  = if DEFAULT_PAGE_SIZE <? len contacts then
      let asked := Table._get_page_size inp in
      match Console.ended asked with
      | Returns (_, rest) =>
          Console.mkRun (Console.written asked +:+ table_text contacts) (Returns (tt, rest))
      | Raises e => Console.mkRun (Console.written asked) (Raises e)
      end
    else Console.mkRun (table_text contacts) (Returns (tt, inp)).
Proof.
  unfold Table.print_contacts.
  destruct (DEFAULT_PAGE_SIZE <? len contacts).
  - unfold Console.bind at 1. cbv zeta.
    destruct (Console.ended (Table._get_page_size inp)) as [[p rest]|e]; [|reflexivity].
    now rewrite (table_known_page_size contacts p rest).
  - unfold Console.bind at 1. cbn [Console.ret Console.ended Console.written].
    now rewrite (table_known_page_size contacts DEFAULT_PAGE_SIZE inp).
Qed.

Lemma print_contacts_at_console (contacts : list Contact) (inp : list string)
                                (pb : Phonebook) :
  print_contacts contacts inp pb
  = at_console (formatter_print (_formatter pb) contacts false) inp pb.
Proof.
  unfold print_contacts. unfold bind at 1. cbn [get].
  destruct (_formatter pb); cbn [formatter_print].
  - unfold at_console. now rewrite cards_unpaginated.
  - unfold ConsoleTableFormatter_.print_contacts.
    unfold at_console at 1. rewrite table_unpaginated.
    destruct (DEFAULT_PAGE_SIZE <? len contacts); [|reflexivity].
    rewrite <- get_page_size_at_console. unfold bind, at_console. cbv zeta.
    destruct (Console.ended (Table._get_page_size inp)) as [[p rest]|e]; reflexivity.
Qed.

(** X13.  Called without pages, as the operations call them for search
    results and for the contact to edit or delete, the formatters never
    pause.  The cards are written one after the other and no line is
    read.  The table of at most five contacts is written in one piece and
    no line is read; the table of more than five contacts first asks for
    the page size, reads lines until one is an answer, and then writes the
    whole table in one piece too, whatever the size that was typed.  The
    lines read are those the operations are modelled to read. *)
Theorem unpaginated_print_asks_only_page_size :
  forall (contacts : list Contact) (inp : list string),
    VisitCard.print_contacts contacts false inp
    = Console.mkRun (texts (map (card_text (len contacts)) contacts)) (Returns (tt, inp))
    /\ Table.print_contacts contacts false inp
       = (if DEFAULT_PAGE_SIZE <? len contacts then
            let asked := Table._get_page_size inp in
            match Console.ended asked with
            | Returns (_, rest) =>
                Console.mkRun (Console.written asked +:+ table_text contacts)
                              (Returns (tt, rest))
            | Raises e => Console.mkRun (Console.written asked) (Raises e)
            end
          else Console.mkRun (table_text contacts) (Returns (tt, inp)))
    /\ forall pb : Phonebook,
         print_contacts contacts inp pb
         = at_console (formatter_print (_formatter pb) contacts false) inp pb.
Proof.
  intros contacts inp. split; [apply cards_unpaginated|].
  split; [apply table_unpaginated|].
  intros pb. apply print_contacts_at_console.
Qed.
(** ** The number an index stands for *)

Lemma reversed_reversed (s : string) :
  forall a b, reversed a (reversed b s) = reversed (s +:+ a) b.
Proof.
  induction s as [|c t IH]; intros a b; cbn [reversed String.append].
  - reflexivity.
  - now rewrite IH.
Qed.

Lemma all_digits_reversed (s : string) :
  forall acc, all_digits (reversed acc s) = all_digits s && all_digits acc.
Proof.
  induction s as [|c t IH]; intros acc; cbn [reversed all_digits].
  - reflexivity.
  - rewrite IH. cbn [all_digits]. destruct (is_digit c), (all_digits t); reflexivity.
Qed.

Lemma digit_not_blank (c : ascii) : is_digit c = true -> is_blank c = false.
Proof.
  unfold is_digit, is_blank, in_range. intros H.
  apply andb_true_iff in H as [H1 H2].
  apply Nat.leb_le in H1. apply Nat.leb_le in H2.
  apply orb_false_iff. split.
  - apply andb_false_iff. right. apply Nat.leb_gt. lia.
  - apply Nat.eqb_neq. lia.
Qed.

Lemma skip_blanks_digits (s : string) : all_digits s = true -> skip_blanks s = s.
Proof.
  destruct s as [|c t]; [reflexivity|]. cbn [all_digits skip_blanks]. intros H.
  apply andb_true_iff in H as [H _]. now rewrite digit_not_blank.
Qed.

Lemma trimmed_digits (s : string) : all_digits s = true -> trimmed s = s.
Proof.
  intros H. unfold trimmed. rewrite (skip_blanks_digits s H).
  rewrite skip_blanks_digits by (rewrite all_digits_reversed, H; reflexivity).
  rewrite reversed_reversed. cbn [reversed]. apply append_nil_r.
Qed.

Lemma literal_digits_all (s : string) :
  forall acc, all_digits s = true -> literal_digits acc true s = Some (int_digits acc s).
Proof.
  induction s as [|c t IH]; intros acc H; cbn [literal_digits int_digits].
  - reflexivity.
  - cbn [all_digits] in H. apply andb_true_iff in H as [Hc Ht].
    rewrite Hc. now apply IH.
Qed.

Lemma digit_no_sign (c : ascii) :
  is_digit c = true -> Ascii.eqb c "+" = false /\ Ascii.eqb c "-" = false.
Proof.
  intros H. split; apply Ascii.eqb_neq; intros ->; discriminate.
Qed.

Lemma int_literal_digits (s : string) (n : Z) : py_int s = Some n -> int_literal s = Some n.
Proof.
  unfold py_int, isnumeric. destruct s as [|c t]; [discriminate|].
  destruct (all_digits (String c t)) eqn:H; [|discriminate].
  intros E. injection E as <-.
  unfold int_literal. rewrite (trimmed_digits _ H).
  cbn [all_digits] in H. apply andb_true_iff in H as [Hc Ht].
  destruct (digit_no_sign c Hc) as [-> ->].
  cbn [literal_digits int_digits]. rewrite Hc. now apply literal_digits_all.
Qed.

Lemma int_index_number (c : Contact) (n : Z) :
  index_number c = Some n -> int_index (index c) = Returns n.
Proof.
  unfold index_number, int_of, int_index.
  destruct (index c) as [m|s|]; try discriminate.
  - intros E. now injection E as <-.
  - destruct (py_int s) as [m|] eqn:E; [|discriminate].
    intros E'. injection E' as <-. now rewrite (int_literal_digits s m E).
Qed.

(** ** The pauses between the cards *)

Lemma bind_ret {A B : Type} (a : A) (k : A -> Console.IO B) (inp : list string) :
  Console.bind (Console.ret a) k inp = k a inp.
Proof.
  unfold Console.bind. cbn [Console.ret Console.ended Console.written].
  now destruct (k a inp).
Qed.

Lemma bind_input {B : Type} (prompt : string) (k : string -> Console.IO B)
                 (a : string) (rest : list string) :
  Console.bind (Console.input prompt) k (a :: rest)
  = Console.mkRun (prompt +:+ Console.written (k a rest)) (Console.ended (k a rest)).
Proof. reflexivity. Qed.

Lemma cards_step_last (c : Contact) (more : list Contact) (N s : Z) (inp : list string) :
  index_number c = Some s ->
  N <= s ->
  VisitCard.cards (c :: more) N true inp
  = Console.mkRun (card_text N c +:+ Console.written (VisitCard.cards more N true inp))
                  (Console.ended (VisitCard.cards more N true inp)).
Proof.
  intros Hs Hle. cbn [VisitCard.cards].
  rewrite bind_prints by apply prints_card. fold (card_text N c).
  rewrite (int_index_number c s Hs). cbn [Console.lift]. rewrite bind_ret.
  destruct (Z.ltb_spec s N); [lia | reflexivity].
Qed.

Lemma cards_step_pause (c : Contact) (more : list Contact) (N s : Z)
                       (a : string) (rest : list string) :
  index_number c = Some s ->
  s < N ->
  VisitCard.cards (c :: more) N true (a :: rest)
  = if String.eqb a "q"
    then Console.mkRun (card_text N c +:+ VisitCard.pause) (Returns (tt, rest))
    else Console.mkRun (card_text N c +:+ VisitCard.pause
                        +:+ Console.written (VisitCard.cards more N true rest))
                       (Console.ended (VisitCard.cards more N true rest)).
Proof.
  intros Hs Hlt. cbn [VisitCard.cards].
  rewrite bind_prints by apply prints_card. fold (card_text N c).
  rewrite (int_index_number c s Hs). cbn [Console.lift]. rewrite bind_ret.
  destruct (Z.ltb_spec s N); [|lia].
  rewrite bind_input. cbn [Console.written Console.ended].
  destruct (String.eqb a "q").
  - cbn [Console.ret Console.written Console.ended]. now rewrite append_nil_r.
  - reflexivity.
Qed.

Lemma len_cons {A : Type} (x : A) (l : list A) : len (x :: l) = 1 + len l.
Proof. unfold len. cbn [List.length]. lia. Qed.

Lemma len_nonneg {A : Type} (l : list A) : 0 <= len l.
Proof. unfold len. lia. Qed.

Lemma cards_paged (N : Z) (shown : list Contact) :
  forall (hidden : list Contact) (s : Z) (answers rest : list string),
    dense_from s (shown ++ hidden) ->
    s + len (shown ++ hidden) = N + 1 ->
    Forall (fun a => a <> "q") answers ->
    (List.length answers + 1 = List.length shown)%nat ->
    match hidden with
    | [] =>
        VisitCard.cards (shown ++ hidden) N true (answers ++ rest)
        = Console.mkRun (join VisitCard.pause (map (card_text N) shown)) (Returns (tt, rest))
    | _ :: _ =>
        VisitCard.cards (shown ++ hidden) N true (answers ++ "q" :: rest)
        = Console.mkRun (texts (map (fun c => card_text N c +:+ VisitCard.pause) shown))
                        (Returns (tt, rest))
    end.
Proof.
  induction shown as [|c shown IH]; intros hidden s answers rest Hd HN Hq Hlen.
  - cbn in Hlen. lia.
  - cbn [app] in Hd, HN |- *. cbn [dense_from] in Hd. destruct Hd as [Hs Hd].
    rewrite len_cons in HN. cbn [List.length] in Hlen.
    pose proof (len_nonneg (shown ++ hidden)) as Hpos.
    destruct shown as [|c' shown].
    + (* the last contact shown *)
      destruct answers; [|cbn in Hlen; lia]. cbn [app map join texts fold_right] in *.
      destruct hidden as [|h hidden].
      * rewrite (cards_step_last c [] N s rest Hs) by (unfold len in HN; cbn in HN; lia).
        cbn. now rewrite append_nil_r.
      * rewrite len_cons in HN. pose proof (len_nonneg hidden).
        rewrite (cards_step_pause c (h :: hidden) N s "q" rest Hs) by lia.
        cbn [String.eqb Ascii.eqb Bool.eqb]. now rewrite append_nil_r.
    + destruct answers as [|a answers]; [cbn in Hlen; lia|].
      inversion Hq as [|? ? Ha Hq']; subst.
      cbn [app] in *. rewrite len_cons in HN, Hpos.
      pose proof (len_nonneg (shown ++ hidden)).
      specialize (IH hidden (s + 1) answers rest Hd).
      assert (HN' : s + 1 + len ((c' :: shown) ++ hidden) = N + 1)
        by (cbn [app]; rewrite len_cons; lia).
      specialize (IH HN' Hq').
      assert (Hlen' : (List.length answers + 1 = List.length (c' :: shown))%nat)
        by (cbn [List.length] in *; lia).
      specialize (IH Hlen').
      destruct hidden as [|h hidden]; cbn [app] in IH |- *;
        rewrite (cards_step_pause c _ N s a _ Hs) by lia;
        (destruct (String.eqb_spec a "q") as [-> | _]; [contradiction|]);
        rewrite IH; cbn [Console.written Console.ended].
      * reflexivity.
      * cbn [map texts fold_right]. now rewrite !append_assoc.
Qed.

(** X14.  When the contacts are numbered from 1 on, the visiting cards are
    shown one at a time.  After every card but the last a line is read:
    q ends the listing at once, with nothing of the remaining contacts
    written and without error, and any other line shows the next card.
    After the last card nothing is read. *)
Theorem cards_pause_between_contacts :
  forall (shown hidden : list Contact) (answers rest : list string),
    let contacts := shown ++ hidden in
    let card := card_text (len contacts) in
    dense_from 1 contacts ->
    Forall (fun a => a <> "q") answers ->
    (List.length answers + 1 = List.length shown)%nat ->
    match hidden with
    | [] =>
        VisitCard.print_contacts contacts true (answers ++ rest)
        = Console.mkRun (join VisitCard.pause (map card shown)) (Returns (tt, rest))
    | _ :: _ =>
        VisitCard.print_contacts contacts true (answers ++ "q" :: rest)
        = Console.mkRun (texts (map (fun c => card c +:+ VisitCard.pause) shown))
                        (Returns (tt, rest))
    end.
Proof.
  intros shown hidden answers rest contacts card Hd Hq Hlen.
  unfold VisitCard.print_contacts. subst contacts card.
  apply (cards_paged (len (shown ++ hidden)) shown hidden 1 answers rest);
    try assumption. lia.
Qed.

(** An instance: of three contacts, the second card is left with q *)
Lemma cards_pause_between_contacts_witness :
  let shown := [ivanov (VStr "1"); petrov (VInt 2)] in
  let hidden := [ivanov (VStr "3")] in
  let card := card_text 3 in
  dense_from 1 (shown ++ hidden)
  /\ Forall (fun a => a <> "q") ["Q"]
  /\ (List.length ["Q"] + 1 = List.length shown)%nat
  /\ VisitCard.print_contacts (shown ++ hidden) true (["Q"] ++ "q" :: ["p"])
     = Console.mkRun (texts (map (fun c => card c +:+ VisitCard.pause) shown))
                     (Returns (tt, ["p"])).
Proof.
  intros shown hidden card.
  assert (Hd : dense_from 1 (shown ++ hidden)) by (cbn; auto).
  assert (Hq : Forall (fun a => a <> "q") ["Q"]) by (repeat constructor; discriminate).
  assert (Hl : (List.length ["Q"] + 1 = List.length shown)%nat) by reflexivity.
  split; [exact Hd|]. split; [exact Hq|]. split; [exact Hl|].
  exact (cards_pause_between_contacts shown hidden ["Q"] ["p"] Hd Hq Hl).
Defined.
(** ** The width of texts *)

Lemma str_len_app (a b : string) : str_len (a +:+ b) = str_len a + str_len b.
Proof.
  induction a as [|c a IH]; cbn [String.append str_len]; [reflexivity|].
  rewrite IH. lia.
Qed.

Lemma str_len_nonneg (s : string) : 0 <= str_len s.
Proof.
  induction s as [|c s IH]; cbn [str_len]; [lia|].
  destruct (continues c); lia.
Qed.

Lemma str_len_copies (n : nat) (fill : string) :
  str_len (copies n fill) = Z.of_nat n * str_len fill.
Proof.
  induction n as [|n IH]; cbn [copies]; [reflexivity|].
  rewrite str_len_app, IH. lia.
Qed.

Lemma str_len_str_mul (fill : string) (n : Z) :
  str_len fill = 1 -> str_len (str_mul fill n) = Z.max 0 n.
Proof. intros H. unfold str_mul. rewrite str_len_copies, H. lia. Qed.

Lemma str_len_ljust (s : string) (width : Z) (fill : string) :
  str_len fill = 1 -> str_len (ljust s width fill) = Z.max width (str_len s).
Proof.
  intros H. unfold ljust. destruct (Z.leb_spec width (str_len s)); [lia|].
  rewrite str_len_app, str_len_str_mul by exact H. lia.
Qed.

Lemma str_len_texts (l : list string) :
  str_len (texts l) = fold_right (fun t acc => str_len t + acc) 0 l.
Proof.
  induction l as [|t l IH]; cbn [texts fold_right]; [reflexivity|].
  fold (texts l). now rewrite str_len_app, IH.
Qed.

(** ** The lines of the table *)

Lemma printed_for_each {A : Type} (body : A -> Console.IO unit) (l : list A) :
  (forall x, prints (body x)) ->
  printed (for_each l body) = texts (map (fun x => printed (body x)) l).
Proof.
  intros Hb. induction l as [|x l IH]; cbn [for_each map texts fold_right].
  - reflexivity.
  - rewrite printed_bind by apply Hb. fold (texts (map (fun x => printed (body x)) l)).
    now rewrite IH.
Qed.

Lemma row_text_cells (cols : list Z) (data : list PyVal) :
  row_text cols data
  = texts (map (fun p => "| " +:+ ljust (py_str (fst p)) (snd p + 1) " ") (combine data cols))
    +:+ String "|" (String LF EmptyString).
Proof.
  unfold row_text, Table._print_table_data_row.
  rewrite printed_bind by (apply prints_for_each; intros; apply prints_write).
  rewrite printed_for_each by (intros; apply prints_write).
  reflexivity.
Qed.

Lemma divider_text_cells (cols : list Z) :
  divider_text cols
  = texts (map (fun w => "+" +:+ str_mul "-" (w + 2)) cols)
    +:+ String "+" (String LF EmptyString).
Proof.
  unfold divider_text, Table._print_table_divider.
  rewrite printed_bind by (apply prints_for_each; intros; apply prints_write).
  rewrite printed_for_each by (intros; apply prints_write).
  reflexivity.
Qed.

Lemma row_text_width (cols : list Z) (data : list PyVal) :
  Forall2 (fun v w => str_len (py_str v) <= w) data cols ->
  str_len (row_text cols data) = table_width cols.
Proof.
  intros H. rewrite row_text_cells, str_len_app, str_len_texts.
  change (str_len (String "|" (String LF EmptyString))) with 2.
  induction H as [|v w data cols Hv H IH]; cbn [combine map fold_right table_width].
  - reflexivity.
  - fold (table_width cols). rewrite <- IH.
    rewrite str_len_app, str_len_ljust by reflexivity.
    change (str_len "| ") with 2. cbn [fst snd]. lia.
Qed.

Lemma divider_text_width (cols : list Z) :
  Forall (fun w => 0 <= w) cols ->
  str_len (divider_text cols) = table_width cols.
Proof.
  intros H. rewrite divider_text_cells, str_len_app, str_len_texts.
  change (str_len (String "+" (String LF EmptyString))) with 2.
  induction H as [|w cols Hw H IH]; cbn [map fold_right table_width].
  - reflexivity.
  - fold (table_width cols). rewrite <- IH.
    rewrite str_len_app, str_len_str_mul by reflexivity.
    change (str_len "+") with 1. lia.
Qed.

(** ** The widths of the columns *)

Lemma fold_left_max (l : list Z) (a b : Z) :
  fold_left Z.max l (Z.max a b) = Z.max a (fold_left Z.max l b).
Proof.
  revert b. induction l as [|x l IH]; intros b; cbn [fold_left]; [reflexivity|].
  now rewrite <- Z.max_assoc, IH.
Qed.

Lemma py_max_cons (a : Z) (col : list Z) :
  0 <= a -> Table.py_max (a :: col) = Z.max a (Table.py_max col).
Proof.
  intros Ha. unfold Table.py_max. destruct col as [|b col]; cbn [fold_left].
  - lia.
  - apply fold_left_max.
Qed.

Lemma max_column_len_nil : Table.max_column_len [] = map str_len csv_fields.
Proof. reflexivity. Qed.

Lemma max_column_len_cons (c : Contact) (cs : list Contact) :
  Table.max_column_len (c :: cs)
  = map (fun p => Z.max (fst p) (snd p))
        (combine (map (fun v => str_len (py_str v)) (data_row c))
                 (Table.max_column_len cs)).
Proof.
  unfold Table.max_column_len, Table.row_size_arrays. cbn [map app Table.zip_star].
  destruct (map _ cs ++ [map str_len csv_fields]) as [|r more] eqn:E.
  - symmetry in E. now apply app_cons_not_nil in E.
  - rewrite <- E. clear E r more.
    set (sizes := map (fun v => str_len (py_str v)) (data_row c)).
    set (columns := Table.zip_star _).
    assert (Hs : Forall (fun a => 0 <= a) sizes).
    { apply Forall_forall. intros a Ha. apply in_map_iff in Ha as (v & <- & _).
      apply str_len_nonneg. }
    clearbody sizes columns. revert columns.
    induction Hs as [|a sizes Ha Hs IH]; intros columns; cbn [combine map].
    + reflexivity.
    + destruct columns as [|col columns]; cbn [combine map]; [reflexivity|].
      cbn [fst snd]. rewrite py_max_cons by exact Ha. now rewrite IH.
Qed.

Lemma pointwise_max_length (a b : list Z) :
  List.length a = List.length b ->
  List.length (map (fun p => Z.max (fst p) (snd p)) (combine a b)) = List.length b.
Proof. intros H. rewrite length_map, length_combine, H. apply Nat.min_id. Qed.

Lemma max_column_len_length (contacts : list Contact) :
  List.length (Table.max_column_len contacts) = 7%nat.
Proof.
  induction contacts as [|c cs IH].
  - reflexivity.
  - rewrite max_column_len_cons, pointwise_max_length; [exact IH|].
    now rewrite IH.
Qed.

Lemma fits_pointwise_max (row : list PyVal) (a b : list Z) :
  List.length a = List.length b ->
  Forall2 (fun v w => str_len (py_str v) <= w) row b ->
  Forall2 (fun v w => str_len (py_str v) <= w) row
          (map (fun p => Z.max (fst p) (snd p)) (combine a b)).
Proof.
  intros Hlen H. revert a Hlen.
  induction H as [|v w row b Hv H IH]; intros a Hlen.
  - destruct a; [constructor | discriminate].
  - destruct a as [|x a]; [discriminate|]. cbn [combine map fst snd].
    constructor; [lia|]. apply IH. now injection Hlen.
Qed.

Lemma own_sizes_fit (row : list PyVal) (b : list Z) :
  List.length row = List.length b ->
  Forall2 (fun v w => str_len (py_str v) <= w) row
          (map (fun p => Z.max (fst p) (snd p))
               (combine (map (fun v => str_len (py_str v)) row) b)).
Proof.
  revert b. induction row as [|v row IH]; intros b Hlen.
  - destruct b; [constructor | discriminate].
  - destruct b as [|w b]; [discriminate|]. cbn [combine map fst snd].
    constructor; [lia|]. apply IH. now injection Hlen.
Qed.

Lemma titles_fit : Forall2 (fun v w => str_len (py_str v) <= w)
                           (map VStr csv_fields) (map str_len csv_fields).
Proof.
  induction csv_fields as [|t l IH]; cbn [map]; constructor; [cbn [py_str]; lia | exact IH].
Qed.

Lemma columns_fit (contacts : list Contact) :
  forall row, In row (map VStr csv_fields :: map data_row contacts) ->
              Forall2 (fun v w => str_len (py_str v) <= w) row
                      (Table.max_column_len contacts).
Proof.
  induction contacts as [|c cs IH]; intros row Hin.
  - destruct Hin as [<- | []]. apply titles_fit.
  - rewrite max_column_len_cons.
    assert (Hlen : List.length (map (fun v => str_len (py_str v)) (data_row c))
                   = List.length (Table.max_column_len cs))
      by now rewrite max_column_len_length.
    cbn [map] in Hin. destruct Hin as [<- | [<- | Hin]].
    + apply fits_pointwise_max; [exact Hlen|]. apply IH. now left.
    + apply own_sizes_fit. now rewrite max_column_len_length.
    + apply fits_pointwise_max; [exact Hlen|]. apply IH. now right.
Qed.

Lemma columns_attained (contacts : list Contact) :
  forall (j : nat) (w : Z),
    nth_error (Table.max_column_len contacts) j = Some w ->
    exists row v,
      In row (map VStr csv_fields :: map data_row contacts)
      /\ nth_error row j = Some v
      /\ str_len (py_str v) = w.
Proof.
  induction contacts as [|c cs IH]; intros j w Hj.
  - rewrite max_column_len_nil in Hj.
    exists (map VStr csv_fields). rewrite nth_error_map in Hj |- *.
    destruct (nth_error csv_fields j) as [t|]; [|discriminate].
    cbn in Hj. injection Hj as <-.
    exists (VStr t). split; [now left | split; reflexivity].
  - rewrite max_column_len_cons in Hj.
    rewrite nth_error_map in Hj.
    destruct (nth_error (combine _ _) j) as [[a b]|] eqn:E; [|discriminate].
    cbn in Hj. injection Hj as <-.
    assert (Ea : nth_error (map (fun v => str_len (py_str v)) (data_row c)) j = Some a
                 /\ nth_error (Table.max_column_len cs) j = Some b).
    { clear IH. revert E.
      generalize (map (fun v => str_len (py_str v)) (data_row c)) as xs.
      generalize (Table.max_column_len cs) as ys. revert j.
      induction j as [|j IHj]; intros ys xs E; destruct xs as [|x xs], ys as [|y ys];
        cbn in E |- *; try discriminate.
      - injection E as <- <-. now split.
      - now apply IHj. }
    destruct Ea as [Ea Eb].
    destruct (Z.max_spec a b) as [[_ ->] | [_ ->]].
    + destruct (IH j b Eb) as (row & v & Hin & Hv & Hw).
      exists row, v. split; [|now split].
      cbn [map]. destruct Hin as [<- | Hin]; [now left | right; now right].
    + rewrite nth_error_map in Ea.
      destruct (nth_error (data_row c) j) as [v|] eqn:Ev; [|discriminate].
      cbn in Ea. injection Ea as <-.
      exists (data_row c), v. split; [cbn [map]; right; now left | now split].
Qed.

Lemma columns_nonneg (contacts : list Contact) :
  Forall (fun w => 0 <= w) (Table.max_column_len contacts).
Proof.
  pose proof (columns_fit contacts (map VStr csv_fields) (or_introl eq_refl)) as H.
  induction H as [|v w row cols Hv H IH]; constructor; [|exact IH].
  pose proof (str_len_nonneg (py_str v)). lia.
Qed.

(** X15.  The table is drawn in columns that fit: there are seven of them;
    every column is as wide as the longest text in it, the title included,
    and no wider; every line of the table, row of titles, row of a contact
    or divider, has the same number of characters. *)
Theorem table_columns_fit_every_row :
  forall (contacts : list Contact),
    let cols := Table.max_column_len contacts in
    let rows := map VStr csv_fields :: map data_row contacts in
    List.length cols = 7%nat
    /\ (forall row, In row rows ->
                    Forall2 (fun v w => str_len (py_str v) <= w) row cols)
    /\ (forall j w, nth_error cols j = Some w ->
                    exists row v, In row rows
                                  /\ nth_error row j = Some v
                                  /\ str_len (py_str v) = w)
    /\ (forall row, In row rows -> str_len (row_text cols row) = table_width cols)
    /\ str_len (divider_text cols) = table_width cols.
Proof.
  intros contacts cols rows. subst cols rows.
  split; [apply max_column_len_length|].
  split; [apply columns_fit|].
  split; [apply columns_attained|].
  split.
  - intros row Hin. apply row_text_width. now apply columns_fit.
  - apply divider_text_width, columns_nonneg.
Qed.
(** ** The pages of the table *)

Lemma bind_returns {A B : Type} (m : Console.IO A) (k : A -> Console.IO B)
                   (inp : list string) (w : string) (a : A) (rest : list string) :
  m inp = Console.mkRun w (Returns (a, rest)) ->
  Console.bind m k inp
  = Console.mkRun (w +:+ Console.written (k a rest)) (Console.ended (k a rest)).
Proof. intros H. unfold Console.bind. now rewrite H. Qed.

Lemma table_pause_enter (rest : list string) :
  console_get_answer Table.pause (in_py_list [VStr EmptyString; VStr "q"])
                     (EmptyString :: rest)
  = Console.mkRun table_pause (Returns (None, rest)).
Proof. reflexivity. Qed.

Lemma table_pause_quit (rest : list string) :
  console_get_answer Table.pause (in_py_list [VStr EmptyString; VStr "q"]) ("q" :: rest)
  = Console.mkRun table_pause (Returns (Some (VStr "q"), rest)).
Proof. reflexivity. Qed.

Lemma page_end_condition (c : Contact) (N p i : Z) :
  index_number c = Some i ->
  (i mod p =? 0) && negb (i =? N) = page_end p N c.
Proof. intros H. unfold page_end. now rewrite H. Qed.

Lemma rows_step_inside (c : Contact) (more : list (list PyVal)) (N p : Z) (cols : list Z)
                       (inp : list string) (i : Z) :
  index_number c = Some i ->
  page_end p N c = false ->
  Table.rows (data_row c :: more) N p true cols inp
  = Console.mkRun (row_text cols (data_row c)
                   +:+ Console.written (Table.rows more N p true cols inp))
                  (Console.ended (Table.rows more N p true cols inp)).
Proof.
  intros Hi He. cbn [Table.rows].
  rewrite bind_prints by apply prints_data_row. fold (row_text cols (data_row c)).
  change (Table.first_number (data_row c)) with (int_index (index c)).
  rewrite (int_index_number c i Hi). cbn [Console.lift]. rewrite bind_ret.
  rewrite (page_end_condition c N p i Hi), He. reflexivity.
Qed.

Lemma rows_step_enter (c : Contact) (more : list (list PyVal)) (N p : Z) (cols : list Z)
                      (rest : list string) (i : Z) :
  index_number c = Some i ->
  page_end p N c = true ->
  Table.rows (data_row c :: more) N p true cols (EmptyString :: rest)
  = Console.mkRun (row_text cols (data_row c) +:+ table_pause
                   +:+ Console.written (Table.rows more N p true cols rest))
                  (Console.ended (Table.rows more N p true cols rest)).
Proof.
  intros Hi He. cbn [Table.rows].
  rewrite bind_prints by apply prints_data_row. fold (row_text cols (data_row c)).
  change (Table.first_number (data_row c)) with (int_index (index c)).
  rewrite (int_index_number c i Hi). cbn [Console.lift]. rewrite bind_ret.
  rewrite (page_end_condition c N p i Hi), He.
  rewrite (bind_returns _ _ _ _ _ _ (table_pause_enter rest)). reflexivity.
Qed.

Lemma rows_step_quit (c : Contact) (more : list (list PyVal)) (N p : Z) (cols : list Z)
                     (rest : list string) (i : Z) :
  index_number c = Some i ->
  page_end p N c = true ->
  Table.rows (data_row c :: more) N p true cols ("q" :: rest)
  = Console.mkRun (row_text cols (data_row c) +:+ table_pause) (Returns (tt, rest)).
Proof.
  intros Hi He. cbn [Table.rows].
  rewrite bind_prints by apply prints_data_row. fold (row_text cols (data_row c)).
  change (Table.first_number (data_row c)) with (int_index (index c)).
  rewrite (int_index_number c i Hi). cbn [Console.lift]. rewrite bind_ret.
  rewrite (page_end_condition c N p i Hi), He.
  rewrite (bind_returns _ _ _ _ _ _ (table_pause_quit rest)).
  cbn [Console.ret Console.written Console.ended]. now rewrite append_nil_r.
Qed.

Lemma dense_numbered (cs : list Contact) :
  forall s, dense_from s cs -> Forall (fun c => exists i, index_number c = Some i) cs.
Proof.
  induction cs as [|c cs IH]; intros s Hd; constructor.
  - destruct Hd as [Hc _]. now exists s.
  - destruct Hd as [_ Hd]. now apply (IH (s + 1)).
Qed.

Lemma paged_rows_cons (cols : list Z) (p N : Z) (c : Contact) (cs : list Contact) :
  paged_rows cols p N (c :: cs)
  = row_text cols (data_row c)
    +:+ (if page_end p N c then table_pause else EmptyString)
    +:+ paged_rows cols p N cs.
Proof. unfold paged_rows. cbn [map texts fold_right]. now rewrite append_assoc. Qed.

Lemma rows_enter (cols : list Z) (N p : Z) (cs : list Contact) (rest : list string) :
  Forall (fun c => exists i, index_number c = Some i) cs ->
  Table.rows (map data_row cs) N p true cols
             (repeat EmptyString (List.length (filter (page_end p N) cs)) ++ rest)
  = Console.mkRun (paged_rows cols p N cs) (Returns (tt, rest)).
Proof.
  intros H. induction H as [|c cs [i Hi] H IH]; cbn [map filter].
  - reflexivity.
  - rewrite paged_rows_cons. destruct (page_end p N c) eqn:He.
    + cbn [List.length repeat app].
      rewrite (rows_step_enter c _ N p cols _ i Hi He), IH. reflexivity.
    + rewrite (rows_step_inside c _ N p cols _ i Hi He), IH. reflexivity.
Qed.

Lemma rows_quit (cols : list Z) (N p : Z) (shown : list Contact) :
  forall (c : Contact) (hidden : list Contact) (rest : list string),
    Forall (fun c => exists i, index_number c = Some i) (shown ++ [c]) ->
    page_end p N c = true ->
    Table.rows (map data_row (shown ++ c :: hidden)) N p true cols
               (repeat EmptyString (List.length (filter (page_end p N) shown))
                ++ "q" :: rest)
    = Console.mkRun (paged_rows cols p N (shown ++ [c])) (Returns (tt, rest)).
Proof.
  induction shown as [|x shown IH]; intros c hidden rest H Hc; cbn [app map filter] in *.
  - inversion H as [|? ? [i Hi] _]; subst. cbn [List.length repeat app].
    rewrite (rows_step_quit c _ N p cols _ i Hi Hc), paged_rows_cons, Hc.
    unfold paged_rows. cbn [map texts fold_right]. reflexivity.
  - inversion H as [|? ? [i Hi] H']; subst.
    rewrite paged_rows_cons. destruct (page_end p N x) eqn:He.
    + cbn [List.length repeat app].
      rewrite (rows_step_enter x _ N p cols _ i Hi He), (IH c hidden rest H' Hc).
      reflexivity.
    + rewrite (rows_step_inside x _ N p cols _ i Hi He), (IH c hidden rest H' Hc).
      reflexivity.
Qed.

(** ** How many pages *)

Lemma div_step (s p : Z) :
  0 < p -> s / p = (s - 1) / p + (if s mod p =? 0 then 1 else 0).
Proof.
  intros Hp. pose proof (Z.div_mod s p ltac:(lia)) as E.
  pose proof (Z.mod_pos_bound s p Hp) as B.
  destruct (Z.eqb_spec (s mod p) 0) as [H0 | H0].
  - assert (Hq : s / p - 1 = (s - 1) / p)
      by (apply (Z.div_unique (s - 1) p (s / p - 1) (p - 1)); lia).
    lia.
  - assert (Hq : s / p = (s - 1) / p)
      by (apply (Z.div_unique (s - 1) p (s / p) (s mod p - 1)); lia).
    lia.
Qed.

Lemma page_ends_count (p N : Z) (cs : list Contact) :
  0 < p ->
  forall (c : Contact) (s : Z),
    dense_from s (c :: cs) ->
    s + len cs <= N ->
    Z.of_nat (List.length (filter (page_end p N) (c :: cs)))
    = (if s + len cs =? N then N - 1 else s + len cs) / p - (s - 1) / p.
Proof.
  intros Hp. induction cs as [|c' cs IH]; intros c s [Hc Hd] HN.
  - change (len []) with 0 in *. rewrite Z.add_0_r in *.
    cbn [filter]. unfold page_end. rewrite Hc.
    pose proof (div_step s p Hp) as Hs.
    destruct (Z.eqb_spec s N) as [-> | Hne].
    + rewrite andb_false_r. cbn [List.length]. lia.
    + rewrite andb_true_r. destruct (s mod p =? 0); cbn [List.length]; lia.
  - rewrite len_cons in *. pose proof (len_nonneg cs) as Hl.
    specialize (IH c' (s + 1) Hd ltac:(lia)).
    replace (s + 1 + len cs) with (s + (1 + len cs)) in IH by lia.
    replace (s + 1 - 1) with s in IH by lia.
    pose proof (div_step s p Hp) as Hs.
    set (F := filter (page_end p N) (c' :: cs)) in *.
    change (filter (page_end p N) (c :: c' :: cs))
      with (if page_end p N c then c :: F else F).
    unfold page_end at 1. rewrite Hc.
    destruct (Z.eqb_spec s N) as [-> | Hne]; [lia|]. rewrite andb_true_r.
    destruct (s mod p =? 0); cbn [List.length]; lia.
Qed.

Lemma page_ends_all (p : Z) (contacts : list Contact) :
  0 < p ->
  dense_from 1 contacts ->
  List.length (filter (page_end p (len contacts)) contacts)
  = Z.to_nat ((len contacts - 1) / p).
Proof.
  intros Hp Hd. destruct contacts as [|c cs].
  - change (len []) with 0. cbn [filter List.length].
    assert ((0 - 1) / p < 0) by (apply Z.div_lt_upper_bound; lia). lia.
  - pose proof (page_ends_count p (len (c :: cs)) cs Hp c 1 Hd) as H.
    rewrite len_cons in *. specialize (H ltac:(lia)).
    rewrite Z.eqb_refl in H. change ((1 - 1) / p) with (0 / p) in H.
    rewrite Z.div_0_l in H by lia. lia.
Qed.

(** ** The question of the page size *)

Lemma console_get_answer_number (prompt : string) (correct : PyVal -> bool)
                                (line : string) (n : Z) (rest : list string) :
  py_int line = Some n ->
  correct (VInt n) = true ->
  console_get_answer prompt correct (line :: rest)
  = Console.mkRun (prompt +:+ " ") (Returns (Some (VInt n), rest)).
Proof.
  intros Hn Hc. unfold console_get_answer.
  rewrite bind_prints by apply prints_write. cbn [answer_loop].
  pose proof Hn as Hnum. unfold py_int in Hnum.
  destruct (isnumeric line) eqn:En; [|discriminate].
  assert (Hne : String.eqb line EmptyString = false)
    by (destruct line; [discriminate | reflexivity]).
  rewrite Hne, Hn, Hc. cbn [Console.written Console.ended].
  unfold printed. cbn [Console.write Console.written]. now rewrite append_nil_r.
Qed.

Lemma get_page_size_typed (size : string) (p : Z) (rest : list string) :
  page_size_typed size p ->
  Table._get_page_size (size :: rest)
  = Console.mkRun page_size_question (Returns (p, rest)).
Proof.
  intros [[-> ->] | [Hp Hr]]; [reflexivity|].
  unfold Table._get_page_size.
  rewrite bind_prints by apply prints_print.
  assert (Hin : in_py_range 1 101 (VInt p) = true).
  { cbn [in_py_range]. apply andb_true_iff. split; [apply Z.leb_le | apply Z.ltb_lt]; lia. }
  rewrite (bind_returns _ _ _ _ _ _ (console_get_answer_number _ _ size p rest Hp Hin)).
  destruct (Z.eqb_spec p 0); [lia|].
  cbn [Console.ret Console.written Console.ended].
  rewrite append_nil_r. reflexivity.
Qed.

Lemma page_size_positive (size : string) (p : Z) : page_size_typed size p -> 0 < p.
Proof. intros [[_ ->] | [_ H]]; [reflexivity | lia]. Qed.

(** The table once the page size is known *)
Lemma table_from_rows (contacts : list Contact) (p : Z) (inp rest : list string)
                      (shown : string) :
  let cols := Table.max_column_len contacts in
  Table.rows (map data_row contacts) (len contacts) p true cols inp
  = Console.mkRun shown (Returns (tt, rest)) ->
  Console.bind (Table._print_table_divider cols) (fun _ =>
  Console.bind (Table._print_table_data_row (map VStr csv_fields) cols) (fun _ =>
  Console.bind (Table._print_table_divider cols) (fun _ =>
  Console.bind (Table.rows (map data_row contacts) (len contacts) p true cols)
               (fun _ => Table._print_table_divider cols)))) inp
  = Console.mkRun (head_text cols +:+ shown +:+ divider_text cols) (Returns (tt, rest)).
Proof.
  intros cols H.
  rewrite bind_prints by apply prints_divider.
  rewrite bind_prints by apply prints_data_row.
  rewrite bind_prints by apply prints_divider.
  rewrite (bind_returns _ _ _ _ _ _ H).
  rewrite (prints_divider cols rest).
  cbn [Console.written Console.ended].
  unfold head_text, divider_text, row_text. now rewrite !append_assoc.
Qed.

(** X16.  When the contacts are numbered from 1 on, the table is shown in
    pages.  The size of the page is five for five contacts or fewer, and
    is asked for when there are more.  After every row whose number is a
    multiple of the page size, the last row excepted, the table pauses,
    and the empty line shows the next page: the N rows are all shown
    after (N - 1) / size pauses, and the closing divider follows them. *)
Theorem table_pauses_after_every_page :
  forall (contacts : list Contact) (size : string) (typed_size : Z) (rest : list string),
    let N := len contacts in
    let cols := Table.max_column_len contacts in
    let asked := DEFAULT_PAGE_SIZE <? N in
    let p := if asked then typed_size else DEFAULT_PAGE_SIZE in
    let pauses := Z.to_nat ((N - 1) / p) in
    dense_from 1 contacts ->
    page_size_typed size typed_size ->
    Table.print_contacts contacts true
      ((if asked then [size] else []) ++ repeat EmptyString pauses ++ rest)
    = Console.mkRun ((if asked then page_size_question else EmptyString)
                     +:+ head_text cols +:+ paged_rows cols p N contacts
                     +:+ divider_text cols)
                    (Returns (tt, rest))
    /\ List.length (filter (page_end p N) contacts) = pauses.
Proof.
  intros contacts size typed_size rest N cols asked p pauses Hd Hsize.
  assert (Hp : 0 < p).
  { subst p. destruct asked; [exact (page_size_positive _ _ Hsize) | reflexivity]. }
  assert (Hcount : List.length (filter (page_end p N) contacts) = pauses)
    by (apply page_ends_all; assumption).
  split; [|exact Hcount].
  assert (Hrows : Table.rows (map data_row contacts) N p true cols
                             (repeat EmptyString pauses ++ rest)
                  = Console.mkRun (paged_rows cols p N contacts) (Returns (tt, rest))).
  { rewrite <- Hcount. apply rows_enter. exact (dense_numbered _ _ Hd). }
  clearbody pauses. subst p asked cols N. unfold Table.print_contacts.
  destruct (DEFAULT_PAGE_SIZE <? len contacts); cbn [app].
  - rewrite (bind_returns _ _ _ _ _ _ (get_page_size_typed size typed_size _ Hsize)).
    rewrite (table_from_rows contacts typed_size _ rest _ Hrows).
    reflexivity.
  - rewrite bind_ret.
    rewrite (table_from_rows contacts DEFAULT_PAGE_SIZE _ rest _ Hrows).
    reflexivity.
Qed.
(** An instance: six contacts in pages of two *)
Lemma table_pauses_after_every_page_witness :
  let contacts := [ivanov (VStr "1"); petrov (VStr "2"); ivanov (VStr "3");
                   petrov (VInt 4); ivanov (VInt 5); petrov (VInt 6)] in
  let cols := Table.max_column_len contacts in
  dense_from 1 contacts
  /\ page_size_typed "2" 2
  /\ Table.print_contacts contacts true (["2"] ++ repeat EmptyString 2 ++ ["a"])
     = Console.mkRun (page_size_question +:+ head_text cols +:+ paged_rows cols 2 6 contacts
                      +:+ divider_text cols)
                     (Returns (tt, ["a"]))
  /\ List.length (filter (page_end 2 6) contacts) = 2%nat.
Proof.
  intros contacts cols.
  assert (Hd : dense_from 1 contacts) by (cbn; auto 10).
  assert (Hs : page_size_typed "2" 2) by (right; split; [reflexivity | lia]).
  split; [exact Hd|]. split; [exact Hs|].
  exact (table_pauses_after_every_page contacts "2" 2 ["a"] Hd Hs).
Defined.

(** ** Leaving the table *)

Lemma dense_from_app_l (a b : list Contact) :
  forall s, dense_from s (a ++ b) -> dense_from s a.
Proof.
  induction a as [|c a IH]; intros s H; cbn [app dense_from] in *; [exact I|].
  destruct H as [Hc H]. split; [exact Hc | now apply (IH (s + 1))].
Qed.

Lemma len_app {A : Type} (a b : list A) : len (a ++ b) = len a + len b.
Proof. unfold len. rewrite length_app. lia. Qed.

Lemma table_quit (shown hidden : list Contact) (p k N : Z) (cols : list Z)
                 (rest : list string) :
  dense_from 1 (shown ++ hidden) ->
  N = len (shown ++ hidden) ->
  0 < p ->
  1 <= k ->
  len shown = k * p ->
  hidden <> [] ->
  Table.rows (map data_row (shown ++ hidden)) N p true cols
             (repeat EmptyString (Z.to_nat (k - 1)) ++ "q" :: rest)
  = Console.mkRun (paged_rows cols p N shown) (Returns (tt, rest)).
Proof.
  intros Hd HN Hp Hk Hlen Hh.
  assert (Hne : shown <> []).
  { intros ->. change (len []) with 0 in Hlen. nia. }
  destruct (exists_last Hne) as (init & c & ->).
  rewrite len_app in Hlen. change (len [c]) with 1 in Hlen.
  rewrite !len_app in HN. change (len [c]) with 1 in HN.
  assert (Hhl : 0 < len hidden).
  { destruct hidden; [contradiction|]. rewrite len_cons. pose proof (len_nonneg hidden). lia. }
  assert (Hc : index_number c = Some (k * p)).
  { rewrite (dense_from_nth _ 1 (List.length init) c Hd).
    - f_equal. unfold len in Hlen. lia.
    - rewrite <- app_assoc, nth_error_app2 by lia. now rewrite Nat.sub_diag. }
  assert (He : page_end p N c = true).
  { unfold page_end. rewrite Hc, Z_mod_mult. cbn [Z.eqb andb].
    apply negb_true_iff, Z.eqb_neq. lia. }
  assert (Hcount : List.length (filter (page_end p N) init) = Z.to_nat (k - 1)).
  { destruct init as [|c0 cs0].
    - change (len []) with 0 in Hlen. cbn [filter List.length]. nia.
    - rewrite len_cons in Hlen, HN.
      assert (Hd0 : dense_from 1 (c0 :: cs0))
        by (apply (dense_from_app_l _ ([c] ++ hidden)); now rewrite app_assoc).
      pose proof (len_nonneg cs0).
      pose proof (page_ends_count p N cs0 Hp c0 1 Hd0 ltac:(lia)) as H0.
      destruct (Z.eqb_spec (1 + len cs0) N); [lia|].
      change ((1 - 1) / p) with (0 / p) in H0. rewrite Z.div_0_l in H0 by lia.
      assert (Hq : k - 1 = (1 + len cs0) / p)
        by (apply (Z.div_unique (1 + len cs0) p (k - 1) (p - 1)); lia).
      lia. }
  rewrite <- Hcount, <- app_assoc. cbn [app].
  apply rows_quit; [|exact He].
  apply (dense_numbered _ 1). apply (dense_from_app_l _ hidden). exact Hd.
Qed.

(** X17.  In the table of more than five contacts numbered from 1 on, the
    line q typed at a pause ends the listing there, without error: the
    rows of the pages shown so far are on the screen, the closing divider
    is drawn after them, and the rows of the remaining contacts are not
    written. *)
Theorem table_quit_ends_listing :
  forall (shown hidden : list Contact) (size : string) (p k : Z) (rest : list string),
    let contacts := shown ++ hidden in
    let N := len contacts in
    let cols := Table.max_column_len contacts in
    dense_from 1 contacts ->
    DEFAULT_PAGE_SIZE < N ->
    page_size_typed size p ->
    1 <= k ->
    len shown = k * p ->
    hidden <> [] ->
    Table.print_contacts contacts true
      (size :: repeat EmptyString (Z.to_nat (k - 1)) ++ "q" :: rest)
    = Console.mkRun (page_size_question +:+ head_text cols
                     +:+ paged_rows cols p N shown +:+ divider_text cols)
                    (Returns (tt, rest)).
Proof.
  intros shown hidden size p k rest contacts N cols Hd HN Hsize Hk Hlen Hh.
  pose proof (page_size_positive _ _ Hsize) as Hp.
  pose proof (table_quit shown hidden p k N cols rest Hd eq_refl Hp Hk Hlen Hh) as Hrows.
  subst cols N contacts. unfold Table.print_contacts.
  destruct (Z.ltb_spec DEFAULT_PAGE_SIZE (len (shown ++ hidden))); [|lia].
  rewrite (bind_returns _ _ _ _ _ _ (get_page_size_typed size p _ Hsize)).
  rewrite (table_from_rows (shown ++ hidden) p _ rest _ Hrows).
  reflexivity.
Qed.

(** An instance: six contacts in pages of two, left at the second pause *)
Lemma table_quit_ends_listing_witness :
  let shown := [ivanov (VStr "1"); petrov (VStr "2"); ivanov (VStr "3"); petrov (VInt 4)] in
  let hidden := [ivanov (VInt 5); petrov (VInt 6)] in
  let cols := Table.max_column_len (shown ++ hidden) in
  dense_from 1 (shown ++ hidden)
  /\ DEFAULT_PAGE_SIZE < len (shown ++ hidden)
  /\ page_size_typed "2" 2
  /\ 1 <= 2
  /\ len shown = 2 * 2
  /\ hidden <> []
  /\ Table.print_contacts (shown ++ hidden) true
       ("2" :: repeat EmptyString (Z.to_nat (2 - 1)) ++ "q" :: ["a"])
     = Console.mkRun (page_size_question +:+ head_text cols
                      +:+ paged_rows cols 2 6 shown +:+ divider_text cols)
                     (Returns (tt, ["a"])).
Proof.
  intros shown hidden cols.
  assert (Hd : dense_from 1 (shown ++ hidden)) by (cbn; auto 10).
  assert (HN : DEFAULT_PAGE_SIZE < len (shown ++ hidden)) by reflexivity.
  assert (Hs : page_size_typed "2" 2) by (right; split; [reflexivity | lia]).
  assert (Hk : 1 <= 2) by lia.
  assert (Hl : len shown = 2 * 2) by reflexivity.
  assert (Hh : hidden <> []) by discriminate.
  repeat (split; [assumption|]).
  exact (table_quit_ends_listing shown hidden "2" 2 2 ["a"] Hd HN Hs Hk Hl Hh).
Defined.

(* ================================================================== *)
(** * Properties of the session *)
(* ================================================================== *)

(** ** Runs at the console read on *)

Lemma reads_on_prints (m : Console.IO unit) : prints m -> reads_on m.
Proof.
  intros H inp a rest E. rewrite (H inp) in E. cbn in E.
  injection E as _ <-. lia.
Qed.

Lemma reads_on_ret {A : Type} (a : A) : reads_on (Console.ret a).
Proof. intros inp b rest E. cbn in E. injection E as _ <-. lia. Qed.

Lemma reads_on_raise {A : Type} (e : Exn) : reads_on (@Console.raise A e).
Proof. intros inp b rest E. discriminate. Qed.

Lemma reads_on_lift {A : Type} (r : Result A) : reads_on (Console.lift r).
Proof. destruct r; [apply reads_on_ret | apply reads_on_raise]. Qed.

Lemma reads_on_input (prompt : string) : reads_on (Console.input prompt).
Proof.
  intros [|line inp] a rest E; cbn in E; [discriminate|].
  injection E as _ <-. cbn. lia.
Qed.

Lemma reads_on_bind {A B : Type} (m : Console.IO A) (k : A -> Console.IO B) :
  reads_on m -> (forall a, reads_on (k a)) -> reads_on (Console.bind m k).
Proof.
  intros Hm Hk inp b rest E. rewrite ended_bind in E.
  destruct (Console.ended (m inp)) as [[a rest']|e] eqn:Em; [|discriminate].
  specialize (Hm inp a rest' Em). specialize (Hk a rest' b rest E). lia.
Qed.

Lemma reads_on_answer_loop (correct : PyVal -> bool) : reads_on (answer_loop correct).
Proof.
  intros inp. induction inp as [|line inp IH]; intros a rest E; cbn [answer_loop] in E.
  - discriminate.
  - cbn [List.length].
    destruct (String.eqb line EmptyString); [cbn in E; injection E as _ <-; lia|].
    destruct (isnumeric line).
    + destruct (py_int line) as [n|]; [|discriminate].
      destruct (correct (VInt n)); [cbn in E; injection E as _ <-; lia|].
      cbn in E. specialize (IH a rest E). lia.
    + destruct (correct (VStr line)); [cbn in E; injection E as _ <-; lia|].
      cbn in E. specialize (IH a rest E). lia.
Qed.

Lemma reads_on_get_answer (prompt : string) (correct : PyVal -> bool) :
  reads_on (console_get_answer prompt correct).
Proof.
  unfold console_get_answer.
  apply reads_on_bind; [apply reads_on_prints, prints_write|].
  intros _. apply reads_on_answer_loop.
Qed.

Lemma reads_on_cards (N : Z) (paginate : bool) (contacts : list Contact) :
  reads_on (VisitCard.cards contacts N paginate).
Proof.
  induction contacts as [|c cs IH]; cbn [VisitCard.cards].
  - apply reads_on_ret.
  - apply reads_on_bind; [apply reads_on_prints, prints_card | intros _].
    destruct paginate; [|exact IH].
    apply reads_on_bind; [apply reads_on_lift | intros i].
    destruct (i <? N); [|exact IH].
    apply reads_on_bind; [apply reads_on_input | intros answer].
    destruct (String.eqb answer "q"); [apply reads_on_ret | exact IH].
Qed.

Lemma reads_on_rows (N p : Z) (paginate : bool) (cols : list Z)
                    (contact_list : list (list PyVal)) :
  reads_on (Table.rows contact_list N p paginate cols).
Proof.
  induction contact_list as [|row more IH]; cbn [Table.rows].
  - apply reads_on_ret.
  - apply reads_on_bind; [apply reads_on_prints, prints_data_row | intros _].
    destruct paginate; [|exact IH].
    apply reads_on_bind; [apply reads_on_lift | intros i].
    destruct ((i mod p =? 0) && negb (i =? N)); [|exact IH].
    apply reads_on_bind; [apply reads_on_get_answer | intros answer].
    destruct answer as [[n|s|]|]; try exact IH.
    destruct (String.eqb_spec s "q") as [-> | Hs]; [apply reads_on_ret|].
    assert (E : match s with
                | "q"%string => Console.ret tt
                | _ => Table.rows more N p true cols
                end = Table.rows more N p true cols).
    { destruct s as [|a t]; [reflexivity|].
      destruct a as [[] [] [] [] [] [] [] []]; try reflexivity.
      destruct t; [now contradiction Hs | reflexivity]. }
    rewrite E. exact IH.
Qed.

Lemma reads_on_get_page_size : reads_on Table._get_page_size.
Proof.
  unfold Table._get_page_size.
  apply reads_on_bind; [apply reads_on_prints, prints_print | intros _].
  apply reads_on_bind; [apply reads_on_get_answer | intros answer].
  destruct answer as [[n|s|]|]; try apply reads_on_ret; try apply reads_on_raise.
  destruct (n =? 0); apply reads_on_ret.
Qed.

Lemma reads_on_formatter_print (formatter : ContactFormatter) (contacts : list Contact)
                               (paginate : bool) :
  reads_on (formatter_print formatter contacts paginate).
Proof.
  destruct formatter; cbn [formatter_print].
  - apply reads_on_cards.
  - unfold Table.print_contacts.
    apply reads_on_bind.
    { destruct (DEFAULT_PAGE_SIZE <? len contacts);
        [apply reads_on_get_page_size | apply reads_on_ret]. }
    intros p.
    apply reads_on_bind; [apply reads_on_prints, prints_divider | intros _].
    apply reads_on_bind; [apply reads_on_prints, prints_data_row | intros _].
    apply reads_on_bind; [apply reads_on_prints, prints_divider | intros _].
    apply reads_on_bind; [apply reads_on_rows | intros _].
    apply reads_on_prints, prints_divider.
Qed.

(** ** What every operation keeps *)

Section Kept.

Variable P : Phonebook -> Prop.

Lemma keeps_ret {A : Type} (a : A) : keeps P (ret a).
Proof. intros inp pb b rest pb' HP E. injection E as _ <- <-. split; [exact HP | lia]. Qed.

Lemma keeps_raise {A : Type} (e : Exn) : keeps P (@raise A e).
Proof. intros inp pb b rest pb' HP E. discriminate. Qed.

Lemma keeps_lift {A : Type} (r : Result A) : keeps P (lift r).
Proof. destruct r; [apply keeps_ret | apply keeps_raise]. Qed.

Lemma keeps_get : keeps P get.
Proof. intros inp pb b rest pb' HP E. injection E as _ <- <-. split; [exact HP | lia]. Qed.

Lemma keeps_input : keeps P input.
Proof.
  intros [|line inp] pb b rest pb' HP E; cbn in E; [discriminate|].
  injection E as _ <- <-. split; [exact HP | cbn; lia].
Qed.

Lemma keeps_bind {A B : Type} (m : M A) (k : A -> M B) :
  keeps P m -> (forall a, keeps P (k a)) -> keeps P (bind m k).
Proof.
  intros Hm Hk inp pb b rest pb' HP E. unfold bind in E.
  destruct (m inp pb) as [a rest1 pb1 | e pb1] eqn:Em; [|discriminate].
  destruct (Hm inp pb a rest1 pb1 HP Em) as [HP1 Hl1].
  destruct (Hk a rest1 pb1 b rest pb' HP1 E) as [HP' Hl]. split; [exact HP' | lia].
Qed.

Lemma keeps_update (f : Phonebook -> Phonebook) :
  (forall pb, P pb -> P (f pb)) -> keeps P (update f).
Proof.
  intros Hf inp pb b rest pb' HP E. injection E as _ <- <-.
  split; [now apply Hf | lia].
Qed.

Lemma keeps_attempt (f : Phonebook -> Phonebook * option Exn) :
  (forall pb, P pb -> P (fst (f pb))) -> keeps P (attempt f).
Proof.
  intros Hf inp pb b rest pb' HP E. unfold attempt in E.
  destruct (snd (f pb)); [discriminate|]. injection E as _ <- <-.
  split; [now apply Hf | lia].
Qed.

Lemma keeps_at_console {A : Type} (m : Console.IO A) :
  reads_on m -> keeps P (at_console m).
Proof.
  intros Hm inp pb a rest pb' HP E. unfold at_console in E.
  destruct (Console.ended (m inp)) as [[a' rest']|e] eqn:Em; [|discriminate].
  injection E as <- <- <-. split; [exact HP | exact (Hm inp a' rest' Em)].
Qed.

Lemma keeps_get_answer (correct : PyVal -> bool) : keeps P (get_answer correct).
Proof.
  intros inp pb a rest pb' HP E.
  rewrite <- (get_answer_at_console EmptyString) in E.
  exact (keeps_at_console _ (reads_on_get_answer EmptyString correct) inp pb a rest pb' HP E).
Qed.

Lemma keeps_print_contacts (contacts : list Contact) : keeps P (print_contacts contacts).
Proof.
  intros inp pb a rest pb' HP E. rewrite print_contacts_at_console in E.
  exact (keeps_at_console _ (reads_on_formatter_print _ contacts false)
                          inp pb a rest pb' HP E).
Qed.

Lemma keeps_print_all : keeps P print_all.
Proof.
  unfold print_all. apply keeps_bind; [apply keeps_get | intros pb].
  apply keeps_at_console, reads_on_formatter_print.
Qed.

Lemma keeps_get_contact_by_index : keeps P _get_contact_by_index.
Proof.
  unfold _get_contact_by_index.
  apply keeps_bind; [apply keeps_get | intros pb].
  apply keeps_bind; [apply keeps_get_answer | intros idx].
  destruct idx as [v|]; [|apply keeps_ret].
  destruct (negb (truthy v)); [apply keeps_ret|].
  apply keeps_bind; [apply keeps_lift | intros n].
  destruct (subscript _ _); [apply keeps_ret | apply keeps_raise].
Qed.

Lemma keeps_print_search_results (contacts : list Contact) :
  keeps P (_print_search_results contacts).
Proof.
  destruct contacts; cbn [_print_search_results];
    [apply keeps_ret | apply keeps_print_contacts].
Qed.

Lemma keeps_find_by_all_fields : keeps P _find_contacts_by_all_fields.
Proof.
  unfold _find_contacts_by_all_fields.
  apply keeps_bind; [apply keeps_input | intros line].
  apply keeps_bind; [apply keeps_get | intros pb].
  apply keeps_bind; [apply keeps_lift | intros found].
  apply keeps_print_search_results.
Qed.

Lemma keeps_get_field_indexes : keeps P _get_field_indexes.
Proof.
  intros inp. induction inp as [|line inp IH]; intros pb a rest pb' HP E;
    cbn [_get_field_indexes] in E.
  - discriminate.
  - cbn [List.length]. destruct (filter_tokens (split line)) as [idxs|e]; [|discriminate].
    destruct (negb _).
    + destruct (IH pb a rest pb' HP E) as [HP' Hl]. split; [exact HP' | lia].
    + injection E as _ <- <-. split; [exact HP | lia].
Qed.

Lemma keeps_get_search_conditions (idxs : list Z) : keeps P (_get_search_conditions idxs).
Proof.
  induction idxs as [|k idxs IH]; cbn [_get_search_conditions].
  - apply keeps_ret.
  - destruct (field_map_get k field_map); [|apply keeps_raise].
    apply keeps_bind; [apply keeps_input | intros search_text].
    apply keeps_bind; [exact IH | intros conditions]. apply keeps_ret.
Qed.

Lemma keeps_find_by_given_fields : keeps P _find_contacts_by_given_fields.
Proof.
  unfold _find_contacts_by_given_fields.
  apply keeps_bind; [apply keeps_get_field_indexes | intros idxs].
  destruct idxs; [apply keeps_ret|].
  apply keeps_bind; [apply keeps_get_search_conditions | intros conditions].
  apply keeps_bind; [|intros found; apply keeps_print_search_results].
  unfold _find_contacts_by_search_conditions.
  apply keeps_bind; [apply keeps_get | intros pb]. apply keeps_lift.
Qed.

Lemma keeps_print_find_menu : keeps P _print_find_menu.
Proof.
  unfold _print_find_menu.
  apply keeps_bind; [apply keeps_get_answer | intros answer].
  destruct answer as [v|]; [|apply keeps_ret].
  destruct (negb (truthy v)); [apply keeps_ret|].
  destruct (PyVal_eqb v (VStr "1"));
    [apply keeps_find_by_all_fields | apply keeps_find_by_given_fields].
Qed.

(** What the property has to allow: an attribute set, the file written,
    a contact removed and the others numbered again, a contact added with
    the next number, and the other formatter chosen. *)
Hypothesis P_edit :
  forall pb pos attr data,
    P pb ->
    P (set_contacts (update_nth pos (fun c => setattr c attr data) (_contacts pb)) pb).
Hypothesis P_saved : forall pb, P pb -> P (fst (storage_save_all pb)).
Hypothesis P_removed :
  forall pb cs, P pb -> P (fst (storage_save_all (_update_indexes (set_contacts cs pb)))).
Hypothesis P_added :
  forall pb c,
    P pb -> index c = VInt (_last_index pb + 1) ->
    P (mkPhonebook (add_one c (_storage pb)) (_formatter pb)
                   (_contacts pb ++ [c]) (_last_index pb + 1)).
Hypothesis P_format : forall pb f, P pb -> P (set_formatter f pb).

Lemma keeps_setattr_ref (r : Ref) (attr data : string) : keeps P (setattr_ref r attr data).
Proof.
  destruct r as [pos | c]; cbn [setattr_ref]; [|apply keeps_ret].
  apply keeps_bind; [|intros; apply keeps_ret].
  apply keeps_update. intros pb. apply P_edit.
Qed.

Lemma keeps_input_fields (fields : list (Z * Field)) :
  forall r, keeps P (input_fields r fields).
Proof.
  induction fields as [|[k f] fs IH]; intros r; cbn [input_fields].
  - apply keeps_ret.
  - destruct (String.eqb (title_en f) "index"); [apply IH|].
    apply keeps_bind; [apply keeps_input | intros data].
    apply keeps_bind; [| intros r'; apply IH].
    destruct (negb _); [apply keeps_setattr_ref | apply keeps_ret].
Qed.

Lemma keeps_change_contact : keeps P _change_contact.
Proof.
  unfold _change_contact.
  apply keeps_bind; [apply keeps_get_contact_by_index | intros found].
  destruct found as [contact|]; [|apply keeps_ret].
  apply keeps_bind; [apply keeps_get | intros pb].
  destruct (deref contact (_contacts pb)); [|apply keeps_raise].
  apply keeps_bind; [apply keeps_print_contacts | intros _].
  apply keeps_bind; [| intros _; apply keeps_attempt, P_saved].
  unfold _input_contact_data.
  apply keeps_bind; [apply keeps_get | intros pb0].
  apply keeps_bind; [apply keeps_ret | intros r']. apply keeps_input_fields.
Qed.

Lemma keeps_confirm_delete (r : Ref) : keeps P (confirm_delete r).
Proof.
  intros inp. revert r. induction inp as [|line inp IH]; intros r pb a rest pb' HP E;
    cbn [confirm_delete] in E.
  - discriminate.
  - cbn [List.length].
    destruct (str_in (lower line) ["n"; "н"; "нет"; "no"]).
    { injection E as _ <- <-. split; [exact HP | lia]. }
    destruct (str_in (lower line) ["y"; "д"; "да"; "yes"]).
    + destruct (list_remove r (_contacts pb)) as [[r' cs]|e]; [|discriminate].
      pose proof (P_removed pb cs HP) as HP1.
      destruct (snd (storage_save_all (_update_indexes (set_contacts cs pb))));
        [discriminate|].
      destruct (negb _).
      * destruct (IH r' _ a rest pb' HP1 E) as [HP' Hl]. split; [exact HP' | lia].
      * injection E as _ <- <-. split; [exact HP1 | lia].
    + destruct (negb _).
      * destruct (IH r pb a rest pb' HP E) as [HP' Hl]. split; [exact HP' | lia].
      * injection E as _ <- <-. split; [exact HP | lia].
Qed.

Lemma keeps_delete_contact : keeps P _delete_contact.
Proof.
  unfold _delete_contact.
  apply keeps_bind; [apply keeps_get_contact_by_index | intros found].
  destruct found as [contact|]; [|apply keeps_ret].
  apply keeps_bind; [apply keeps_get | intros pb].
  destruct (deref contact (_contacts pb)); [|apply keeps_raise].
  apply keeps_bind; [apply keeps_print_contacts | intros _].
  apply keeps_confirm_delete.
Qed.

Lemma keeps_add_contact : keeps P _add_contact.
Proof.
  intros inp pb a rest pb' HP E.
  destruct (Nat.lt_ge_cases (List.length inp) 6) as [Hshort | Hlong].
  - destruct (add_contact_needs_six_lines pb inp Hshort) as (pb0 & E0).
    rewrite E0 in E. discriminate.
  - destruct inp as [|l [|n [|m [|o [|w [|p tail]]]]]]; try (cbn in Hlong; lia).
    change (l :: n :: m :: o :: w :: p :: tail) with ([l; n; m; o; w; p] ++ tail) in E.
    rewrite add_contact_run in E. injection E as _ <- <-.
    split; [|cbn; lia]. apply P_added; [exact HP | reflexivity].
Qed.

Lemma keeps_change_formatter : keeps P _change_formatter.
Proof.
  unfold _change_formatter. apply keeps_update. intros pb HP.
  destruct (_formatter pb); now apply P_format.
Qed.

(** ** The loop of the session *)

Lemma then_menu_ends (fuel : nat) (operation : M unit) (rest : list string)
                     (pb : Phonebook) :
  keeps P operation ->
  P pb ->
  (forall inp pb,
     P pb -> (List.length inp < fuel)%nat ->
     exists ending,
       start_loop fuel inp pb = Some ending
       /\ forall left pb', ending = SystemExit left pb' -> P pb') ->
  (List.length rest < S fuel)%nat ->
  exists ending,
    match (operation ;; input) rest pb with
    | Done _ rest' pb' => start_loop fuel rest' pb'
    | Raised e pb' => Some (Uncaught e pb')
    end = Some ending
    /\ forall left pb', ending = SystemExit left pb' -> P pb'.
Proof.
  intros Hop HP IH Hlen. unfold bind.
  destruct (operation rest pb) as [[] rest1 pb1 | e pb1] eqn:E.
  - destruct (Hop rest pb tt rest1 pb1 HP E) as [HP1 Hl1].
    destruct rest1 as [|line rest2]; cbn [input].
    + eexists. split; [reflexivity | discriminate].
    + apply IH; [exact HP1 | cbn [List.length] in Hl1; lia].
  - eexists. split; [reflexivity | discriminate].
Qed.

Lemma start_loop_ends (fuel : nat) :
  forall inp pb,
    P pb -> (List.length inp < fuel)%nat ->
    exists ending,
      start_loop fuel inp pb = Some ending
      /\ forall left pb', ending = SystemExit left pb' -> P pb'.
Proof.
  induction fuel as [|fuel IH]; intros inp pb HP Hlen; [lia|].
  destruct inp as [|line rest]; cbn [start_loop].
  - eexists. split; [reflexivity | discriminate].
  - cbn [List.length] in Hlen.
    repeat match goal with
           | |- context [if str_in ?a ?l then _ else _] => destruct (str_in a l)
           end;
      try (apply then_menu_ends; [|exact HP | exact IH | lia]).
    + apply keeps_print_all.
    + apply keeps_add_contact.
    + apply keeps_print_find_menu.
    + apply keeps_change_contact.
    + apply keeps_delete_contact.
    + apply keeps_change_formatter.
    + eexists. split; [reflexivity|]. intros left pb' E. now injection E as _ <-.
    + apply IH; [exact HP | lia].
Qed.

End Kept.
(** ** The numbering through a session *)

Lemma dense_from_indexes (cs cs' : list Contact) :
  map index cs = map index cs' -> forall s, dense_from s cs -> dense_from s cs'.
Proof.
  revert cs'. induction cs as [|c cs IH]; intros [|c' cs'] E s H; try discriminate.
  - exact I.
  - cbn [map] in E. injection E as Ec E. destruct H as [Hc H].
    split; [|now apply (IH cs' E)].
    unfold index_number in *. now rewrite <- Ec.
Qed.

Lemma numbered_edit (pb : Phonebook) (pos : nat) (attr data : string) :
  numbered pb ->
  numbered (set_contacts (update_nth pos (fun c => setattr c attr data) (_contacts pb)) pb).
Proof.
  intros [Hc Hd]. split; [now apply consistent_update_nth|].
  cbn [set_contacts _contacts].
  apply (dense_from_indexes (_contacts pb)); [|exact Hd].
  symmetry. apply update_nth_index. intros c. apply setattr_index.
Qed.

Lemma numbered_saved (pb : Phonebook) : numbered pb -> numbered (fst (storage_save_all pb)).
Proof. intros H. exact H. Qed.

Lemma numbered_removed (pb : Phonebook) (cs : list Contact) :
  numbered pb -> numbered (fst (storage_save_all (_update_indexes (set_contacts cs pb)))).
Proof.
  intros _. split; [apply consistent_after_removal|]. apply (renumber_dense 1).
Qed.

Lemma numbered_added (pb : Phonebook) (c : Contact) :
  numbered pb ->
  index c = VInt (_last_index pb + 1) ->
  numbered (mkPhonebook (add_one c (_storage pb)) (_formatter pb)
                        (_contacts pb ++ [c]) (_last_index pb + 1)).
Proof.
  intros [Hc Hd] Hi. unfold consistent in Hc. split.
  - unfold consistent. cbn [_contacts _last_index]. rewrite len_app_one. lia.
  - cbn [_contacts]. apply dense_from_snoc; [exact Hd|].
    unfold index_number. rewrite Hi. cbn [int_of]. f_equal. lia.
Qed.

Lemma numbered_format (pb : Phonebook) (f : ContactFormatter) :
  numbered pb -> numbered (set_formatter f pb).
Proof. intros H. exact H. Qed.

Lemma session_numbered (fuel : nat) (inp : list string) (pb : Phonebook) :
  numbered pb ->
  (List.length inp < fuel)%nat ->
  exists ending,
    start_loop fuel inp pb = Some ending
    /\ forall left pb', ending = SystemExit left pb' -> numbered pb'.
Proof.
  apply (start_loop_ends numbered numbered_edit numbered_saved numbered_removed
                         numbered_added numbered_format).
Qed.



(** X19.  The first launch, when there is no storage file yet: the file is
    made with the header alone, the catalogue starts empty, and the
    session that follows ends, whatever is typed; left with the quit
    command, it leaves the contacts numbered 1..N and the counter at N. *)
Theorem first_launch_session :
  forall (inp : list string),
    Phonebook_init ConsoleTableFormatter (_init_storage None) = Returns empty_book
    /\ _storage empty_book = writeheader csv_fields
    /\ exists ending,
         main None inp = Returns (Some ending)
         /\ forall left pb', ending = SystemExit left pb' -> numbered pb'.
Proof.
  intros inp.
  assert (E : Phonebook_init ConsoleTableFormatter (_init_storage None) = Returns empty_book)
    by reflexivity.
  split; [exact E|]. split; [reflexivity|].
  unfold main. rewrite E.
  assert (H : numbered empty_book) by (split; [reflexivity | exact I]).
  destruct (session_numbered (S (List.length inp)) inp empty_book H (Nat.lt_succ_diag_r _))
    as (ending & Es & Hn).
  exists ending. split; [|exact Hn]. unfold start. now rewrite Es.
Qed.

(* ================================================================== *)
(** * Further properties of the prompts and of the cards *)
(* ================================================================== *)

(** ** The search menu *)

Lemma get_answer_correct (correct : PyVal -> bool) (inp : list string) (pb : Phonebook) :
  forall v rest pb',
    get_answer correct inp pb = Done (Some v) rest pb' -> correct v = true.
Proof.
  induction inp as [|line inp IH]; intros v rest pb' E; cbn [get_answer] in E.
  - discriminate.
  - destruct (String.eqb line EmptyString); [discriminate|].
    destruct (isnumeric line).
    + destruct (py_int line) as [n|]; [|discriminate].
      destruct (correct (VInt n)) eqn:Ec; [|now apply (IH v rest pb')].
      injection E as <- _ _. exact Ec.
    + destruct (correct (VStr line)) eqn:Ec; [|now apply (IH v rest pb')].
      injection E as <- _ _. exact Ec.
Qed.


(** ** What [get_answer] writes *)

Lemma answer_loop_refused (correct : PyVal -> bool) (line : string) (rest : list string) :
  refused correct line ->
  answer_loop correct (line :: rest)
  = Console.mkRun (try_again +:+ Console.written (answer_loop correct rest))
                  (Console.ended (answer_loop correct rest)).
Proof.
  intros [Hne Hc]. cbn [answer_loop].
  destruct (String.eqb_spec line EmptyString) as [-> | _]; [contradiction|].
  unfold answer_value, py_int in *.
  destruct (isnumeric line); now rewrite Hc.
Qed.

Lemma answer_loop_accepted (correct : PyVal -> bool) (line : string) (rest : list string) :
  accepted correct line = true ->
  answer_loop correct (line :: rest)
  = Console.mkRun EmptyString (Returns (answer_of line, rest)).
Proof.
  unfold accepted, answer_of. intros H. cbn [answer_loop].
  destruct (String.eqb line EmptyString); [reflexivity|]. cbn [orb] in H.
  unfold answer_value, py_int in *.
  destruct (isnumeric line); now rewrite H.
Qed.

Lemma answer_loop_skips (correct : PyVal -> bool) (skipped : list string) :
  Forall (refused correct) skipped ->
  forall inp,
    answer_loop correct (skipped ++ inp)
    = Console.mkRun (copies (List.length skipped) try_again
                     +:+ Console.written (answer_loop correct inp))
                    (Console.ended (answer_loop correct inp)).
Proof.
  intros H inp. induction H as [|line skipped Hl H IH]; cbn [app List.length copies].
  - now destruct (answer_loop correct inp).
  - rewrite (answer_loop_refused correct line _ Hl), IH.
    cbn [Console.written Console.ended]. now rewrite !append_assoc.
Qed.



(** ** The box of a card *)

Lemma land_one_bounds (x : Z) : 0 <= Z.land x 1 <= 1.
Proof.
  change 1 with (Z.ones 1) at 1 2. rewrite Z.land_ones by lia.
  pose proof (Z.mod_pos_bound x (2 ^ 1) ltac:(lia)). change (2 ^ 1) with 2 in *. lia.
Qed.

Lemma str_len_center (s : string) (width : Z) (fill : string) :
  str_len fill = 1 -> str_len (center s width fill) = Z.max width (str_len s).
Proof.
  intros H. unfold center. destruct (Z.leb_spec width (str_len s)); [lia|].
  set (marg := width - str_len s).
  pose proof (land_one_bounds (Z.land marg width)) as Hb.
  assert (Hm : 1 <= marg) by (subst marg; lia).
  assert (Hh : 0 <= marg / 2) by (apply Z.div_pos; lia).
  assert (Hu : marg / 2 + Z.land (Z.land marg width) 1 <= marg).
  { destruct (Z.eq_dec marg 1) as [-> | Hne]; [change (1 / 2) with 0; lia|].
    assert (marg / 2 + 1 <= marg); [|lia].
    pose proof (Z.div_mod marg 2 ltac:(lia)).
    pose proof (Z.mod_pos_bound marg 2 ltac:(lia)). lia. }
  rewrite !str_len_app, !str_len_str_mul by exact H. lia.
Qed.

Lemma texts_app (a b : list string) : texts (a ++ b) = texts a +:+ texts b.
Proof.
  induction a as [|x a IH]; cbn [app texts fold_right]; [reflexivity|].
  fold (texts (a ++ b)). fold (texts a). now rewrite IH, append_assoc.
Qed.

Lemma printed_labelled (label : string) (value : Text) (card_width : Z) :
  printed (VisitCard.labelled label value card_width)
  = texts (map (fun l => l +:+ String LF EmptyString)
               (if truthy (text_val value)
                then ["| " +:+ center (label +:+ py_str (text_val value)) card_width " "
                      +:+ " |"]
                else [])).
Proof.
  unfold VisitCard.labelled. destruct (truthy (text_val value)); cbn [map texts fold_right].
  - unfold printed. cbn [Console.print Console.write Console.written].
    now rewrite append_nil_r.
  - reflexivity.
Qed.

Lemma labelled_width (label : string) (value : Text) :
  let lines := if truthy (text_val value)
               then ["| " +:+ center (label +:+ py_str (text_val value)) 40 " " +:+ " |"]
               else [] in
  List.length lines = card_lines_of value
  /\ Forall (fun l => 44 <= str_len l) lines
  /\ (str_len (label +:+ py_str (text_val value)) <= 40 ->
      Forall (fun l => str_len l = 44) lines).
Proof.
  unfold card_lines_of. destruct (truthy (text_val value)); cbn zeta.
  - split; [reflexivity|].
    assert (E : str_len ("| " +:+ center (label +:+ py_str (text_val value)) 40 " " +:+ " |")
                = 4 + Z.max 40 (str_len (label +:+ py_str (text_val value)))).
    { generalize (label +:+ py_str (text_val value)) as t. intros t.
      rewrite !str_len_app, str_len_center by reflexivity.
      change (str_len "| ") with 2. change (str_len " |") with 2. lia. }
    split; [|intros Hf]; repeat constructor; rewrite E; lia.
  - split; [reflexivity|]. split; [|intros _]; constructor.
Qed.



(* ================================================================== *)
(** * What can go wrong *)
(* ================================================================== *)

(** ** At the console *)

Section Raises.

Variable E : Exn -> Prop.
Hypothesis E_EOF : E EOFError.

Lemma console_raises_only_prints (m : Console.IO unit) :
  prints m -> console_raises_only E m.
Proof. intros H inp e Em. rewrite (H inp) in Em. discriminate. Qed.

Lemma console_raises_only_ret {A : Type} (a : A) : console_raises_only E (Console.ret a).
Proof. intros inp e Em. discriminate. Qed.

Lemma console_raises_only_input (prompt : string) :
  console_raises_only E (Console.input prompt).
Proof.
  intros [|line inp] e Em; cbn in Em; [|discriminate]. now injection Em as <-.
Qed.

Lemma console_raises_only_bind {A B : Type} (m : Console.IO A) (k : A -> Console.IO B) :
  console_raises_only E m -> (forall a, console_raises_only E (k a)) ->
  console_raises_only E (Console.bind m k).
Proof.
  intros Hm Hk inp e Em. rewrite ended_bind in Em.
  destruct (Console.ended (m inp)) as [[a rest]|e'] eqn:E1.
  - exact (Hk a rest e Em).
  - injection Em as <-. exact (Hm inp e' E1).
Qed.

Lemma console_raises_only_answer_loop (correct : PyVal -> bool) :
  console_raises_only E (answer_loop correct).
Proof.
  intros inp. induction inp as [|line inp IH]; intros e Em; cbn [answer_loop] in Em.
  - cbn in Em. now injection Em as <-.
  - destruct (String.eqb line EmptyString); [discriminate|].
    unfold py_int in Em. destruct (isnumeric line).
    + destruct (correct (VInt _)); [discriminate | exact (IH e Em)].
    + destruct (correct (VStr line)); [discriminate | exact (IH e Em)].
Qed.

Lemma console_raises_only_get_answer (prompt : string) (correct : PyVal -> bool) :
  console_raises_only E (console_get_answer prompt correct).
Proof.
  unfold console_get_answer.
  apply console_raises_only_bind; [apply console_raises_only_prints, prints_write|].
  intros _. apply console_raises_only_answer_loop.
Qed.

Lemma console_raises_only_get_page_size : console_raises_only E Table._get_page_size.
Proof.
  intros inp e Em. pose proof (get_page_size_ended inp) as H.
  destruct (Console.ended (answer_loop (in_py_range 1 101) inp)) as [[a rest]|e'] eqn:El.
  - destruct H as (p & _ & H). rewrite H in Em. discriminate.
  - rewrite H in Em. injection Em as <-.
    exact (console_raises_only_answer_loop _ inp e' El).
Qed.

Lemma console_raises_only_cards (N : Z) (paginate : bool) (contacts : list Contact) :
  Forall (fun c => exists i, index_number c = Some i) contacts ->
  console_raises_only E (VisitCard.cards contacts N paginate).
Proof.
  intros H. induction H as [|c cs [i Hi] H IH]; cbn [VisitCard.cards].
  - apply console_raises_only_ret.
  - apply console_raises_only_bind; [apply console_raises_only_prints, prints_card|].
    intros _. destruct paginate; [|exact IH].
    rewrite (int_index_number c i Hi). cbn [Console.lift].
    apply console_raises_only_bind; [apply console_raises_only_ret | intros j].
    destruct (j <? N); [|exact IH].
    apply console_raises_only_bind; [apply console_raises_only_input | intros answer].
    destruct (String.eqb answer "q"); [apply console_raises_only_ret | exact IH].
Qed.

Lemma console_raises_only_rows (N p : Z) (paginate : bool) (cols : list Z)
                               (contacts : list Contact) :
  Forall (fun c => exists i, index_number c = Some i) contacts ->
  console_raises_only E (Table.rows (map data_row contacts) N p paginate cols).
Proof.
  intros H. induction H as [|c cs [i Hi] H IH]; cbn [map Table.rows].
  - apply console_raises_only_ret.
  - apply console_raises_only_bind; [apply console_raises_only_prints, prints_data_row|].
    intros _. destruct paginate; [|exact IH].
    change (Table.first_number (data_row c)) with (int_index (index c)).
    rewrite (int_index_number c i Hi). cbn [Console.lift].
    apply console_raises_only_bind; [apply console_raises_only_ret | intros j].
    destruct ((j mod p =? 0) && negb (j =? N)); [|exact IH].
    apply console_raises_only_bind; [apply console_raises_only_get_answer | intros answer].
    destruct answer as [[n|s|]|]; try exact IH.
    destruct s as [|a t]; [exact IH|].
    destruct a as [[] [] [] [] [] [] [] []]; try exact IH.
    destruct t; [apply console_raises_only_ret | exact IH].
Qed.

Lemma console_raises_only_formatter_print (formatter : ContactFormatter)
        (contacts : list Contact) (paginate : bool) :
  (paginate = true -> Forall (fun c => exists i, index_number c = Some i) contacts) ->
  console_raises_only E (formatter_print formatter contacts paginate).
Proof.
  intros H. destruct formatter; cbn [formatter_print].
  - destruct paginate.
    + now apply console_raises_only_cards, H.
    + apply console_raises_only_prints, prints_cards_unpaginated.
  - unfold Table.print_contacts.
    apply console_raises_only_bind.
    { destruct (DEFAULT_PAGE_SIZE <? len contacts);
        [apply console_raises_only_get_page_size | apply console_raises_only_ret]. }
    intros p.
    apply console_raises_only_bind; [apply console_raises_only_prints, prints_divider|].
    intros _.
    apply console_raises_only_bind; [apply console_raises_only_prints, prints_data_row|].
    intros _.
    apply console_raises_only_bind; [apply console_raises_only_prints, prints_divider|].
    intros _.
    apply console_raises_only_bind; [|intros _; apply console_raises_only_prints, prints_divider].
    destruct paginate.
    + now apply console_raises_only_rows, H.
    + apply console_raises_only_prints, prints_rows_unpaginated.
Qed.

(** ** In the operations *)

Lemma raises_only_ret {A : Type} (a : A) : raises_only E (ret a).
Proof. intros inp pb e pb' Em. discriminate. Qed.

Lemma raises_only_get : raises_only E get.
Proof. intros inp pb e pb' Em. discriminate. Qed.

Lemma raises_only_input : raises_only E input.
Proof.
  intros [|line inp] pb e pb' Em; cbn in Em; [|discriminate]. now injection Em as <- _.
Qed.

Lemma raises_only_raise {A : Type} (e : Exn) : E e -> raises_only E (@raise A e).
Proof. intros He inp pb e' pb' Em. now injection Em as <- _. Qed.

Lemma raises_only_lift {A : Type} (r : Result A) :
  (forall e, r = Raises e -> E e) -> raises_only E (lift r).
Proof.
  intros H. destruct r as [a|e]; [apply raises_only_ret|].
  apply raises_only_raise. now apply H.
Qed.

Lemma raises_only_bind {A B : Type} (m : M A) (k : A -> M B) :
  raises_only E m -> (forall a, raises_only E (k a)) -> raises_only E (bind m k).
Proof.
  intros Hm Hk inp pb e pb' Em. unfold bind in Em.
  destruct (m inp pb) as [a rest pb1 | e1 pb1] eqn:E1.
  - exact (Hk a rest pb1 e pb' Em).
  - injection Em as <- _. exact (Hm inp pb e1 pb1 E1).
Qed.

Lemma raises_only_update (f : Phonebook -> Phonebook) : raises_only E (update f).
Proof. intros inp pb e pb' Em. discriminate. Qed.

Lemma raises_only_save : raises_only E (attempt storage_save_all).
Proof.
  intros inp pb e pb' Em. unfold attempt, storage_save_all in Em. cbn [snd fst] in Em.
  rewrite save_all_writes in Em. discriminate.
Qed.

Lemma raises_only_at_console {A : Type} (m : Console.IO A) :
  console_raises_only E m -> raises_only E (at_console m).
Proof.
  intros Hm inp pb e pb' Em. unfold at_console in Em.
  destruct (Console.ended (m inp)) as [[a rest]|e1] eqn:E1; [discriminate|].
  injection Em as <- _. exact (Hm inp e1 E1).
Qed.

Lemma raises_only_get_answer (correct : PyVal -> bool) : raises_only E (get_answer correct).
Proof.
  intros inp pb e pb' Em. rewrite <- (get_answer_at_console EmptyString) in Em.
  exact (raises_only_at_console _ (console_raises_only_get_answer EmptyString correct)
                                inp pb e pb' Em).
Qed.

Lemma raises_only_print_contacts (contacts : list Contact) :
  raises_only E (print_contacts contacts).
Proof.
  intros inp pb e pb' Em. rewrite print_contacts_at_console in Em.
  refine (raises_only_at_console _ _ inp pb e pb' Em).
  apply console_raises_only_formatter_print. discriminate.
Qed.

Lemma raises_only_print_search_results (contacts : list Contact) :
  raises_only E (_print_search_results contacts).
Proof.
  destruct contacts; cbn [_print_search_results];
    [apply raises_only_ret | apply raises_only_print_contacts].
Qed.

Lemma raises_only_setattr_ref (r : Ref) (attr data : string) :
  raises_only E (setattr_ref r attr data).
Proof.
  destruct r; cbn [setattr_ref]; [|apply raises_only_ret].
  apply raises_only_bind; [apply raises_only_update | intros; apply raises_only_ret].
Qed.

Lemma raises_only_input_fields (fields : list (Z * Field)) :
  forall r, raises_only E (input_fields r fields).
Proof.
  induction fields as [|[k f] fs IH]; intros r; cbn [input_fields].
  - apply raises_only_ret.
  - destruct (String.eqb (title_en f) "index"); [apply IH|].
    apply raises_only_bind; [apply raises_only_input | intros data].
    apply raises_only_bind; [| intros r'; apply IH].
    destruct (negb _); [apply raises_only_setattr_ref | apply raises_only_ret].
Qed.

Lemma raises_only_get_field_indexes : raises_only E _get_field_indexes.
Proof.
  intros inp. induction inp as [|line inp IH]; intros pb e pb' Em;
    cbn [_get_field_indexes] in Em.
  - now injection Em as <- _.
  - assert (Hf : forall answer, exists kept, filter_tokens answer = Returns kept).
    { clear. induction answer as [|x answer [kept IHa]]; cbn [filter_tokens].
      - now eexists.
      - unfold py_int. destruct (isnumeric x); rewrite IHa; now eexists. }
    destruct (Hf (split line)) as [kept Hk]. rewrite Hk in Em.
    destruct (negb _); [exact (IH pb e pb' Em) | discriminate].
Qed.

End Raises.
(** ** The contact asked for *)

Lemma raises_only_input_contact_data (E : Exn -> Prop) (r : Ref) (mode : Mode) :
  E EOFError -> raises_only E (_input_contact_data r mode).
Proof.
  intros HE. unfold _input_contact_data.
  apply raises_only_bind; [apply raises_only_get | intros pb].
  apply raises_only_bind; [|intros r'; now apply raises_only_input_fields].
  destruct mode, r; try apply raises_only_ret.
  apply raises_only_bind; [|intros; apply raises_only_ret].
  intros inp pb0 e pb' Em. discriminate.
Qed.

Lemma get_contact_by_index_refers (inp : list string) (pb : Phonebook) :
  consistent pb ->
  match _get_contact_by_index inp pb with
  | Done found rest pb' =>
      pb' = pb /\ match found with
                  | Some r => refers r (_contacts pb)
                  | None => True
                  end
  | Raised e _ => e = EOFError
  end.
Proof.
  intros Hc. unfold _get_contact_by_index. unfold bind at 1. cbn [get]. unfold bind at 1.
  pose proof (readonly_get_answer (in_py_range 1 (_last_index pb + 1)) inp pb) as Hro.
  destruct (get_answer (in_py_range 1 (_last_index pb + 1)) inp pb)
    as [[v|] rest pb1 | e pb1] eqn:Eg; cbn [final_state] in Hro; subst pb1.
  - apply get_answer_correct in Eg. destruct v as [n|s|]; try discriminate.
    cbn [in_py_range] in Eg. apply andb_true_iff in Eg as [H1 H2].
    apply Z.leb_le in H1. apply Z.ltb_lt in H2. unfold consistent in Hc.
    cbn [truthy]. destruct (Z.eqb_spec n 0); [lia|]. cbn [negb].
    unfold bind, lift, ret. cbn [int_of]. unfold subscript.
    destruct (Z.ltb_spec (n - 1) 0); [lia|].
    destruct (Z.leb_spec 0 (n - 1)); [|lia].
    destruct (Z.ltb_spec (n - 1) (len (_contacts pb))); [|lia]. cbn [andb].
    split; [reflexivity|]. unfold refers. cbn [deref].
    destruct (nth_error (_contacts pb) (Z.to_nat (n - 1))) as [c|] eqn:En; [now exists c|].
    apply nth_error_None in En. unfold len in *. lia.
  - now split.
  - exact (raises_only_get_answer (fun e => e = EOFError) eq_refl _ inp pb e pb Eg).
Qed.

Lemma add_contact_raises (inp : list string) (pb : Phonebook) (e : Exn) (pb' : Phonebook) :
  _add_contact inp pb = Raised e pb' -> e = EOFError.
Proof.
  intros Em. destruct (Nat.lt_ge_cases (List.length inp) 6) as [Hshort | Hlong].
  - destruct (add_contact_needs_six_lines pb inp Hshort) as (pb0 & E0).
    rewrite E0 in Em. now injection Em as <- _.
  - destruct inp as [|l [|n [|m [|o [|w [|p tail]]]]]]; try (cbn in Hlong; lia).
    change (l :: n :: m :: o :: w :: p :: tail) with ([l; n; m; o; w; p] ++ tail) in Em.
    rewrite add_contact_run in Em. discriminate.
Qed.

Lemma change_contact_raises (inp : list string) (pb : Phonebook) (e : Exn)
                            (pb' : Phonebook) :
  consistent pb -> _change_contact inp pb = Raised e pb' -> e = EOFError.
Proof.
  intros Hc Em. unfold _change_contact in Em. unfold bind at 1 in Em.
  pose proof (get_contact_by_index_refers inp pb Hc) as Hg.
  destruct (_get_contact_by_index inp pb) as [[r|] rest pb1 | e1 pb1].
  - destruct Hg as [-> [c Hr]]. unfold bind at 1 in Em. cbn [get] in Em. rewrite Hr in Em.
    revert Em. generalize rest pb e pb'. change (raises_only (fun e => e = EOFError)
      (print_contacts [c] ;; _input_contact_data r edit ;; attempt storage_save_all)).
    apply raises_only_bind; [now apply raises_only_print_contacts | intros _].
    apply raises_only_bind; [now apply raises_only_input_contact_data | intros _].
    apply raises_only_save.
  - discriminate.
  - injection Em as <- _. exact Hg.
Qed.

Lemma print_all_raises (inp : list string) (pb : Phonebook) (e : Exn) (pb' : Phonebook) :
  dense_from 1 (_contacts pb) -> print_all inp pb = Raised e pb' -> e = EOFError.
Proof.
  intros Hd Em. unfold print_all in Em. unfold bind in Em. cbn [get] in Em.
  refine (raises_only_at_console (fun e => e = EOFError) _ _ inp pb e pb' Em).
  apply console_raises_only_formatter_print; [reflexivity|].
  intros _. exact (dense_numbered _ _ Hd).
Qed.

(** ** Deleting *)

Lemma index_of_le (c : Contact) (cs : list Contact) :
  forall pos, nth_error cs pos = Some c ->
              exists q, index_of c cs = Some q /\ (q <= pos)%nat.
Proof.
  induction cs as [|x cs IH]; intros pos Hn.
  - destruct pos; discriminate.
  - cbn [index_of]. destruct pos as [|pos]; cbn [nth_error] in Hn.
    + injection Hn as ->. rewrite Contact_eqb_refl. exists O. split; [reflexivity | lia].
    + destruct (Contact_eqb x c); [exists O; split; [reflexivity | lia]|].
      destruct (IH pos Hn) as (q & -> & Hq). exists (S q). split; [reflexivity | lia].
Qed.

Lemma nth_error_remove_nth_after {A : Type} (l : list A) :
  forall q pos, (q < pos)%nat -> nth_error (remove_nth q l) (Nat.pred pos) = nth_error l pos.
Proof.
  induction l as [|x l IH]; intros q pos Hq.
  - destruct q, pos; cbn; try reflexivity; now destruct pos.
  - destruct pos as [|pos]; [lia|]. destruct q as [|q]; cbn [remove_nth Nat.pred nth_error].
    + reflexivity.
    + destruct pos as [|pos]; [lia|]. cbn [nth_error].
      apply (IH q (S pos)). lia.
Qed.

Lemma refers_renumber (r : Ref) (s : Z) (cs : list Contact) :
  refers r cs -> refers r (renumber s cs).
Proof.
  destruct r as [pos | c]; [|intros _; now exists c].
  intros [c Hc]. unfold refers. cbn [deref] in *.
  destruct (nth_error (renumber s cs) pos) as [c'|] eqn:En; [now exists c'|].
  apply nth_error_None in En. rewrite renumber_length in En.
  assert (nth_error cs pos <> None) by (rewrite Hc; discriminate).
  apply nth_error_Some in H. lia.
Qed.

Lemma list_remove_refers (r : Ref) (cs : list Contact) :
  refers r cs ->
  match list_remove r cs with
  | Returns (r', cs') => refers r' (renumber 1 cs')
  | Raises e => e = ValueError
  end.
Proof.
  intros [c Hc]. unfold list_remove. rewrite Hc.
  destruct (index_of c cs) as [q|] eqn:Eq; [|reflexivity].
  apply refers_renumber. destruct r as [pos | c0]; [|now exists c0].
  cbn [deref] in Hc. destruct (index_of_le c cs pos Hc) as (q' & Eq' & Hle).
  rewrite Eq in Eq'. injection Eq' as <-.
  destruct (Nat.eqb_spec q pos) as [-> | Hne]; [now exists c|].
  exists c. cbn [deref]. rewrite nth_error_remove_nth_after by lia. exact Hc.
Qed.

Lemma confirm_delete_raises (inp : list string) :
  forall (r : Ref) (pb : Phonebook) (e : Exn) (pb' : Phonebook),
    refers r (_contacts pb) ->
    confirm_delete r inp pb = Raised e pb' ->
    e = EOFError \/ e = ValueError.
Proof.
  induction inp as [|line inp IH]; intros r pb e pb' Hr Em; cbn [confirm_delete] in Em.
  - injection Em as <- _. now left.
  - destruct (str_in (lower line) ["n"; "н"; "нет"; "no"]); [discriminate|].
    destruct (str_in (lower line) ["y"; "д"; "да"; "yes"]).
    + pose proof (list_remove_refers r (_contacts pb) Hr) as Hl.
      destruct (list_remove r (_contacts pb)) as [[r' cs]|e1].
      * unfold storage_save_all in Em. cbn [snd fst] in Em.
        rewrite save_all_writes in Em. cbn [snd fst] in Em.
        destruct (negb _); [|discriminate].
        refine (IH r' _ e pb' _ Em). exact Hl.
      * injection Em as <- _. now right.
    + destruct (negb _); [exact (IH r pb e pb' Hr Em) | discriminate].
Qed.

Lemma delete_contact_raises (inp : list string) (pb : Phonebook) (e : Exn)
                            (pb' : Phonebook) :
  consistent pb -> _delete_contact inp pb = Raised e pb' -> e = EOFError \/ e = ValueError.
Proof.
  intros Hc Em. unfold _delete_contact in Em. unfold bind at 1 in Em.
  pose proof (get_contact_by_index_refers inp pb Hc) as Hg.
  destruct (_get_contact_by_index inp pb) as [[r|] rest pb1 | e1 pb1].
  - destruct Hg as [-> [c Hr]]. unfold bind at 1 in Em. cbn [get] in Em. rewrite Hr in Em.
    unfold bind in Em. rewrite print_contacts_single in Em.
    apply (confirm_delete_raises rest r pb e pb'); [now exists c | exact Em].
  - discriminate.
  - injection Em as <- _. left. exact Hg.
Qed.

(** ** Searching *)

Lemma scan_values_raises (search : string) (contact : Contact) (values : list PyVal) :
  forall found e, scan_values search contact values found = Raises e -> e = AttributeError.
Proof.
  induction values as [|v values IH]; intros found e Em; cbn [scan_values] in Em.
  - discriminate.
  - destruct v as [n|s|]; cbn [lower_of] in Em;
      try (now injection Em as <-). exact (IH _ e Em).
Qed.

Lemma scan_contacts_raises (search : string) (contacts : list Contact) :
  forall found e, scan_contacts search contacts found = Raises e -> e = AttributeError.
Proof.
  induction contacts as [|c cs IH]; intros found e Em; cbn [scan_contacts] in Em.
  - discriminate.
  - destruct (scan_values search c (data_row c) found) as [found'|e1] eqn:Es.
    + exact (IH found' e Em).
    + injection Em as <-. exact (scan_values_raises _ _ _ _ _ Es).
Qed.

Lemma match_conditions_raises (contact : Contact) (conditions : list SearchCondition) :
  forall total matched found e,
    match_conditions contact conditions total matched found = Raises e ->
    e = AttributeError.
Proof.
  induction conditions as [|s conditions IH]; intros total matched found e Em;
    cbn [match_conditions] in Em.
  - discriminate.
  - destruct (getattr contact (field s)) as [v|]; [|now injection Em as <-].
    destruct v as [n|t|]; cbn [lower_of] in Em;
      try (now injection Em as <-). exact (IH _ _ _ e Em).
Qed.

Lemma match_contacts_raises (conditions : list SearchCondition) (contacts : list Contact) :
  forall found e, match_contacts contacts conditions found = Raises e -> e = AttributeError.
Proof.
  induction contacts as [|c cs IH]; intros found e Em; cbn [match_contacts] in Em.
  - discriminate.
  - destruct (match_conditions c conditions (len conditions) 0 found) as [found'|e1] eqn:Es.
    + exact (IH found' e Em).
    + injection Em as <-. exact (match_conditions_raises _ _ _ _ _ _ Es).
Qed.

Lemma search_error_EOF : search_error EOFError.
Proof. now left. Qed.

Lemma raises_only_find_by_all_fields : raises_only search_error _find_contacts_by_all_fields.
Proof.
  unfold _find_contacts_by_all_fields.
  apply raises_only_bind; [apply raises_only_input, search_error_EOF | intros line].
  apply raises_only_bind; [apply raises_only_get | intros pb].
  apply raises_only_bind;
    [|intros found; apply raises_only_print_search_results, search_error_EOF].
  apply raises_only_lift. intros e Em. right. left.
  exact (scan_contacts_raises _ _ _ _ Em).
Qed.

Lemma raises_only_get_search_conditions (idxs : list Z) :
  raises_only search_error (_get_search_conditions idxs).
Proof.
  induction idxs as [|k idxs IH]; cbn [_get_search_conditions].
  - apply raises_only_ret.
  - destruct (field_map_get k field_map).
    + apply raises_only_bind; [apply raises_only_input, search_error_EOF | intros t].
      apply raises_only_bind; [exact IH | intros; apply raises_only_ret].
    + apply raises_only_raise. right. right. now eexists.
Qed.

Lemma raises_only_find_by_given_fields :
  raises_only search_error _find_contacts_by_given_fields.
Proof.
  unfold _find_contacts_by_given_fields.
  apply raises_only_bind; [apply raises_only_get_field_indexes, search_error_EOF|].
  intros idxs. destruct idxs; [apply raises_only_ret|].
  apply raises_only_bind; [apply raises_only_get_search_conditions | intros conditions].
  apply raises_only_bind;
    [|intros found; apply raises_only_print_search_results, search_error_EOF].
  unfold _find_contacts_by_search_conditions.
  apply raises_only_bind; [apply raises_only_get | intros pb].
  apply raises_only_lift. intros e Em. right. left.
  exact (match_contacts_raises _ _ _ _ Em).
Qed.

Lemma raises_only_print_find_menu : raises_only search_error _print_find_menu.
Proof.
  unfold _print_find_menu.
  apply raises_only_bind; [apply raises_only_get_answer, search_error_EOF | intros answer].
  destruct answer as [v|]; [|apply raises_only_ret].
  destruct (negb (truthy v)); [apply raises_only_ret|].
  destruct (PyVal_eqb v (VStr "1"));
    [apply raises_only_find_by_all_fields | apply raises_only_find_by_given_fields].
Qed.

(** ** In a session *)

Lemma then_menu_uncaught (fuel : nat) (operation : M unit) (rest : list string)
                         (pb : Phonebook) (e : Exn) (pb' : Phonebook) :
  keeps numbered operation ->
  (forall e1 pb1, operation rest pb = Raised e1 pb1 -> known_error e1) ->
  numbered pb ->
  (forall inp pb e pb',
     numbered pb -> start_loop fuel inp pb = Some (Uncaught e pb') -> known_error e) ->
  match (operation ;; input) rest pb with
  | Done _ rest' pb1 => start_loop fuel rest' pb1
  | Raised e1 pb1 => Some (Uncaught e1 pb1)
  end = Some (Uncaught e pb') ->
  known_error e.
Proof.
  intros Hk Hr HP IH. unfold bind.
  destruct (operation rest pb) as [[] rest1 pb1 | e1 pb1] eqn:Eo.
  - destruct (Hk rest pb tt rest1 pb1 HP Eo) as [HP1 _].
    destruct rest1 as [|line rest2]; cbn [input].
    + intros Em. injection Em as <- _. now left.
    + apply IH. exact HP1.
  - intros Em. injection Em as <- _. exact (Hr e1 pb1 eq_refl).
Qed.

Lemma start_loop_uncaught (fuel : nat) :
  forall inp pb e pb',
    numbered pb -> start_loop fuel inp pb = Some (Uncaught e pb') -> known_error e.
Proof.
  induction fuel as [|fuel IH]; intros inp pb e pb' HP Em; [discriminate|].
  destruct inp as [|line rest]; cbn [start_loop] in Em.
  - injection Em as <- _. now left.
  - pose proof HP as [Hc Hd].
    repeat match type of Em with
           | context [if str_in ?a ?l then _ else _] => destruct (str_in a l)
           end;
      try (revert Em; apply then_menu_uncaught; [| |exact HP | exact IH]).
    + apply keeps_print_all.
    + intros e1 pb1 E1. left. exact (print_all_raises _ _ _ _ Hd E1).
    + apply (keeps_add_contact numbered numbered_added).
    + intros e1 pb1 E1. left. exact (add_contact_raises _ _ _ _ E1).
    + apply keeps_print_find_menu.
    + intros e1 pb1 E1.
      destruct (raises_only_print_find_menu _ _ _ _ E1) as [-> | [-> | Hk]];
        [now left | right; right; now left | right; right; now right].
    + apply (keeps_change_contact numbered numbered_edit numbered_saved).
    + intros e1 pb1 E1. left. exact (change_contact_raises _ _ _ _ Hc E1).
    + apply (keeps_delete_contact numbered numbered_removed).
    + intros e1 pb1 E1.
      destruct (delete_contact_raises _ _ _ _ Hc E1) as [-> | ->];
        [now left | right; now left].
    + apply (keeps_change_formatter numbered numbered_format).
    + intros e1 pb1 E1. discriminate.
    + discriminate.
    + exact (IH rest pb e pb' HP Em).
Qed.



(* ================================================================== *)
(** * The file after an edit or a deletion *)
(* ================================================================== *)

Lemma saved_after_save (pb : Phonebook) : saved (fst (storage_save_all pb)).
Proof.
  unfold saved, storage_save_all. cbn [fst _storage _contacts set_storage].
  now rewrite save_all_writes.
Qed.

Lemma saved_then {A B : Type} (m : M A) (k : A -> M B) :
  (forall a inp pb b rest pb', k a inp pb = Done b rest pb' -> saved pb') ->
  forall inp pb b rest pb', bind m k inp pb = Done b rest pb' -> saved pb'.
Proof.
  intros Hk inp pb b rest pb' E. unfold bind in E.
  destruct (m inp pb) as [a rest1 pb1 | e pb1]; [|discriminate].
  exact (Hk a rest1 pb1 b rest pb' E).
Qed.

Lemma saved_by_attempt (inp : list string) (pb : Phonebook) (rest : list string)
                       (pb' : Phonebook) :
  attempt storage_save_all inp pb = Done tt rest pb' -> saved pb'.
Proof.
  unfold attempt. destruct (snd (storage_save_all pb)); [discriminate|].
  intros E. injection E as _ <-. apply saved_after_save.
Qed.

Lemma confirm_delete_saved (inp : list string) :
  forall (r : Ref) (pb : Phonebook) (rest : list string) (pb' : Phonebook),
    confirm_delete r inp pb = Done tt rest pb' -> pb' = pb \/ saved pb'.
Proof.
  induction inp as [|line inp IH]; intros r pb rest pb' E; cbn [confirm_delete] in E.
  - discriminate.
  - destruct (str_in (lower line) ["n"; "н"; "нет"; "no"]).
    { injection E as _ <-. now left. }
    destruct (str_in (lower line) ["y"; "д"; "да"; "yes"]).
    + destruct (list_remove r (_contacts pb)) as [[r' cs]|e]; [|discriminate].
      pose proof (saved_after_save (_update_indexes (set_contacts cs pb))) as Hs.
      destruct (snd (storage_save_all (_update_indexes (set_contacts cs pb))));
        [discriminate|].
      right. destruct (negb _).
      * destruct (IH r' _ rest pb' E) as [-> | H]; assumption.
      * injection E as _ <-. exact Hs.
    + destruct (negb _); [exact (IH r pb rest pb' E)|].
      injection E as _ <-. now left.
Qed.


